(** * Evolutionary Music Studio: the evolutionary generation engine

    A shallow embedding of the TypeScript sources

    - [types/generation.ts]        (the data model),
    - [engine/musicEngine.ts]      ([MusicEngine.emotionToParams] and its helpers),
    - [evolution/evolutionEngine.ts] (strategy selection, mutation, fitness,
      [createInitialGeneration], [evolve]),
    - [stores/sessionStore.ts]     ([startNewSession],
      [evolveCurrentGeneration], [runAutonomousEvolution],
      [setCurrentGeneration], [addFeedback], [updateSettings],
      [buildGenerationTree]),

    followed by the properties of the specification that concern them, and
    by further properties of the same code.

    Modelling conventions.

    - A JavaScript [number] that the program only ever reads, adds, multiplies,
      compares or clamps is an exact rational ([Q]); rounding and overflow of
      IEEE doubles are not modelled.  The one place where the program can
      produce a value that is not a finite number is the division [0 / 0] in
      [variance]; numbers that can carry that value are [jsnum].
    - Strings are byte strings; [toLowerCase] acts on the ASCII letters.
    - [Math.random()] and [Date.now()] read two tapes that are part of the
      [World]; a draw of [Math.random()] is expected to lie in [0,1).
    - Objects that the program writes through a reference taken from an
      argument (the [oscillator] and [envelope] of a synth voice) live in a
      heap inside the [World], and a synth voice holds their locations.
      Everything else is only ever written through the fresh result of
      [JSON.parse(JSON.stringify(..))] and is modelled by value.
    - An array slot of [patterns] can hold [undefined] (the program can push
      [params.patterns[0]] of an empty array): a slot is an [option].
    - A call of an [async] function of the store runs to its end before the
      next call starts; the remote service of the API mode is a parameter.
    - The text of [MusicEngine.generateCode] and the text of a generated id
      are parameters ([renderCode], [renderId]); playback is not modelled. *)

From Stdlib Require Import QArith Qround Qabs Qminmax Lqa.
From Stdlib Require Import String Ascii List ZArith Lia Bool.
From stdpp Require Import base list.
Import ListNotations.

Open Scope string_scope.
Open Scope Q_scope.

(** ** Numbers *)

(** A number that may be [NaN]. *)
Inductive jsnum :=
| Num (q : Q)
| NaN.

Definition Qgtb (a b : Q) : bool := negb (Qle_bool a b).
Definition Qltb (a b : Q) : bool := negb (Qle_bool b a).

Infix ">?" := Qgtb (at level 70, no associativity) : Q_scope.
Infix "<?" := Qltb (at level 70, no associativity) : Q_scope.

(** [Math.max(lo, Math.min(hi, x))] *)
Definition clamp (lo hi x : Q) : Q := Qmax lo (Qmin hi x).

(** [Math.floor(x)] as an array index. *)
Definition floor_index (x : Q) : Z := Qfloor x.

(** [n] as a JavaScript number, for array lengths. *)
Definition of_nat (n : nat) : Q := inject_Z (Z.of_nat n).

Module JsNum.
(** Arithmetic on numbers that may be [NaN]: [NaN] is absorbing, and
    [Math.max] and [Math.min] return [NaN] when an argument is [NaN]. *)
Definition lift2 (f : Q -> Q -> Q) (a b : jsnum) : jsnum :=
  match a, b with
  | Num x, Num y => Num (f x y)
  | _, _ => NaN
  end.
Definition add := lift2 Qplus.
Definition sub := lift2 Qminus.
Definition mul := lift2 Qmult.
Definition max := lift2 Qmax.
Definition min := lift2 Qmin.

(** [a / b]: [0 / 0] is [NaN]; the model has no infinities, and the only
    division by a possibly zero divisor in the program, in [variance],
    divides [0] when the divisor is [0]. *)
Definition div (a b : jsnum) : jsnum :=
  match a, b with
  | Num x, Num y => if Qeq_bool y 0 then NaN else Num (x / y)
  | _, _ => NaN
  end.

(** [a < 0], false for [NaN]. *)
Definition negative (a : jsnum) : bool :=
  match a with
  | Num x => x <? 0
  | NaN => false
  end.

(** [lo <= a <= hi], false for [NaN]. *)
Definition between (lo hi : Q) (a : jsnum) : Prop :=
  match a with
  | Num x => lo <= x <= hi
  | NaN => False
  end.
End JsNum.

(** ** Strings and arrays *)

(** [String.prototype.toLowerCase] on ASCII. *)
Definition lower_ascii (c : ascii) : ascii :=
  let n := nat_of_ascii c in
  if (65 <=? n)%nat && (n <=? 90)%nat then ascii_of_nat (n + 32) else c.

Fixpoint toLowerCase (s : string) : string :=
  match s with
  | EmptyString => EmptyString
  | String c s' => String (lower_ascii c) (toLowerCase s')
  end.

(** [s.includes(sub)]: [sub] occurs in [s] as a contiguous substring. *)
Fixpoint includes (s sub : string) : bool :=
  String.prefix sub s
  || match s with
     | EmptyString => false
     | String _ s' => includes s' sub
     end.

(** [arr.includes(x)] on an array of strings. *)
Definition arr_includes (arr : list string) (x : string) : bool :=
  existsb (String.eqb x) arr.

(** [`${arr[i]}`]: the element at index [i], or the text [undefined] out of
    range. *)
Definition js_index (arr : list string) (i : Z) : string :=
  if (i <? 0)%Z then "undefined"
  else match arr !! Z.to_nat i with
       | Some x => x
       | None => "undefined"
       end.

(** [arr.join(sep)] *)
Fixpoint join (sep : string) (arr : list string) : string :=
  match arr with
  | [] => EmptyString
  | [x] => x
  | x :: rest => x ++ sep ++ join sep rest
  end.

(** ** The data model ([types/generation.ts]) *)

Record EmotionalVector := {
  energy : Q;
  tension : Q;
  warmth : Q;
  complexity : Q;
  darkness : Q;
  hope : Q;
  chaos : Q;
  space : Q
}.

Record CreativeReasoning := {
  analysis : string;
  intention : string;
  strategy : string;
  reflection : string
}.

Record FitnessScores := {
  emotionalResonance : jsnum;
  coherence : jsnum;
  interest : jsnum;
  surprise : jsnum;
  technicalQuality : jsnum
}.

Module Reverb.
Record t := { roomSize : Q; dampening : Q; wet : Q }.
End Reverb.

Module Delay.
Record t := { delayTime : string; feedback : Q; wet : Q }.
End Delay.

Module Filter.
Record t := { frequency : Q; type : string; rolloff : Q }.
End Filter.

Record EffectSettings := {
  reverb : Reverb.t;
  delay : Delay.t;
  filter : Filter.t
}.

Module Oscillator.
Record t := { type : string }.
End Oscillator.

Module Envelope.
Record t := { attack : Q; decay : Q; sustain : Q; release : Q }.
End Envelope.

(** A location of the heap: an index into it. *)
Abbreviation loc := nat (only parsing).

(** A synth voice as the program holds it: [oscillator] and [envelope] are
    references to objects of the heap. *)
Module Synth.
Record t := { type : string; oscillator : loc; envelope : loc; volume : Q }.
End Synth.
Definition SynthSettings := Synth.t.

(** A synth voice by value, as [JSON.stringify] sees it. *)
Module SynthValue.
Record t := {
  type : string;
  oscillator : Oscillator.t;
  envelope : Envelope.t;
  volume : Q
}.
End SynthValue.

Record PatternDefinition := {
  notes : list string;
  durations : list string;
  velocities : list Q;
  timing : list Q
}.

Record MusicParameters := {
  tempo : Q;
  key : string;
  scale : list string;
  timeSignature : Q * Q;
  effects : EffectSettings;
  synths : list SynthSettings;
  patterns : list (option PatternDefinition)
}.

Inductive MutationType :=
| harmonic
| rhythmic
| timbral
| structural
| textural
| radical.

(** The string a [MutationType] is at run time. *)
Definition type_name (t : MutationType) : string :=
  match t with
  | harmonic => "harmonic"
  | rhythmic => "rhythmic"
  | timbral => "timbral"
  | structural => "structural"
  | textural => "textural"
  | radical => "radical"
  end.

Module Strategy.
Record t := {
  type : MutationType;
  description : string;
  intensity : Q;
  targets : list string
}.
End Strategy.
Definition MutationStrategy := Strategy.t.

Module Generation.
Record t := {
  id : string;
  parentId : option string;
  generationNumber : Q;
  timestamp : Q;
  musicCode : string;
  musicParams : MusicParameters;
  creativeReasoning : CreativeReasoning;
  fitness : FitnessScores;
  prompt : string;
  mood : EmotionalVector;
  mutations : list string;
  lockedElements : list string;
  branch : string;
  tags : list string
}.
End Generation.

Record SessionSettings := {
  autonomyLevel : Q;
  generationsToRun : Q;
  creativeTemperature : Q;
  allowBranching : bool
}.

Record SessionMemory := {
  preferredMoods : list EmotionalVector;
  successfulMutations : list string;
  avoidedPatterns : list string;
  stylePreferences : list (string * Q)
}.

Module Session.
Record t := {
  id : string;
  startTime : Q;
  lastUpdateTime : Q;
  initialPrompt : string;
  currentGeneration : string;
  generations : list Generation.t;
  settings : SessionSettings;
  memory : SessionMemory
}.
End Session.

(** An optional field is an [option]. *)
Module UserFeedback.
Record t := {
  generationId : string;
  timestamp : Q;
  rating : option Q;
  emotionalResponse : option string;
  lockedElements : option (list string);
  suggestions : option (list string);
  redirect : option (string * string)
}.
End UserFeedback.

(** ** The world: random tape, clock tape and heap *)

Record World := {
  rng : list Q;
  clock : list Q;
  oscs : list Oscillator.t;
  envs : list Envelope.t
}.

Inductive exn :=
| TypeError               (* a property read on [undefined] *)
| Error (msg : string)    (* [throw new Error(msg)] *)
| DanglingRef.            (* a location outside the heap: no program state has one *)

Inductive outcome (A : Type) :=
| Ok (a : A) (w : World)
| Throw (e : exn) (w : World).
Arguments Ok {A} a w.
Arguments Throw {A} e w.

Definition M (A : Type) := World -> outcome A.

Definition ret {A} (a : A) : M A := fun w => Ok a w.

Definition bind {A B} (m : M A) (k : A -> M B) : M B :=
  fun w =>
    match m w with
    | Ok a w' => k a w'
    | Throw e w' => Throw e w'
    end.

Definition throw {A} (e : exn) : M A := fun w => Throw e w.

Notation "'let*' x ':=' c 'in' k" := (bind c (fun x => k))
  (at level 10, x name, c at level 100, k at level 200).
Notation "'exec' c 'in' k" := (bind c (fun _ => k))
  (at level 10, c at level 100, k at level 200).

(** [b && m()]: the right operand is evaluated only when [b] holds. *)
Definition andM (b : bool) (m : M bool) : M bool :=
  if b then m else ret false.

(** [Math.random()]: the next draw of the tape ([0] once the tape is used up). *)
Definition random : M Q :=
  fun w =>
    match rng w with
    | [] => Ok 0 w
    | r :: rest =>
        Ok r {| rng := rest; clock := clock w; oscs := oscs w; envs := envs w |}
    end.

(** [Date.now()]: the next reading of the clock tape. *)
Definition tick (w : World) : Q * World :=
  match clock w with
  | [] => (0, w)
  | t :: rest =>
      (t, {| rng := rng w; clock := rest; oscs := oscs w; envs := envs w |})
  end.

Definition now : M Q :=
  fun w => let '(t, w') := tick w in Ok t w'.

(** Allocation of an object literal, and reads and writes of its fields. *)
Definition newOsc (o : Oscillator.t) : M loc :=
  fun w =>
    Ok (length (oscs w))
       {| rng := rng w; clock := clock w; oscs := oscs w ++ [o]; envs := envs w |}.

Definition newEnv (e : Envelope.t) : M loc :=
  fun w =>
    Ok (length (envs w))
       {| rng := rng w; clock := clock w; oscs := oscs w; envs := envs w ++ [e] |}.

Definition readOsc (l : loc) : M Oscillator.t :=
  fun w =>
    match oscs w !! l with
    | Some o => Ok o w
    | None => Throw DanglingRef w
    end.

Definition readEnv (l : loc) : M Envelope.t :=
  fun w =>
    match envs w !! l with
    | Some e => Ok e w
    | None => Throw DanglingRef w
    end.

Definition writeOsc (l : loc) (o : Oscillator.t) : M unit :=
  fun w =>
    match oscs w !! l with
    | Some _ =>
        Ok tt {| rng := rng w; clock := clock w;
                 oscs := <[l := o]> (oscs w); envs := envs w |}
    | None => Throw DanglingRef w
    end.

Definition writeEnv (l : loc) (e : Envelope.t) : M unit :=
  fun w =>
    match envs w !! l with
    | Some _ =>
        Ok tt {| rng := rng w; clock := clock w;
                 oscs := oscs w; envs := <[l := e]> (envs w) |}
    | None => Throw DanglingRef w
    end.

(** [arr.map(f)] for an effectful [f], left to right. *)
Fixpoint mapM {A B} (f : A -> M B) (arr : list A) : M (list B) :=
  match arr with
  | [] => ret []
  | x :: rest =>
      let* y := f x in
      let* ys := mapM f rest in
      ret (y :: ys)
  end.

(** [for (let i = start; i < start + n; i++) out.push(body(i))] *)
Fixpoint forPush {A} (n : nat) (start : nat) (body : nat -> M A) : M (list A) :=
  match n with
  | O => ret []
  | S n' =>
      let* x := body start in
      let* xs := forPush n' (S start) body in
      ret (x :: xs)
  end.

(** The value of a synth voice in a world. *)
Definition readSynth (s : SynthSettings) : M SynthValue.t :=
  let* o := readOsc (Synth.oscillator s) in
  let* e := readEnv (Synth.envelope s) in
  ret {| SynthValue.type := Synth.type s;
         SynthValue.oscillator := o;
         SynthValue.envelope := e;
         SynthValue.volume := Synth.volume s |}.

(** A synth voice literal: its two nested objects are allocated. *)
Definition newSynth (v : SynthValue.t) : M SynthSettings :=
  let* o := newOsc (SynthValue.oscillator v) in
  let* e := newEnv (SynthValue.envelope v) in
  ret {| Synth.type := SynthValue.type v;
         Synth.oscillator := o;
         Synth.envelope := e;
         Synth.volume := SynthValue.volume v |}.

(** [arr[Math.floor(r * arr.length)]]; the default is read only for a draw
    outside [0,1) or an empty array. *)
Definition pick {A} (d : A) (arr : list A) (r : Q) : A :=
  let i := floor_index (r * of_nat (length arr)) in
  if (i <? 0)%Z then d
  else match arr !! Z.to_nat i with
       | Some x => x
       | None => d
       end.

(** ** [engine/musicEngine.ts] *)

Module MusicEngine.

Definition selectKey (emotion : EmotionalVector) : string :=
  let keys :=
    if darkness emotion >? 0.5
    then ["Am"; "Dm"; "Em"; "Bm"; "F#m"; "Cm"]
    else ["C"; "G"; "D"; "F"; "A"; "E"] in
  if tension emotion >? 0.7 then
    (if darkness emotion >? 0.5 then "C#m" else "Db")
  else
    let index := floor_index (hope emotion * (of_nat (length keys) - 1)) in
    js_index keys index.

Definition selectScale (emotion : EmotionalVector) : list string :=
  if complexity emotion >? 0.8 then
    ["C"; "Db"; "E"; "F"; "G"; "Ab"; "Bb"]
  else if darkness emotion >? 0.6 then
    (if tension emotion >? 0.6
     then ["C"; "D"; "Eb"; "F#"; "G"; "Ab"; "B"]
     else ["C"; "D"; "Eb"; "F"; "G"; "Ab"; "Bb"])
  else if warmth emotion >? 0.6 then
    ["C"; "D"; "E"; "F"; "G"; "A"; "Bb"]
  else
    ["C"; "D"; "E"; "F"; "G"; "A"; "B"].

Definition getComplexTimeSignature : M (Q * Q) :=
  let signatures := [(5, 4); (7, 8); (6, 8); (9, 8)] in
  let* r := random in
  ret (pick (4, 4) signatures r).

Definition emotionToEffects (emotion : EmotionalVector) : EffectSettings :=
  {| reverb :=
       {| Reverb.roomSize := 0.3 + space emotion * 0.7;
          Reverb.dampening := 1000 + warmth emotion * 4000;
          Reverb.wet := 0.2 + space emotion * 0.5 |};
     delay :=
       {| Delay.delayTime := if tension emotion >? 0.6 then "16n" else "8n";
          Delay.feedback := 0.1 + complexity emotion * 0.4;
          Delay.wet := 0.1 + space emotion * 0.3 |};
     filter :=
       {| Filter.frequency := 200 + energy emotion * 8000;
          Filter.type := if warmth emotion >? 0.5 then "lowpass" else "bandpass";
          Filter.rolloff := if darkness emotion >? 0.5 then -24 else -12 |} |}.

Definition emotionToSynths (emotion : EmotionalVector) : M (list SynthSettings) :=
  (* Bass synth - foundation *)
  let* bass_voice :=
    newSynth
      {| SynthValue.type := "synth";
         SynthValue.oscillator :=
           {| Oscillator.type :=
                if warmth emotion >? 0.5 then "sine" else "triangle" |};
         SynthValue.envelope :=
           {| Envelope.attack := 0.01 + space emotion * 0.1;
              Envelope.decay := 0.2;
              Envelope.sustain := 0.6 + energy emotion * 0.3;
              Envelope.release := 0.5 + space emotion * 1.5 |};
         SynthValue.volume := -10 |} in
  (* Lead/pad synth - emotional core *)
  let* lead_voice :=
    if complexity emotion >? 0.3 then
      let* s :=
        newSynth
          {| SynthValue.type :=
               if tension emotion >? 0.6 then "fm" else "synth";
             SynthValue.oscillator :=
               {| Oscillator.type :=
                    if chaos emotion >? 0.5 then "sawtooth" else "square" |};
             SynthValue.envelope :=
               {| Envelope.attack := 0.05 + space emotion * 0.3;
                  Envelope.decay := 0.3;
                  Envelope.sustain := 0.5 + warmth emotion * 0.4;
                  Envelope.release := 1.0 + space emotion * 2.0 |};
             SynthValue.volume := -15 + energy emotion * 5 |} in
      ret [s]
    else ret [] in
  (* Texture layer - for complexity *)
  let* texture_voice :=
    if complexity emotion >? 0.6 then
      let* s :=
        newSynth
          {| SynthValue.type :=
               if chaos emotion >? 0.7 then "noise" else "membrane";
             SynthValue.oscillator := {| Oscillator.type := "sine" |};
             SynthValue.envelope :=
               {| Envelope.attack := 0.001;
                  Envelope.decay := 0.1;
                  Envelope.sustain := 0;
                  Envelope.release := 0.1 |};
             SynthValue.volume := -20 |} in
      ret [s]
    else ret [] in
  ret (bass_voice :: lead_voice ++ texture_voice)%list.

Definition generateBassLine (scale : list string) (emotion : EmotionalVector)
  : M (list string) :=
  let length := if complexity emotion >? 0.5 then 8%nat else 4%nat in
  forPush length 0 (fun i =>
    let* jump :=
      andM (chaos emotion >? 0.6) (let* r := random in ret (r >? 0.7)) in
    if jump then
      (* Chaotic jump *)
      let* r := random in
      let index := floor_index (r * of_nat (List.length scale)) in
      ret (js_index scale index ++ "2")
    else
      (* Stable progression (root, fifth, fourth) *)
      let progression := [0; 4; 3; 0]%Z in
      let degree := nth (i mod 4) progression 0%Z in
      ret (js_index scale degree ++ "2")).

(** The body of the loop of [generateMelody]; [currentIndex] is the loop's
    variable, [n] the number of iterations left. *)
Fixpoint melodyLoop (scale : list string) (emotion : EmotionalVector)
    (n : nat) (currentIndex : Z) : M (list string) :=
  match n with
  | O => ret []
  | S n' =>
      let len := Z.of_nat (List.length scale) in
      let* currentIndex' :=
        if chaos emotion >? 0.5 then
          let* r := random in
          ret (floor_index (r * of_nat (List.length scale)))
        else if tension emotion >? 0.5 then
          let* r := random in
          let step := if r >? 0.5 then 1%Z else 0%Z in
          ret (Z.min (currentIndex + step) (len - 1))
        else
          let* r := random in
          let direction := if r >? 0.5 then 1%Z else (-1)%Z in
          ret (Z.max 0 (Z.min (currentIndex + direction) (len - 1))) in
      let octave := if energy emotion >? 0.6 then "4" else "3" in
      let* rest := melodyLoop scale emotion n' currentIndex' in
      ret ((js_index scale currentIndex' ++ octave) :: rest)
  end.

Definition generateMelody (scale : list string) (emotion : EmotionalVector)
  : M (list string) :=
  let length := Z.to_nat (Qceiling (4 + complexity emotion * 12)) in
  let currentIndex := (Z.of_nat (List.length scale) / 2)%Z in
  melodyLoop scale emotion length currentIndex.

Inductive RhythmKind := bass | melody.

Definition generateRhythm (emotion : EmotionalVector) (type : RhythmKind)
  : M (list string) :=
  let length := match type with bass => 8%nat | melody => 16%nat end in
  forPush length 0 (fun _ =>
    let* faster :=
      andM (energy emotion >? 0.7) (let* r := random in ret (r >? 0.5)) in
    if faster then ret "8n"
    else
      let* longer :=
        andM (space emotion >? 0.6) (let* r := random in ret (r >? 0.7)) in
      if longer then ret "2n"
      else ret (match type with bass => "4n" | melody => "8n" end)).

Definition generateVelocities (emotion : EmotionalVector) (length : nat)
  : M (list Q) :=
  let baseVelocity := 0.5 + energy emotion * 0.3 in
  forPush length 0 (fun _ =>
    let* r := random in
    let variation := (r - 0.5) * chaos emotion * 0.3 in
    ret (clamp 0.1 1 (baseVelocity + variation))).

Definition generateTiming (emotion : EmotionalVector) (length : nat)
  : M (list Q) :=
  forPush length 0 (fun i =>
    let* humanize :=
      if warmth emotion >? 0.5
      then (let* r := random in ret ((r - 0.5) * 0.02))
      else ret 0 in
    let swing :=
      if (warmth emotion >? 0.6) && (i mod 2 =? 1)%nat then 0.05 else 0 in
    ret (humanize + swing)).

Definition generatePatterns (emotion : EmotionalVector) (scale : list string)
  : M (list PatternDefinition) :=
  (* Bass pattern - rhythmic foundation *)
  let* bassNotes := generateBassLine scale emotion in
  let* bassDurations := generateRhythm emotion bass in
  let* bassVelocities := generateVelocities emotion (length bassNotes) in
  let* bassTiming := generateTiming emotion (length bassNotes) in
  let bassPattern :=
    {| notes := bassNotes; durations := bassDurations;
       velocities := bassVelocities; timing := bassTiming |} in
  (* Melodic pattern - emotional expression *)
  if complexity emotion >? 0.3 then
    let* melodyNotes := generateMelody scale emotion in
    let* melodyDurations := generateRhythm emotion melody in
    let* melodyVelocities := generateVelocities emotion (length melodyNotes) in
    let* melodyTiming := generateTiming emotion (length melodyNotes) in
    ret [bassPattern;
         {| notes := melodyNotes; durations := melodyDurations;
            velocities := melodyVelocities; timing := melodyTiming |}]
  else ret [bassPattern].

Definition emotionToParams (emotion : EmotionalVector) (prompt : string)
  : M MusicParameters :=
  let tempo := 60 + energy emotion * 120 in
  let key := selectKey emotion in
  let scale := selectScale emotion in
  let* timeSignature :=
    if chaos emotion >? 0.6 then getComplexTimeSignature else ret (4, 4) in
  let effects := emotionToEffects emotion in
  let* synths := emotionToSynths emotion in
  let* patterns := generatePatterns emotion scale in
  ret {| tempo := tempo; key := key; scale := scale;
         timeSignature := timeSignature; effects := effects;
         synths := synths; patterns := map Some patterns |}.

End MusicEngine.

(** ** [evolution/evolutionEngine.ts] *)

(** [arr[i] = x] on a copy of [arr].  An index beyond the length, which
    would leave holes, needs a random draw outside [0,1); the model appends. *)
Definition array_set (arr : list string) (i : Z) (x : string) : list string :=
  if (i <? 0)%Z then arr
  else if (Z.to_nat i <? length arr)%nat then <[Z.to_nat i := x]> arr
  else (arr ++ [x])%list.

(** Assignments to the fields of a [MusicParameters] object. *)
Definition set_scale (p : MusicParameters) (v : list string) : MusicParameters :=
  {| tempo := tempo p; key := key p; scale := v;
     timeSignature := timeSignature p; effects := effects p;
     synths := synths p; patterns := patterns p |}.

Definition set_key (p : MusicParameters) (v : string) : MusicParameters :=
  {| tempo := tempo p; key := v; scale := scale p;
     timeSignature := timeSignature p; effects := effects p;
     synths := synths p; patterns := patterns p |}.

Definition set_tempo (p : MusicParameters) (v : Q) : MusicParameters :=
  {| tempo := v; key := key p; scale := scale p;
     timeSignature := timeSignature p; effects := effects p;
     synths := synths p; patterns := patterns p |}.

Definition set_effects (p : MusicParameters) (v : EffectSettings) : MusicParameters :=
  {| tempo := tempo p; key := key p; scale := scale p;
     timeSignature := timeSignature p; effects := v;
     synths := synths p; patterns := patterns p |}.

Definition set_synths (p : MusicParameters) (v : list SynthSettings) : MusicParameters :=
  {| tempo := tempo p; key := key p; scale := scale p;
     timeSignature := timeSignature p; effects := effects p;
     synths := v; patterns := patterns p |}.

Definition set_patterns (p : MusicParameters) (v : list (option PatternDefinition))
  : MusicParameters :=
  {| tempo := tempo p; key := key p; scale := scale p;
     timeSignature := timeSignature p; effects := effects p;
     synths := synths p; patterns := v |}.

Definition set_reverb_wet (e : EffectSettings) (v : Q) : EffectSettings :=
  {| reverb := {| Reverb.roomSize := Reverb.roomSize (reverb e);
                  Reverb.dampening := Reverb.dampening (reverb e);
                  Reverb.wet := v |};
     delay := delay e; filter := filter e |}.

Definition set_reverb_roomSize (e : EffectSettings) (v : Q) : EffectSettings :=
  {| reverb := {| Reverb.roomSize := v;
                  Reverb.dampening := Reverb.dampening (reverb e);
                  Reverb.wet := Reverb.wet (reverb e) |};
     delay := delay e; filter := filter e |}.

Definition set_delay_wet (e : EffectSettings) (v : Q) : EffectSettings :=
  {| reverb := reverb e;
     delay := {| Delay.delayTime := Delay.delayTime (delay e);
                 Delay.feedback := Delay.feedback (delay e);
                 Delay.wet := v |};
     filter := filter e |}.

Definition set_delay_feedback (e : EffectSettings) (v : Q) : EffectSettings :=
  {| reverb := reverb e;
     delay := {| Delay.delayTime := Delay.delayTime (delay e);
                 Delay.feedback := v;
                 Delay.wet := Delay.wet (delay e) |};
     filter := filter e |}.

Definition set_attack (e : Envelope.t) (v : Q) : Envelope.t :=
  {| Envelope.attack := v; Envelope.decay := Envelope.decay e;
     Envelope.sustain := Envelope.sustain e; Envelope.release := Envelope.release e |}.

Definition set_release (e : Envelope.t) (v : Q) : Envelope.t :=
  {| Envelope.attack := Envelope.attack e; Envelope.decay := Envelope.decay e;
     Envelope.sustain := Envelope.sustain e; Envelope.release := v |}.

(** [JSON.parse(JSON.stringify(params))]: every nested object is read, then
    allocated afresh.  Finite numbers and strings come back as they were. *)
Definition jsonClone (params : MusicParameters) : M MusicParameters :=
  let* values := mapM readSynth (synths params) in
  let* fresh := mapM newSynth values in
  ret (set_synths params fresh).

(** A string in a condition: the empty string is falsy. *)
Definition truthy (s : string) : bool :=
  match s with
  | EmptyString => false
  | _ => true
  end.

Definition chromatic : list string :=
  ["C"; "C#"; "D"; "D#"; "E"; "F"; "F#"; "G"; "G#"; "A"; "A#"; "B"].

Module EvolutionEngine.

(** [keyof FitnessScores] *)
Inductive FitnessKey :=
| kEmotionalResonance
| kCoherence
| kInterest
| kSurprise
| kTechnicalQuality.

(** [Object.entries(fitness)], in the order in which [evaluateFitness]
    writes the properties. *)
Definition entries (f : FitnessScores) : list (FitnessKey * jsnum) :=
  [ (kEmotionalResonance, emotionalResonance f);
    (kCoherence, coherence f);
    (kInterest, interest f);
    (kSurprise, surprise f);
    (kTechnicalQuality, technicalQuality f) ].

(** [entries.sort((a, b) => a[1] - b[1])]: a stable sort; a comparison
    that yields [NaN] counts as equal.  [insert_entry x l] puts [x] in
    front of the first entry of [l] that is not strictly below it. *)
Fixpoint insert_entry (x : FitnessKey * jsnum) (l : list (FitnessKey * jsnum))
  : list (FitnessKey * jsnum) :=
  match l with
  | [] => [x]
  | y :: l' =>
      if JsNum.negative (JsNum.sub (snd y) (snd x))
      then y :: insert_entry x l'
      else x :: y :: l'
  end.

Definition sort_entries (l : list (FitnessKey * jsnum)) : list (FitnessKey * jsnum) :=
  foldr insert_entry [] l.

Definition findWeakestAspect (f : FitnessScores) : FitnessKey :=
  match sort_entries (entries f) with
  | (k, _) :: _ => k
  | [] => kEmotionalResonance (* the array has five entries *)
  end.

Definition chooseTypeForAspect (aspect : FitnessKey) : MutationType :=
  match aspect with
  | kEmotionalResonance => timbral
  | kCoherence => structural
  | kInterest => rhythmic
  | kSurprise => harmonic
  | kTechnicalQuality => textural
  end.

Definition parseFeedback (feedback : string) : option (MutationType * Q) :=
  let lower := toLowerCase feedback in
  if includes lower "more energy" || includes lower "faster" then
    Some (rhythmic, 0.7)
  else if includes lower "darker" || includes lower "sadder" then
    Some (harmonic, 0.6)
  else if includes lower "simpler" || includes lower "less" then
    Some (structural, 0.5)
  else if includes lower "weird" || includes lower "experimental" then
    Some (radical, 0.9)
  else None.

Definition describeMutation (type : MutationType) (intensity : Q) : string :=
  let level :=
    if intensity >? 0.7 then "dramatic"
    else if intensity >? 0.4 then "moderate" else "subtle" in
  level ++ " " ++ type_name type ++ " mutation".

Definition selectTargets (type : MutationType) (params : MusicParameters)
  : list string :=
  match type with
  | harmonic => ["scale"; "key"]
  | rhythmic => ["tempo"; "patterns.durations"]
  | timbral => ["synths"; "effects"]
  | structural => ["patterns"; "timeSignature"]
  | textural => ["effects.reverb"; "effects.delay"]
  | radical => ["everything"]
  end.

Definition chooseMutationStrategy (parent : Generation.t) (temperature : Q)
    (feedback : option string) : MutationStrategy :=
  (* Analyze what needs improvement *)
  let weakestAspect := findWeakestAspect (Generation.fitness parent) in
  (* Parse feedback for hints *)
  let feedbackHints :=
    match feedback with
    | Some text => if truthy text then parseFeedback text else None
    | None => None
    end in
  let '(type, intensity) :=
    match feedbackHints with
    | Some (suggestedMutation, intensity) => (suggestedMutation, intensity)
    | None =>
        if temperature >? 0.8
        then (radical, 0.7 + temperature * 0.3)
        else (chooseTypeForAspect weakestAspect, 0.3 + temperature * 0.4)
    end in
  {| Strategy.type := type;
     Strategy.description := describeMutation type intensity;
     Strategy.intensity := intensity;
     Strategy.targets := selectTargets type (Generation.musicParams parent) |}.

(** *** Mutation helpers *)

Definition mutateScale (scale : list string) (intensity : Q) : M (list string) :=
  if intensity <? 0.3 then
    (* Subtle: change one note *)
    let* r1 := random in
    let idx := floor_index (r1 * of_nat (length scale)) in
    let* r2 := random in
    ret (array_set scale idx (pick "undefined" chromatic r2))
  else
    (* Dramatic: change mode *)
    ret (if intensity >? 0.7
         then ["C"; "Db"; "E"; "F"; "G"; "Ab"; "Bb"]
         else ["C"; "D"; "E"; "F#"; "G"; "A"; "B"]).

Definition mutateKey (key : string) (intensity : Q) : M string :=
  let keys := chromatic in
  let minors := map (fun k => k ++ "m") keys in
  let allKeys := (keys ++ minors)%list in
  if intensity <? 0.4 then
    (* Stay in same mode, move by fifth *)
    ret (if includes key "m" then "Am" else "G")
  else
    (* Random new key *)
    let* r := random in
    ret (pick "undefined" allKeys r).

Definition mutateTempo (tempo : Q) (intensity : Q) : M Q :=
  let* r := random in
  let change := (r - 0.5) * intensity * 40 in
  ret (clamp 40 200 (tempo + change)).

Definition alterDuration (duration : string) : M string :=
  let opts := ["16n"; "8n"; "4n"; "2n"] in
  let* r := random in
  ret (pick "undefined" opts r).

Definition mutateRhythm (durations : list string) (intensity : Q)
  : M (list string) :=
  if intensity <? 0.4 then
    (* Subtle: change a few notes *)
    mapM (fun d =>
            let* r := random in
            if r <? 0.3 then alterDuration d else ret d)
         durations
  else
    (* Dramatic: new rhythm *)
    mapM (fun _ => alterDuration (js_index durations 0)) durations.

(** [{ ...synth }] copies the four fields of [synth]: the copy refers to
    the same [oscillator] and [envelope] objects, and the assignments
    below write to those. *)
Definition mutateSynth (synth : SynthSettings) (intensity : Q) : M SynthSettings :=
  let newSynth := synth in
  exec (if intensity >? 0.5 then
          let* r := random in
          writeOsc (Synth.oscillator newSynth)
            {| Oscillator.type :=
                 pick "undefined" ["sine"; "triangle"; "sawtooth"; "square"] r |}
        else ret tt) in
  let* e := readEnv (Synth.envelope newSynth) in
  let* r1 := random in
  exec writeEnv (Synth.envelope newSynth)
         (set_attack e (Envelope.attack e + (r1 - 0.5) * intensity * 0.5)) in
  let* e' := readEnv (Synth.envelope newSynth) in
  let* r2 := random in
  exec writeEnv (Synth.envelope newSynth)
         (set_release e' (Envelope.release e' + (r2 - 0.5) * intensity * 1.0)) in
  ret newSynth.

Definition mutateEffects (effects : EffectSettings) (intensity : Q)
  : M EffectSettings :=
  let newEffects := effects in
  let* r1 := random in
  let newEffects :=
    set_reverb_roomSize newEffects
      (Reverb.roomSize (reverb newEffects) + (r1 - 0.5) * intensity * 0.5) in
  let newEffects :=
    set_reverb_roomSize newEffects
      (clamp 0.1 0.9 (Reverb.roomSize (reverb newEffects))) in
  let* r2 := random in
  let newEffects :=
    set_delay_feedback newEffects
      (Delay.feedback (delay newEffects) + (r2 - 0.5) * intensity * 0.3) in
  let newEffects :=
    set_delay_feedback newEffects
      (clamp 0 0.9 (Delay.feedback (delay newEffects))) in
  ret newEffects.

Definition generateRadicalScale : M (list string) :=
  (* Completely new scale *)
  let* r := random in
  let length := Z.to_nat (5 + floor_index (r * 3)) in
  forPush length 0 (fun _ =>
    let* r' := random in
    ret (pick "undefined" chromatic r')).

(** [p => ({ ...p, durations: this.mutateRhythm(p.durations, intensity) })]:
    reading [durations] of an [undefined] slot throws. *)
Definition mutatePattern (intensity : Q) (slot : option PatternDefinition)
  : M (option PatternDefinition) :=
  match slot with
  | None => throw TypeError
  | Some p =>
      let* ds := mutateRhythm (durations p) intensity in
      ret (Some {| notes := notes p; durations := ds;
                   velocities := velocities p; timing := timing p |})
  end.

(** *** Apply a mutation strategy to musical parameters *)

Definition applyMutation (params : MusicParameters) (strat : MutationStrategy)
    (locked : list string) : M MusicParameters :=
  let intensity := Strategy.intensity strat in
  let* newParams := jsonClone params in (* Deep clone *)
  match Strategy.type strat with
  | harmonic =>
      let* newParams :=
        if negb (arr_includes locked "scale") then
          let* v := mutateScale (scale params) intensity in
          ret (set_scale newParams v)
        else ret newParams in
      if negb (arr_includes locked "key") then
        let* v := mutateKey (key params) intensity in
        ret (set_key newParams v)
      else ret newParams
  | rhythmic =>
      let* newParams :=
        if negb (arr_includes locked "tempo") then
          let* v := mutateTempo (tempo params) intensity in
          ret (set_tempo newParams v)
        else ret newParams in
      if negb (arr_includes locked "patterns") then
        let* v := mapM (mutatePattern intensity) (patterns params) in
        ret (set_patterns newParams v)
      else ret newParams
  | timbral =>
      let* newParams :=
        if negb (arr_includes locked "synths") then
          let* v := mapM (fun s => mutateSynth s intensity) (synths params) in
          ret (set_synths newParams v)
        else ret newParams in
      if negb (arr_includes locked "effects") then
        let* v := mutateEffects (effects params) intensity in
        ret (set_effects newParams v)
      else ret newParams
  | structural =>
      if negb (arr_includes locked "patterns") then
        (* Add or remove pattern layers *)
        if (intensity >? 0.6) && (1 <? length (patterns newParams))%nat then
          (* Simplify *)
          ret (set_patterns newParams (removelast (patterns newParams)))
        else if (intensity >? 0.7) && (length (patterns newParams) <? 4)%nat then
          (* Add complexity *)
          ret (set_patterns newParams
                 (patterns newParams ++ [mjoin (patterns params !! 0%nat)])%list)
        else ret newParams
      else ret newParams
  | textural =>
      (* Adjust layering and density *)
      if negb (arr_includes locked "effects") then
        let* r1 := random in
        let newParams :=
          set_effects newParams
            (set_reverb_wet (effects newParams)
               (Reverb.wet (reverb (effects newParams))
                + (r1 - 0.5) * intensity * 0.3)) in
        let* r2 := random in
        ret (set_effects newParams
               (set_delay_wet (effects newParams)
                  (Delay.wet (delay (effects newParams))
                   + (r2 - 0.5) * intensity * 0.2)))
      else ret newParams
  | radical =>
      (* Complete reimagining - only mutate unlocked elements drastically *)
      let* newParams :=
        if negb (arr_includes locked "scale") then
          let* v := generateRadicalScale in
          ret (set_scale newParams v)
        else ret newParams in
      if negb (arr_includes locked "tempo") then
        let* r := random in
        ret (set_tempo newParams (40 + r * 160))
      else ret newParams
  end.

(** *** Creative reasoning helpers *)

Definition analyzeParent (parent : Generation.t) : string :=
  match findWeakestAspect (Generation.fitness parent) with
  | kEmotionalResonance => "The emotional impact isn't quite landing as I'd hoped."
  | kCoherence => "Some elements feel disconnected from each other."
  | kInterest => "It needs more variety to hold attention."
  | kSurprise => "It's a bit too predictable - needs unexpected moments."
  | kTechnicalQuality => "The execution could be more polished."
  end.

Definition translateFeedbackToGoal (feedback : string) : string :=
  let lower := toLowerCase feedback in
  if includes lower "more energy" then "increase the energy and momentum"
  else if includes lower "darker" then "explore darker emotional territory"
  else if includes lower "simpler" then "strip back to the essentials"
  else if includes lower "more complex" then "add more layers and intrigue"
  else "address the feedback thoughtfully".

(** The double-quote character of the template of [articulateIntent]. *)
Definition dquote : string := String (ascii_of_nat 34) EmptyString.

Definition articulateIntent (strat : MutationStrategy) (feedback : option string)
  : string :=
  match feedback with
  | Some text =>
      if truthy text then
        "Based on feedback: " ++ dquote ++ text ++ dquote ++ ", I want to "
        ++ translateFeedbackToGoal text ++ "."
      else "I want to improve by " ++ Strategy.description strat ++ "."
  | None => "I want to improve by " ++ Strategy.description strat ++ "."
  end.

Definition explainStrategy (strat : MutationStrategy) : string :=
  match Strategy.type strat with
  | harmonic =>
      "I'll adjust the harmonic content - "
      ++ join " and " (Strategy.targets strat)
      ++ " - to shift the emotional color."
  | rhythmic => "I'll modify the rhythmic elements to change the groove and energy flow."
  | timbral => "I'll reshape the sound design and timbres to alter the texture and mood."
  | structural => "I'll reorganize the structure to improve coherence and narrative arc."
  | textural => "I'll adjust the layering and spatial qualities for better depth and dimension."
  | radical => "I'm going to completely reimagine this - time for a bold experiment."
  end.

Definition anticipateOutcome (strat : MutationStrategy) : string :=
  if Strategy.intensity strat >? 0.7 then
    "This is a bold move - it might be brilliant or might need refinement."
  else if Strategy.intensity strat <? 0.3 then
    "This is a subtle tweak. The change should be nuanced but meaningful."
  else "I'm curious to see how this shifts the overall feel.".

(** [cond ? [text] : []], for the conditional [push]es of the helpers
    below. *)
Definition pushIf (cond : bool) (text : string) : list string :=
  if cond then [text] else [].

Definition describeMood (mood : EmotionalVector) : string :=
  let descriptors :=
    ((if energy mood >? 0.6 then ["energetic"]
      else if energy mood <? 0.3 then ["calm"] else [])
     ++ pushIf (tension mood >? 0.6) "tense"
     ++ (if darkness mood >? 0.6 then ["dark"]
         else if darkness mood <? 0.3 then ["bright"] else [])
     ++ pushIf (warmth mood >? 0.6) "warm"
     ++ pushIf (complexity mood >? 0.7) "complex"
     ++ pushIf (chaos mood >? 0.6) "chaotic"
     ++ pushIf (space mood >? 0.6) "spacious")%list in
  if (0 <? length descriptors)%nat then join ", " descriptors else "balanced".

Definition formulateIntention (mood : EmotionalVector) (prompt : string) : string :=
  if (energy mood >? 0.7) && (tension mood >? 0.6) then
    "I want to create something that builds intensity and drives forward with purpose."
  else if (darkness mood >? 0.7) && (space mood >? 0.6) then
    "I'm aiming for something introspective and atmospheric, with room to breathe."
  else if chaos mood >? 0.6 then
    "I want to embrace unpredictability and create something that surprises."
  else if warmth mood >? 0.7 then
    "I'm focusing on organic, human qualities - something that feels alive."
  else
    "I want to capture the essence of " ++ dquote ++ prompt ++ dquote
    ++ " through musical expression.".

Definition formulateStrategy (mood : EmotionalVector) (prompt : string) : string :=
  let strategies :=
    (pushIf (energy mood >? 0.6) "faster tempo and driving rhythms"
     ++ pushIf (darkness mood >? 0.5) "minor tonalities and darker timbres"
     ++ pushIf (warmth mood >? 0.6) "subtle timing variations for humanization"
     ++ pushIf (space mood >? 0.6) "generous reverb and sparse textures"
     ++ pushIf (complexity mood >? 0.6) "layered patterns and harmonic richness")%list in
  "I'll use " ++ join ", " strategies
  ++ (if (0 <? length strategies)%nat then " to" else "To")
  ++ " bring this to life.".

(** *** Evaluate fitness of a generation *)

(** [nums.reduce((a, b) => a + b, 0)] *)
Definition sum (nums : list Q) : Q := fold_left Qplus nums 0.

Definition variance (nums : list Q) : jsnum :=
  let n := Num (of_nat (length nums)) in
  let mean := JsNum.div (Num (sum nums)) n in
  JsNum.div
    (fold_left
       (fun acc x =>
          let d := JsNum.sub (Num x) mean in
          JsNum.add acc (JsNum.mul d d))
       nums (Num 0))
    n.

Definition assessEmotionalMatch (params : MusicParameters) (mood : EmotionalVector)
  : Q :=
  let score := 0.5 in
  (* Tempo should match energy *)
  let tempoMatch := Qabs ((tempo params - 60) / 120 - energy mood) in
  let score := score + (1 - tempoMatch) * 0.2 in
  (* Effects should match space *)
  let spaceMatch := Qabs (Reverb.wet (reverb (effects params)) - space mood) in
  let score := score + (1 - spaceMatch) * 0.2 in
  clamp 0 1 score.

Definition assessCoherence (params : MusicParameters) : jsnum :=
  let score := Num 0.6 in
  (* Similar volumes = more coherent *)
  let volumes := map Synth.volume (synths params) in
  let volumeVariance := variance volumes in
  let score :=
    JsNum.add score
      (JsNum.mul (JsNum.max (Num 0) (JsNum.sub (Num 0.3) volumeVariance))
                 (Num 0.4)) in
  JsNum.max (Num 0) (JsNum.min (Num 1) score).

(** [params.patterns.flatMap(p => p.durations)] *)
Fixpoint flatDurations (slots : list (option PatternDefinition)) : M (list string) :=
  match slots with
  | [] => ret []
  | None :: _ => throw TypeError
  | Some p :: rest =>
      let* ds := flatDurations rest in
      ret (durations p ++ ds)%list
  end.

Definition assessInterest (params : MusicParameters) : M Q :=
  let score := 0.4 in
  (* More patterns = more interesting (up to a point) *)
  let score := score + Qmin (of_nat (length (patterns params)) / 4) 0.3 in
  (* Variety in rhythms *)
  let* all := flatDurations (patterns params) in
  let uniqueDurations := of_nat (length (nodup string_dec all)) in
  let score := score + uniqueDurations * 0.05 in
  ret (clamp 0 1 score).

Definition assessSurprise (params : MusicParameters) : Q :=
  let score := 0.3 in
  (* Complex time signature *)
  let score :=
    if negb (Qeq_bool (fst (timeSignature params)) 4) then score + 0.2 else score in
  (* Unusual scale length *)
  let score :=
    if negb (length (scale params) =? 7)%nat then score + 0.2 else score in
  clamp 0 1 score.

(** [synths.every(s => s.envelope.attack < 2 && s.envelope.release < 5)] *)
Fixpoint everyGoodEnvelope (voices : list SynthSettings) : M bool :=
  match voices with
  | [] => ret true
  | s :: rest =>
      let* e := readEnv (Synth.envelope s) in
      if (Envelope.attack e <? 2) && (Envelope.release e <? 5)
      then everyGoodEnvelope rest
      else ret false
  end.

Definition assessTechnicalQuality (params : MusicParameters) : M Q :=
  let score := 0.6 in
  (* Envelopes should be reasonable *)
  let* hasGoodEnvelopes := everyGoodEnvelope (synths params) in
  let score := if hasGoodEnvelopes then score + 0.2 else score in
  (* Effects should be in reasonable ranges *)
  let score :=
    if (Reverb.wet (reverb (effects params)) <? 0.8)
       && (Delay.feedback (delay (effects params)) <? 0.8)
    then score + 0.2 else score in
  ret (clamp 0 1 score).

Definition evaluateFitness (params : MusicParameters) (mood : EmotionalVector)
    (prompt : string) : M FitnessScores :=
  let emotionalResonance := assessEmotionalMatch params mood in
  let coherence := assessCoherence params in
  let* interest := assessInterest params in
  let surprise := assessSurprise params in
  let* technicalQuality := assessTechnicalQuality params in
  ret {| emotionalResonance := Num emotionalResonance;
         coherence := coherence;
         interest := Num interest;
         surprise := Num surprise;
         technicalQuality := Num technicalQuality |}.

(** *** Evolve a generation into a new one *)

Section Lifecycle.

(** The text that the template of [MusicEngine.generateCode] produces
    from the parameters and the values of the synth voices. *)
Variable renderCode : MusicParameters -> list SynthValue.t -> string.

(** [`gen_${t}_${r.toString(36).substr(2, 9)}`] for a clock reading [t]
    and a random draw [r]. *)
Variable renderId : Q -> Q -> string.

(** [MusicEngine.generateCode]: the template reads the synth voices,
    then [notes] and [durations] of every pattern slot. *)
Definition generateCode (params : MusicParameters) : M string :=
  let* voices := mapM readSynth (synths params) in
  if forallb (fun slot : option PatternDefinition => bool_decide (is_Some slot))
             (patterns params)
  then ret (renderCode params voices)
  else throw TypeError.

Definition generateId : M string :=
  let* t := now in
  let* r := random in
  ret (renderId t r).

Definition evolve (parent : Generation.t) (creativeTemperature : Q)
    (feedback : option string) : M Generation.t :=
  (* Analyze the parent to decide what to mutate *)
  let mutationStrategy :=
    chooseMutationStrategy parent creativeTemperature feedback in
  (* Apply the mutation *)
  let* newParams :=
    applyMutation (Generation.musicParams parent) mutationStrategy
      (Generation.lockedElements parent) in
  (* Generate new code *)
  let* code := generateCode newParams in
  (* My creative reasoning for this evolution *)
  let reasoning :=
    {| analysis := analyzeParent parent;
       intention := articulateIntent mutationStrategy feedback;
       strategy := explainStrategy mutationStrategy;
       reflection := anticipateOutcome mutationStrategy |} in
  (* Evaluate the new generation *)
  let* fitness :=
    evaluateFitness newParams (Generation.mood parent) (Generation.prompt parent) in
  let* id := generateId in
  let* timestamp := now in
  ret {| Generation.id := id;
         Generation.parentId := Some (Generation.id parent);
         Generation.generationNumber := Generation.generationNumber parent + 1;
         Generation.timestamp := timestamp;
         Generation.musicCode := code;
         Generation.musicParams := newParams;
         Generation.creativeReasoning := reasoning;
         Generation.fitness := fitness;
         Generation.prompt := Generation.prompt parent;
         Generation.mood := Generation.mood parent;
         Generation.mutations :=
           (Generation.mutations parent
            ++ [type_name (Strategy.type mutationStrategy)])%list;
         Generation.lockedElements := Generation.lockedElements parent;
         Generation.branch := Generation.branch parent;
         Generation.tags := [] |}.

(** Create the initial generation (Generation 0) from a prompt *)
Definition createInitialGeneration (prompt : string) (mood : EmotionalVector)
  : M Generation.t :=
  (* My initial creative vision *)
  let reasoning :=
    {| analysis :=
         "Starting from prompt: " ++ dquote ++ prompt ++ dquote
         ++ ". I'm interpreting this as a call for " ++ describeMood mood ++ ".";
       intention := formulateIntention mood prompt;
       strategy := formulateStrategy mood prompt;
       reflection :=
         "This is my initial conception. I'm curious to hear how it resonates." |} in
  (* Generate musical parameters from emotion *)
  let* params := MusicEngine.emotionToParams mood prompt in
  (* Generate the code *)
  let* code := generateCode params in
  (* Self-evaluate *)
  let* fitness := evaluateFitness params mood prompt in
  let* id := generateId in
  let* timestamp := now in
  ret {| Generation.id := id;
         Generation.parentId := None;
         Generation.generationNumber := 0;
         Generation.timestamp := timestamp;
         Generation.musicCode := code;
         Generation.musicParams := params;
         Generation.creativeReasoning := reasoning;
         Generation.fitness := fitness;
         Generation.prompt := prompt;
         Generation.mood := mood;
         Generation.mutations := [];
         Generation.lockedElements := [];
         Generation.branch := "main";
         Generation.tags := [] |}.

End Lifecycle.

End EvolutionEngine.

(** ** [stores/sessionStore.ts] *)

Module SessionStore.

(** The two stores that [evolveCurrentGeneration] reads or writes. *)
Record Stores := {
  session : Session.t;
  isGenerating : bool
}.

Section Store.

Variable renderCode : MusicParameters -> list SynthValue.t -> string.
Variable renderId : Q -> Q -> string.

(** The result of a call: the stores after it, and what the call
    returned or threw. *)
Definition evolveCurrentGeneration (feedback : option string)
    (st : Stores) (w : World) : Stores * outcome Generation.t :=
  let s := session st in
  let current :=
    find (fun g => String.eqb (Generation.id g) (Session.currentGeneration s))
         (Session.generations s) in
  match current with
  | None => (st, Throw (Error "No current generation to evolve") w)
  | Some current =>
      (* isGenerating.set(true) *)
      let st := {| session := session st; isGenerating := true |} in
      match EvolutionEngine.evolve renderCode renderId current
              (creativeTemperature (Session.settings s)) feedback w with
      | Ok newGen w1 =>
          (* Add to session *)
          let '(t, w2) := tick w1 in
          let s0 := session st in
          let s' :=
            {| Session.id := Session.id s0;
               Session.startTime := Session.startTime s0;
               Session.lastUpdateTime := t;
               Session.initialPrompt := Session.initialPrompt s0;
               Session.currentGeneration := Generation.id newGen;
               Session.generations := (Session.generations s0 ++ [newGen])%list;
               Session.settings := Session.settings s0;
               Session.memory := Session.memory s0 |} in
          (* finally: isGenerating.set(false) *)
          ({| session := s'; isGenerating := false |}, Ok newGen w2)
      | Throw e w1 =>
          (* finally: isGenerating.set(false) *)
          ({| session := session st; isGenerating := false |}, Throw e w1)
      end
  end.

(** [session.update(s => ({ ...s, currentGeneration: newGen.id,
    generations: [...s.generations, newGen], lastUpdateTime: t }))] *)
Definition appendGeneration (s : Session.t) (newGen : Generation.t) (t : Q)
  : Session.t :=
  {| Session.id := Session.id s;
     Session.startTime := Session.startTime s;
     Session.lastUpdateTime := t;
     Session.initialPrompt := Session.initialPrompt s;
     Session.currentGeneration := Generation.id newGen;
     Session.generations := (Session.generations s ++ [newGen])%list;
     Session.settings := Session.settings s;
     Session.memory := Session.memory s |}.

(** The loop of [runAutonomousEvolution], [n] iterations from the
    generation [current]; [temperature] is the creative temperature of the
    session as it was when the call began.  The result is the session after
    the loop and the generations made, or the session as it is when an
    iteration throws. *)
Fixpoint autonomousLoop (n : nat) (temperature : Q) (current : Generation.t)
    (s : Session.t) (w : World) : Session.t * outcome (list Generation.t) :=
  match n with
  | O => (s, Ok [] w)
  | S n' =>
      match EvolutionEngine.evolve renderCode renderId current temperature None w with
      | Ok newGen w1 =>
          let '(t, w2) := tick w1 in
          match autonomousLoop n' temperature newGen (appendGeneration s newGen t) w2 with
          | (s', Ok rest w3) => (s', Ok (newGen :: rest) w3)
          | (s', Throw e w3) => (s', Throw e w3)
          end
      | Throw e w1 => (s, Throw e w1)
      end
  end.

(** [runAutonomousEvolution(numGenerations)], called without the optional
    [onProgress] callback. *)
Definition runAutonomousEvolution (numGenerations : Q)
    (st : Stores) (w : World) : Stores * outcome (list Generation.t) :=
  let s := session st in
  let current :=
    find (fun g => String.eqb (Generation.id g) (Session.currentGeneration s))
         (Session.generations s) in
  match current with
  | None => (st, Throw (Error "No current generation") w)
  | Some current =>
      (* isGenerating.set(true); the loop; finally: isGenerating.set(false) *)
      let '(s', result) :=
        autonomousLoop (Z.to_nat (Qceiling numGenerations))
          (creativeTemperature (Session.settings s)) current s w in
      ({| session := s'; isGenerating := false |}, result)
  end.

(** [setCurrentGeneration(generationId)] *)
Definition setCurrentGeneration (generationId : string) (st : Stores) : Stores :=
  let s := session st in
  {| session :=
       {| Session.id := Session.id s;
          Session.startTime := Session.startTime s;
          Session.lastUpdateTime := Session.lastUpdateTime s;
          Session.initialPrompt := Session.initialPrompt s;
          Session.currentGeneration := generationId;
          Session.generations := Session.generations s;
          Session.settings := Session.settings s;
          Session.memory := Session.memory s |};
     isGenerating := isGenerating st |}.

(** [gen.lockedElements = locks] on the first generation of the array whose
    id is [name], the one that [find] returns. *)
Fixpoint lockFirst (name : string) (locks : list string) (gens : list Generation.t)
  : list Generation.t :=
  match gens with
  | [] => []
  | g :: rest =>
      if String.eqb (Generation.id g) name then
        {| Generation.id := Generation.id g;
           Generation.parentId := Generation.parentId g;
           Generation.generationNumber := Generation.generationNumber g;
           Generation.timestamp := Generation.timestamp g;
           Generation.musicCode := Generation.musicCode g;
           Generation.musicParams := Generation.musicParams g;
           Generation.creativeReasoning := Generation.creativeReasoning g;
           Generation.fitness := Generation.fitness g;
           Generation.prompt := Generation.prompt g;
           Generation.mood := Generation.mood g;
           Generation.mutations := Generation.mutations g;
           Generation.lockedElements := locks;
           Generation.branch := Generation.branch g;
           Generation.tags := Generation.tags g |} :: rest
      else g :: lockFirst name locks rest
  end.

(** [feedback.rating && feedback.rating >= 4] *)
Definition goodRating (rating : option Q) : bool :=
  match rating with
  | Some r => negb (Qeq_bool r 0) && negb (r <? 4)
  | None => false
  end.

(** [addFeedback(feedback)] *)
Definition addFeedback (feedback : UserFeedback.t) (st : Stores) (w : World)
  : Stores * World :=
  let s := session st in
  let gen :=
    find (fun g => String.eqb (Generation.id g) (UserFeedback.generationId feedback))
         (Session.generations s) in
  let memory' :=
    match gen with
    | Some g =>
        if goodRating (UserFeedback.rating feedback) then
          {| preferredMoods :=
               (preferredMoods (Session.memory s) ++ [Generation.mood g])%list;
             successfulMutations :=
               (successfulMutations (Session.memory s)
                ++ Generation.mutations g)%list;
             avoidedPatterns := avoidedPatterns (Session.memory s);
             stylePreferences := stylePreferences (Session.memory s) |}
        else Session.memory s
    | None => Session.memory s
    end in
  let generations' :=
    match gen, UserFeedback.lockedElements feedback with
    | Some _, Some locks =>
        lockFirst (UserFeedback.generationId feedback) locks (Session.generations s)
    | _, _ => Session.generations s
    end in
  let '(t, w') := tick w in
  ({| session :=
        {| Session.id := Session.id s;
           Session.startTime := Session.startTime s;
           Session.lastUpdateTime := t;
           Session.initialPrompt := Session.initialPrompt s;
           Session.currentGeneration := Session.currentGeneration s;
           Session.generations := generations';
           Session.settings := Session.settings s;
           Session.memory := memory' |};
      isGenerating := isGenerating st |}, w').

(** [`session_${t}`] for a clock reading [t]. *)
Variable renderSessionId : Q -> string.

(** [claudeApi.createInitialGeneration(prompt, mood)]: the remote service,
    which returns parameters, reasoning and fitness, or throws. *)
Variable apiCreateInitial :
  string -> EmotionalVector -> M (MusicParameters * CreativeReasoning * FitnessScores).

(** The stores [useApiMode] and [apiInitialized]. *)
Record ApiStores := {
  useApiMode : bool;
  apiInitialized : bool
}.

(** The generation 0 of [startNewSession], by the remote service or by the
    simulation. *)
Definition initialGeneration (api : ApiStores) (prompt : string)
    (mood : EmotionalVector) : M Generation.t :=
  if useApiMode api && apiInitialized api then
    (* Use real Claude API *)
    let* response := apiCreateInitial prompt mood in
    let '(params, reasoning, fitness) := response in
    let* id := EvolutionEngine.generateId renderId in
    let* timestamp := now in
    let* code := EvolutionEngine.generateCode renderCode params in
    ret {| Generation.id := id;
           Generation.parentId := None;
           Generation.generationNumber := 0;
           Generation.timestamp := timestamp;
           Generation.musicCode := code;
           Generation.musicParams := params;
           Generation.creativeReasoning := reasoning;
           Generation.fitness := fitness;
           Generation.prompt := prompt;
           Generation.mood := mood;
           Generation.mutations := [];
           Generation.lockedElements := [];
           Generation.branch := "main";
           Generation.tags := [] |}
  else
    (* Use simulation mode *)
    EvolutionEngine.createInitialGeneration renderCode renderId prompt mood.

(** [startNewSession(prompt, mood)] *)
Definition startNewSession (api : ApiStores) (prompt : string)
    (mood : EmotionalVector) (st : Stores) (w : World)
  : Stores * outcome Generation.t :=
  (* isGenerating.set(true) *)
  match initialGeneration api prompt mood w with
  | Ok gen0 w1 =>
      (* Update session *)
      let s := session st in
      let '(t1, w2) := tick w1 in
      let '(t2, w3) := tick w2 in
      let '(t3, w4) := tick w3 in
      let s' :=
        {| Session.id := renderSessionId t1;
           Session.startTime := t2;
           Session.lastUpdateTime := t3;
           Session.initialPrompt := prompt;
           Session.currentGeneration := Generation.id gen0;
           Session.generations := [gen0];
           Session.settings := Session.settings s;
           Session.memory := Session.memory s |} in
      (* finally: isGenerating.set(false) *)
      ({| session := s'; isGenerating := false |}, Ok gen0 w4)
  | Throw e w1 =>
      (* finally: isGenerating.set(false) *)
      ({| session := session st; isGenerating := false |}, Throw e w1)
  end.

(** The key under which [buildGenerationTree] files a generation:
    [gen.parentId || 'root']. *)
Definition treeKey (g : Generation.t) : string :=
  match Generation.parentId g with
  | Some parent => if truthy parent then parent else "root"
  | None => "root"
  end.

(** The properties that the object literal of [buildGenerationTree] inherits
    from [Object.prototype]: [tree[key]] is truthy for these keys although
    the tree has no such entry, and is no array. *)
Definition inheritedKeys : list string :=
  ["constructor"; "__defineGetter__"; "__defineSetter__"; "hasOwnProperty";
   "__lookupGetter__"; "__lookupSetter__"; "isPrototypeOf";
   "propertyIsEnumerable"; "toString"; "valueOf"; "__proto__";
   "toLocaleString"].

(** The tree: the entries of the object, in the order of their creation. *)
Definition Tree := list (string * list Generation.t).

(** [tree[key]] for a key that is not inherited. *)
Fixpoint tree_get (tree : Tree) (key : string) : option (list Generation.t) :=
  match tree with
  | [] => None
  | (k, children) :: rest =>
      if String.eqb k key then Some children else tree_get rest key
  end.

(** [if (!tree[key]) tree[key] = []; tree[key].push(gen)] for a key that is
    not inherited. *)
Fixpoint tree_push (tree : Tree) (key : string) (gen : Generation.t) : Tree :=
  match tree with
  | [] => [(key, [gen])]
  | (k, children) :: rest =>
      if String.eqb k key then (k, (children ++ [gen])%list) :: rest
      else (k, children) :: tree_push rest key gen
  end.

(** The loop of [buildGenerationTree]: [push] on an inherited property is a
    [TypeError]. *)
Fixpoint buildFrom (tree : Tree) (generations : list Generation.t) : exn + Tree :=
  match generations with
  | [] => inr tree
  | gen :: rest =>
      if arr_includes inheritedKeys (treeKey gen) then inl TypeError
      else buildFrom (tree_push tree (treeKey gen) gen) rest
  end.

Definition buildGenerationTree (generations : list Generation.t) : exn + Tree :=
  buildFrom [] generations.

(** [Partial<SessionSettings>]: a key that is absent is [None]. *)
Record SettingsPatch := {
  newAutonomyLevel : option Q;
  newGenerationsToRun : option Q;
  newCreativeTemperature : option Q;
  newAllowBranching : option bool
}.

(** [{ ...settings, ...newSettings }] *)
Definition patchSettings (settings : SessionSettings) (newSettings : SettingsPatch)
  : SessionSettings :=
  {| autonomyLevel :=
       match newAutonomyLevel newSettings with
       | Some v => v
       | None => autonomyLevel settings
       end;
     generationsToRun :=
       match newGenerationsToRun newSettings with
       | Some v => v
       | None => generationsToRun settings
       end;
     creativeTemperature :=
       match newCreativeTemperature newSettings with
       | Some v => v
       | None => creativeTemperature settings
       end;
     allowBranching :=
       match newAllowBranching newSettings with
       | Some v => v
       | None => allowBranching settings
       end |}.

(** [updateSettings(newSettings)] *)
Definition updateSettings (newSettings : SettingsPatch) (st : Stores) (w : World)
  : Stores * World :=
  let s := session st in
  let '(t, w') := tick w in
  ({| session :=
        {| Session.id := Session.id s;
           Session.startTime := Session.startTime s;
           Session.lastUpdateTime := t;
           Session.initialPrompt := Session.initialPrompt s;
           Session.currentGeneration := Session.currentGeneration s;
           Session.generations := Session.generations s;
           Session.settings := patchSettings (Session.settings s) newSettings;
           Session.memory := Session.memory s |};
      isGenerating := isGenerating st |}, w').

End Store.

End SessionStore.

(** ** Sample values, used to run the model on concrete inputs *)

Module Sample.

(** All eight dimensions at one value. *)
Definition flat (x : Q) : EmotionalVector :=
  {| energy := x; tension := x; warmth := x; complexity := x;
     darkness := x; hope := x; chaos := x; space := x |}.

(** The emotional vector of scenario A of the specification. *)
Definition scenarioA : EmotionalVector :=
  {| energy := 0.8; tension := 0.2; warmth := 0.5; complexity := 0.5;
     darkness := 0.2; hope := 0.5; chaos := 0.1; space := 0.3 |}.

Definition strat (t : MutationType) (i : Q) : MutationStrategy :=
  {| Strategy.type := t;
     Strategy.description := EvolutionEngine.describeMutation t i;
     Strategy.intensity := i;
     Strategy.targets := [] |}.

Definition layer : PatternDefinition :=
  {| notes := ["C2"; "G2"]; durations := ["4n"; "8n"];
     velocities := [0.5; 0.5]; timing := [0; 0] |}.

(** One bass voice whose oscillator and envelope are at location 0. *)
Definition voice : SynthSettings :=
  {| Synth.type := "synth"; Synth.oscillator := 0%nat;
     Synth.envelope := 0%nat; Synth.volume := -10 |}.

Definition heapWorld (draws : list Q) : World :=
  {| rng := draws; clock := [1000; 2000; 3000];
     oscs := [ {| Oscillator.type := "sine" |} ];
     envs := [ {| Envelope.attack := 0.001; Envelope.decay := 0.1;
                  Envelope.sustain := 0; Envelope.release := 0.1 |} ] |}.

Definition params (layers : list (option PatternDefinition)) : MusicParameters :=
  {| tempo := 120; key := "C";
     scale := ["C"; "D"; "E"; "F"; "G"; "A"; "B"];
     timeSignature := (4, 4);
     effects :=
       {| reverb := {| Reverb.roomSize := 0.5; Reverb.dampening := 3000;
                       Reverb.wet := 0.05 |};
          delay := {| Delay.delayTime := "8n"; Delay.feedback := 0.3;
                      Delay.wet := 0.02 |};
          filter := {| Filter.frequency := 4200; Filter.type := "lowpass";
                       Filter.rolloff := -12 |} |};
     synths := [voice];
     patterns := layers |}.

(** Parameters without a synth voice. *)
Definition noVoice : MusicParameters := set_synths (params [Some layer]) [].

Definition scores : FitnessScores :=
  {| emotionalResonance := Num 0.7; coherence := Num 0.6; interest := Num 0.5;
     surprise := Num 0.3; technicalQuality := Num 0.8 |}.

Definition generation (name : string) (n : Q) : Generation.t :=
  {| Generation.id := name;
     Generation.parentId := None;
     Generation.generationNumber := n;
     Generation.timestamp := 0;
     Generation.musicCode := "// Generated music code";
     Generation.musicParams := params [Some layer; Some layer];
     Generation.creativeReasoning :=
       {| analysis := "a"; intention := "i"; strategy := "s"; reflection := "r" |};
     Generation.fitness := scores;
     Generation.prompt := "melancholic ambient";
     Generation.mood := flat 0.5;
     Generation.mutations := ["timbral"];
     Generation.lockedElements := ["key"];
     Generation.branch := "main";
     Generation.tags := [] |}.

(** A generation with one layer and nothing locked. *)
Definition unlocked (name : string) : Generation.t :=
  {| Generation.id := name;
     Generation.parentId := None;
     Generation.generationNumber := 0;
     Generation.timestamp := 0;
     Generation.musicCode := "// Generated music code";
     Generation.musicParams := params [Some layer];
     Generation.creativeReasoning :=
       {| analysis := "a"; intention := "i"; strategy := "s"; reflection := "r" |};
     Generation.fitness := scores;
     Generation.prompt := "calm piano";
     Generation.mood := flat 0.5;
     Generation.mutations := [];
     Generation.lockedElements := [];
     Generation.branch := "main";
     Generation.tags := [] |}.

(** A generation with a parent. *)
Definition childOf (name parent : string) : Generation.t :=
  {| Generation.id := name;
     Generation.parentId := Some parent;
     Generation.generationNumber := 1;
     Generation.timestamp := 0;
     Generation.musicCode := "// Generated music code";
     Generation.musicParams := params [Some layer];
     Generation.creativeReasoning :=
       {| analysis := "a"; intention := "i"; strategy := "s"; reflection := "r" |};
     Generation.fitness := scores;
     Generation.prompt := "calm piano";
     Generation.mood := flat 0.5;
     Generation.mutations := ["harmonic"];
     Generation.lockedElements := [];
     Generation.branch := "main";
     Generation.tags := [] |}.

(** A generation whose weakest aspect is the emotional resonance. *)
Definition offMood (name : string) : Generation.t :=
  {| Generation.id := name;
     Generation.parentId := None;
     Generation.generationNumber := 0;
     Generation.timestamp := 0;
     Generation.musicCode := "// Generated music code";
     Generation.musicParams := params [Some layer];
     Generation.creativeReasoning :=
       {| analysis := "a"; intention := "i"; strategy := "s"; reflection := "r" |};
     Generation.fitness :=
       {| emotionalResonance := Num 0.2; coherence := Num 0.6;
          interest := Num 0.5; surprise := Num 0.3; technicalQuality := Num 0.8 |};
     Generation.prompt := "calm piano";
     Generation.mood := flat 0.5;
     Generation.mutations := [];
     Generation.lockedElements := [];
     Generation.branch := "main";
     Generation.tags := [] |}.

Definition sessionAt (pointer : string) (gens : list Generation.t) : Session.t :=
  {| Session.id := "session_0";
     Session.startTime := 0;
     Session.lastUpdateTime := 0;
     Session.initialPrompt := "melancholic ambient";
     Session.currentGeneration := pointer;
     Session.generations := gens;
     Session.settings :=
       {| autonomyLevel := 0.5; generationsToRun := 5;
          creativeTemperature := 0.5; allowBranching := true |};
     Session.memory :=
       {| preferredMoods := []; successfulMutations := [];
          avoidedPatterns := []; stylePreferences := [] |} |}.

Definition renderCode (p : MusicParameters) (voices : list SynthValue.t) : string :=
  "// Generated music code".

Definition renderId (t r : Q) : string := "gen_next".

End Sample.

(** ** Notions used in the statements *)

(** The phrase classes that the strategy selector recognises in a feedback
    text, after the specification: a class is matched when one of its
    phrases occurs in the text, letter case aside. *)
Module Phrase.
Definition mentions (feedback phrase : string) : bool :=
  includes (toLowerCase feedback) phrase.
Definition energy (feedback : string) : bool :=
  mentions feedback "more energy" || mentions feedback "faster".
Definition darkening (feedback : string) : bool :=
  mentions feedback "darker" || mentions feedback "sadder".
Definition simplification (feedback : string) : bool :=
  mentions feedback "simpler" || mentions feedback "less".
Definition experimental (feedback : string) : bool :=
  mentions feedback "weird" || mentions feedback "experimental".
End Phrase.

(** The value of a synth voice in a world, [None] for a dangling location. *)
Definition synthValue (w : World) (s : SynthSettings) : option SynthValue.t :=
  match oscs w !! Synth.oscillator s, envs w !! Synth.envelope s with
  | Some o, Some e =>
      Some {| SynthValue.type := Synth.type s;
              SynthValue.oscillator := o;
              SynthValue.envelope := e;
              SynthValue.volume := Synth.volume s |}
  | _, _ => None
  end.

(** The values of the synth voices of an array, as they are in world [w]. *)
Definition synthValues (w : World) (voices : list SynthSettings)
  : list (option SynthValue.t) :=
  map (synthValue w) voices.

(** Every location held by the voices is allocated: true of every array of
    voices that a program state holds. *)
Definition heap_ok (w : World) (voices : list SynthSettings) : Prop :=
  Forall (fun s => (Synth.oscillator s < length (oscs w))%nat
                   /\ (Synth.envelope s < length (envs w))%nat) voices.

(** No slot of the array is [undefined]: true of every value of the type
    [PatternDefinition[]]. *)
Definition no_holes (slots : list (option PatternDefinition)) : Prop :=
  Forall is_Some slots.

(** Every draw of the tape is in [0,1). *)
Definition valid_rng (w : World) : Prop :=
  Forall (fun r => 0 <= r /\ r < 1) (rng w).

(** [m] returns from [w], with a result and a final world that satisfy [post]. *)
Definition wp {A} (m : M A) (w : World) (post : A -> World -> Prop) : Prop :=
  match m w with
  | Ok a w' => post a w'
  | Throw _ _ => False
  end.

(** [w'] is [w] after some random draws: same heap, a suffix of the tape. *)
Definition after (w w' : World) : Prop :=
  oscs w' = oscs w /\ envs w' = envs w /\ clock w' = clock w
  /\ exists k, rng w' = drop k (rng w).

(** [m] always returns, touches nothing but the random tape, and its result
    satisfies [P]. *)
Definition rng_only {A} (m : M A) (P : A -> Prop) : Prop :=
  forall w, wp m w (fun a w' => after w w' /\ P a).

(** [w'] is [w] after some allocations: the heap has grown at its end. *)
Definition extends (w w' : World) : Prop :=
  rng w' = rng w /\ clock w' = clock w
  /\ (exists os, oscs w' = (oscs w ++ os)%list)
  /\ (exists es, envs w' = (envs w ++ es)%list).

(** [w'] is [w] after some random draws and some writes to allocated
    objects: the same locations are allocated. *)
Definition same_shape (w w' : World) : Prop :=
  length (oscs w') = length (oscs w) /\ length (envs w') = length (envs w)
  /\ clock w' = clock w
  /\ exists k, rng w' = drop k (rng w).

(** What a call [applyMutation params strat locked], run in world [w], is
    shown to establish of its result [out] and final world [w']. *)
Record mutated (params : MusicParameters) (w : World) (strat : MutationStrategy)
    (locked : list string) (out : MusicParameters) (w' : World) : Prop := {
  mutated_heap_ok : heap_ok w' (synths out);
  mutated_argument :
    (Strategy.type strat = timbral -> In "synths" locked) ->
    synthValues w' (synths params) = synthValues w (synths params);
  mutated_tempo_range :
    valid_rng w -> 40 <= tempo params /\ tempo params <= 200 ->
    40 <= tempo out /\ tempo out <= 200;
  mutated_timeSignature : timeSignature out = timeSignature params;
  mutated_scale : In "scale" locked -> scale out = scale params;
  mutated_key : In "key" locked -> key out = key params;
  mutated_tempo : In "tempo" locked -> tempo out = tempo params;
  mutated_patterns : In "patterns" locked -> patterns out = patterns params;
  mutated_effects : In "effects" locked -> effects out = effects params;
  mutated_synths :
    In "synths" locked ->
    synthValues w' (synths out) = synthValues w (synths params);
  mutated_no_holes :
    no_holes (patterns params) ->
    (Strategy.type strat = structural -> ~ In "patterns" locked ->
     (Strategy.intensity strat >? 0.7) = false) ->
    no_holes (patterns out)
}.

(** [m] always returns, and its result satisfies [P]. *)
Definition returns {A} (m : M A) (P : A -> Prop) : Prop :=
  forall w, wp m w (fun a _ => P a).

(** The shape of a pattern of [emotionToParams]: [notes], [velocities] and
    [timing] have [n] entries, [durations] has [d]. *)
Definition pattern_shape (n d : nat) (p : PatternDefinition) : Prop :=
  length (notes p) = n /\ length (velocities p) = n
  /\ length (timing p) = n /\ length (durations p) = d.

(** The synth voices that [emotionToSynths] pushes, by value: a bass voice,
    a lead voice when [complexity] is above 0.3, a texture voice when it is
    above 0.6. *)
Definition voiceValues (emotion : EmotionalVector) : list SynthValue.t :=
  ({| SynthValue.type := "synth";
      SynthValue.oscillator :=
        {| Oscillator.type := if warmth emotion >? 0.5 then "sine" else "triangle" |};
      SynthValue.envelope :=
        {| Envelope.attack := 0.01 + space emotion * 0.1;
           Envelope.decay := 0.2;
           Envelope.sustain := 0.6 + energy emotion * 0.3;
           Envelope.release := 0.5 + space emotion * 1.5 |};
      SynthValue.volume := -10 |}
   :: (if complexity emotion >? 0.3 then
         [ {| SynthValue.type := if tension emotion >? 0.6 then "fm" else "synth";
              SynthValue.oscillator :=
                {| Oscillator.type :=
                     if chaos emotion >? 0.5 then "sawtooth" else "square" |};
              SynthValue.envelope :=
                {| Envelope.attack := 0.05 + space emotion * 0.3;
                   Envelope.decay := 0.3;
                   Envelope.sustain := 0.5 + warmth emotion * 0.4;
                   Envelope.release := 1.0 + space emotion * 2.0 |};
              SynthValue.volume := -15 + energy emotion * 5 |} ]
       else [])
   ++ (if complexity emotion >? 0.6 then
         [ {| SynthValue.type := if chaos emotion >? 0.7 then "noise" else "membrane";
              SynthValue.oscillator := {| Oscillator.type := "sine" |};
              SynthValue.envelope :=
                {| Envelope.attack := 0.001; Envelope.decay := 0.1;
                   Envelope.sustain := 0; Envelope.release := 0.1 |};
              SynthValue.volume := -20 |} ]
       else []))%list.

(** Every field of the emotional vector is in [0,1]. *)
Definition valid_emotion (e : EmotionalVector) : Prop :=
  (0 <= energy e /\ energy e <= 1) /\ (0 <= tension e /\ tension e <= 1)
  /\ (0 <= warmth e /\ warmth e <= 1) /\ (0 <= complexity e /\ complexity e <= 1)
  /\ (0 <= darkness e /\ darkness e <= 1) /\ (0 <= hope e /\ hope e <= 1)
  /\ (0 <= chaos e /\ chaos e <= 1) /\ (0 <= space e /\ space e <= 1).

(** The values of a pattern of [generatePatterns]: velocities in [0.1,1] and
    durations among the three tokens that [generateRhythm] pushes. *)
Definition pattern_values (p : PatternDefinition) : Prop :=
  Forall (fun v => 0.1 <= v /\ v <= 1) (velocities p)
  /\ Forall (fun d => In d ["8n"; "2n"; "4n"]) (durations p).

(** The irregular meters of [getComplexTimeSignature]. *)
Definition complexSignatures : list (Q * Q) := [(5, 4); (7, 8); (6, 8); (9, 8)].

(** The layers of [generatePatterns]: a bass layer, and a melody layer when
    [complexity] is above 0.3. *)
Definition layers_shape (emotion : EmotionalVector) (ps : list PatternDefinition)
  : Prop :=
  let bassLength := if complexity emotion >? 0.5 then 8%nat else 4%nat in
  let melodyLength := Z.to_nat (Qceiling (4 + complexity emotion * 12)) in
  if complexity emotion >? 0.3
  then exists b m, ps = [b; m] /\ pattern_shape bassLength 8 b
                   /\ pattern_shape melodyLength 16 m
  else exists b, ps = [b] /\ pattern_shape bassLength 8 b.

(** What a call [emotionToParams emotion prompt], run in world [w], is
    shown to establish of its result [p] and final world [w']. *)
Record synthesized (emotion : EmotionalVector) (w : World)
    (p : MusicParameters) (w' : World) : Prop := {
  synthesized_tempo : tempo p = 60 + energy emotion * 120;
  synthesized_key : key p = MusicEngine.selectKey emotion;
  synthesized_scale : scale p = MusicEngine.selectScale emotion;
  synthesized_effects : effects p = MusicEngine.emotionToEffects emotion;
  synthesized_regular :
    (chaos emotion >? 0.6) = false -> timeSignature p = (4, 4);
  synthesized_irregular :
    (chaos emotion >? 0.6) = true -> valid_rng w ->
    In (timeSignature p) complexSignatures;
  synthesized_heap_ok : heap_ok w' (synths p);
  synthesized_voices :
    synthValues w' (synths p) = map Some (voiceValues emotion);
  synthesized_patterns :
    exists ps, patterns p = map Some ps /\ layers_shape emotion ps
               /\ Forall pattern_values ps;
  synthesized_valid_rng : valid_rng w -> valid_rng w'
}.

(** A valid emotional vector, for the examples. *)
Definition validEmotionSample : EmotionalVector :=
  {| energy := 0.8; tension := 0.2; warmth := 0.7; complexity := 0.7;
     darkness := 0.2; hope := 0.5; chaos := 0.9; space := 0.3 |}.

(** [fitness[key]] *)
Definition score_at (f : FitnessScores) (k : EvolutionEngine.FitnessKey) : jsnum :=
  match k with
  | EvolutionEngine.kEmotionalResonance => emotionalResonance f
  | EvolutionEngine.kCoherence => coherence f
  | EvolutionEngine.kInterest => interest f
  | EvolutionEngine.kSurprise => surprise f
  | EvolutionEngine.kTechnicalQuality => technicalQuality f
  end.

(** The position of a key in [Object.entries(fitness)]. *)
Definition rank (k : EvolutionEngine.FitnessKey) : nat :=
  match k with
  | EvolutionEngine.kEmotionalResonance => 0
  | EvolutionEngine.kCoherence => 1
  | EvolutionEngine.kInterest => 2
  | EvolutionEngine.kSurprise => 3
  | EvolutionEngine.kTechnicalQuality => 4
  end.

(** All five scores are finite numbers. *)
Definition finite_scores (f : FitnessScores) : Prop :=
  forall k, exists q, score_at f k = Num q.

(** The entry [(k, q)] is the first of the entries of [l] with the least
    score: the entries before it are strictly above [q], those after it are
    not below [q]. *)
Definition first_minimum (l : list (EvolutionEngine.FitnessKey * jsnum))
    (k : EvolutionEngine.FitnessKey) (q : Q) : Prop :=
  exists pre post,
    l = (pre ++ (k, Num q) :: post)%list
    /\ Forall (fun e => exists q', snd e = Num q' /\ q < q') pre
    /\ Forall (fun e => exists q', snd e = Num q' /\ q <= q') post.

(** [w'] is [w] after some random draws and clock readings: the heap is
    the same, and the draws that are left are in [0,1) if they were. *)
Definition same_heap (w w' : World) : Prop :=
  oscs w' = oscs w /\ envs w' = envs w /\ (valid_rng w -> valid_rng w').

(** [s.envelope.attack < 2 && s.envelope.release < 5] *)
Definition goodEnvelope (v : SynthValue.t) : bool :=
  (Envelope.attack (SynthValue.envelope v) <? 2)
  && (Envelope.release (SynthValue.envelope v) <? 5).

(** The footprint of a call [applyMutation params strat locked], run in
    world [w], with result [out] and final world [w']: what no mutation
    touches, and what only some mutation types touch. *)
Record footprint (params : MusicParameters) (w : World) (strat : MutationStrategy)
    (out : MusicParameters) (w' : World) : Prop := {
  footprint_timeSignature : timeSignature out = timeSignature params;
  footprint_filter : filter (effects out) = filter (effects params);
  footprint_dampening :
    Reverb.dampening (reverb (effects out))
    = Reverb.dampening (reverb (effects params));
  footprint_delayTime :
    Delay.delayTime (delay (effects out)) = Delay.delayTime (delay (effects params));
  footprint_voice_types :
    map Synth.type (synths out) = map Synth.type (synths params);
  footprint_voice_volumes :
    map Synth.volume (synths out) = map Synth.volume (synths params);
  footprint_scale :
    Strategy.type strat <> harmonic -> Strategy.type strat <> radical ->
    scale out = scale params;
  footprint_key : Strategy.type strat <> harmonic -> key out = key params;
  footprint_tempo :
    Strategy.type strat <> rhythmic -> Strategy.type strat <> radical ->
    tempo out = tempo params;
  footprint_patterns :
    Strategy.type strat <> rhythmic -> Strategy.type strat <> structural ->
    patterns out = patterns params;
  footprint_effects :
    Strategy.type strat <> timbral -> Strategy.type strat <> textural ->
    effects out = effects params;
  footprint_synths :
    Strategy.type strat <> timbral ->
    synthValues w' (synths out) = synthValues w (synths params);
  footprint_rng : valid_rng w -> valid_rng w'
}.

(** Whenever the draws of the tape are in [0,1), [m] returns, touches
    nothing but the tape, and its result satisfies [P]. *)
Definition fair {A} (m : M A) (P : A -> Prop) : Prop :=
  forall w, valid_rng w -> wp m w (fun a w' => after w w' /\ P a).



(** [gens] is a line of descent from [parent]: each generation is the child
    of the one before it, one number higher, with one more entry in its
    mutation history; prompt, mood, locks, branch, time signature and number
    of synth voices are handed down, and the number of pattern layers does
    not grow and does not fall to zero. *)
Fixpoint descent (parent : Generation.t) (gens : list Generation.t) : Prop :=
  match gens with
  | [] => True
  | g :: rest =>
      Generation.parentId g = Some (Generation.id parent)
      /\ Generation.generationNumber g = Generation.generationNumber parent + 1
      /\ length (Generation.mutations g) = S (length (Generation.mutations parent))
      /\ Generation.prompt g = Generation.prompt parent
      /\ Generation.mood g = Generation.mood parent
      /\ Generation.lockedElements g = Generation.lockedElements parent
      /\ Generation.branch g = Generation.branch parent
      /\ timeSignature (Generation.musicParams g)
         = timeSignature (Generation.musicParams parent)
      /\ length (synths (Generation.musicParams g))
         = length (synths (Generation.musicParams parent))
      /\ (length (patterns (Generation.musicParams g))
          <= length (patterns (Generation.musicParams parent)))%nat
      /\ ((1 <= length (patterns (Generation.musicParams parent)))%nat ->
          (1 <= length (patterns (Generation.musicParams g)))%nat)
      /\ descent g rest
  end.

(** The generation that the session points to: [generations.find(g => g.id
    === currentGeneration)]. *)
Definition currentOf (s : Session.t) : option Generation.t :=
  find (fun g => String.eqb (Generation.id g) (Session.currentGeneration s))
       (Session.generations s).

(** The generation [g] after [g.lockedElements = locks]. *)
Definition relocked (g : Generation.t) (locks : list string) : Generation.t :=
  {| Generation.id := Generation.id g;
     Generation.parentId := Generation.parentId g;
     Generation.generationNumber := Generation.generationNumber g;
     Generation.timestamp := Generation.timestamp g;
     Generation.musicCode := Generation.musicCode g;
     Generation.musicParams := Generation.musicParams g;
     Generation.creativeReasoning := Generation.creativeReasoning g;
     Generation.fitness := Generation.fitness g;
     Generation.prompt := Generation.prompt g;
     Generation.mood := Generation.mood g;
     Generation.mutations := Generation.mutations g;
     Generation.lockedElements := locks;
     Generation.branch := Generation.branch g;
     Generation.tags := Generation.tags g |}.

(** A note name of [generatePatterns]: a note of the scale followed by an
    octave digit. *)
Definition note_of (scale : list string) (note : string) : Prop :=
  exists s o, In s scale /\ In o ["2"; "3"; "4"] /\ note = s ++ o.

(** * Properties *)

Import EvolutionEngine SessionStore.

(** ** Strings *)

Lemma prefix_spec p : forall s,
  String.prefix p s = true <-> exists post, s = p ++ post.
Proof.
  induction p as [|a p IH]; intros s.
  - split; [intros _; now exists s | intros _; now destruct s].
  - destruct s as [|b s]; cbn.
    + split; [discriminate | intros [post E]; discriminate E].
    + destruct (ascii_dec a b) as [->|N].
      * rewrite IH. split; intros [post E]; exists post; congruence.
      * split; [discriminate | intros [post E]]. congruence.
Qed.

(** [includes s sub] holds exactly when [sub] occurs in [s]. *)
Lemma includes_spec s : forall sub,
  includes s sub = true <-> exists pre post, s = pre ++ sub ++ post.
Proof.
  induction s as [|a s IH]; intros sub.
  - cbn [includes]. rewrite orb_false_r, prefix_spec. split.
    + intros [post E]. now exists EmptyString, post.
    + intros ([|c pre] & post & E); [|discriminate E]. now exists post.
  - cbn [includes]. rewrite orb_true_iff, prefix_spec, IH. split.
    + intros [[post E]|(pre & post & E)].
      * now exists EmptyString, post.
      * exists (String a pre), post. cbn. now rewrite E.
    + intros ([|c pre] & post & E).
      * left. now exists post.
      * right. exists pre, post. cbn in E. congruence.
Qed.

Lemma prefix_toLowerCase t : forall s,
  String.prefix t s = true ->
  String.prefix (toLowerCase t) (toLowerCase s) = true.
Proof.
  induction t as [|a t IH]; intros [|b s]; simpl; try easy.
  destruct (ascii_dec a b) as [->|]; [|easy].
  intros H. destruct (ascii_dec (lower_ascii b) (lower_ascii b)); [auto|easy].
Qed.

Lemma includes_toLowerCase s : forall t,
  includes s t = true -> includes (toLowerCase s) (toLowerCase t) = true.
Proof.
  induction s as [|a s IH]; intros t H.
  - simpl in *. rewrite orb_false_r in *.
    now apply (prefix_toLowerCase t EmptyString).
  - cbn [includes] in H. apply orb_true_iff in H as [H|H].
    + cbn [toLowerCase includes].
      apply orb_true_iff. left.
      now apply (prefix_toLowerCase t (String a s)).
    + cbn [toLowerCase includes]. apply orb_true_iff. right. now apply IH.
Qed.

Lemma arr_includes_In (arr : list string) (x : string) :
  arr_includes arr x = true <-> In x arr.
Proof.
  unfold arr_includes. rewrite existsb_exists. split.
  - intros (y & Hy & E). apply String.eqb_eq in E. now subst.
  - intros H. exists x. split; [easy | apply String.eqb_refl].
Qed.

(** ** The model on concrete inputs *)

(** Scenario A of the specification: tempo 156, a major key, 4/4. *)
Example scenario_A_parameters :
  exists p w',
    MusicEngine.emotionToParams Sample.scenarioA "bright and driving"
      (Sample.heapWorld [0.2; 0.7; 0.4]) = Ok p w'
    /\ tempo p == 156 /\ key p = "D" /\ timeSignature p = (4, 4).
Proof.
  eexists _, _. split; [vm_compute; reflexivity|]. repeat split.
Qed.

Example weakest_aspect_of_sample :
  findWeakestAspect Sample.scores = kSurprise.
Proof. reflexivity. Qed.

(** Equal scores: the first dimension, in the order of the properties. *)
Example weakest_aspect_tie :
  findWeakestAspect
    {| emotionalResonance := Num 0.5; coherence := Num 0.4; interest := Num 0.4;
       surprise := Num 0.6; technicalQuality := Num 0.4 |}
  = kCoherence.
Proof. reflexivity. Qed.

Example strategy_by_temperature :
  Strategy.type (chooseMutationStrategy (Sample.generation "gen_a" 0) 0.9 None)
  = radical
  /\ Strategy.type (chooseMutationStrategy (Sample.generation "gen_a" 0) 0.5 None)
     = harmonic
  /\ Strategy.description
       (chooseMutationStrategy (Sample.generation "gen_a" 0) 0.5 None)
     = "moderate harmonic mutation".
Proof. repeat split. Qed.

Example unrecognised_feedback : parseFeedback "more like rain" = None.
Proof. reflexivity. Qed.

(** ** The monad *)

Lemma wp_ret {A} (a : A) w (post : A -> World -> Prop) :
  post a w -> wp (ret a) w post.
Proof. exact (fun H => H). Qed.

Lemma wp_bind {A B} (m : M A) (k : A -> M B) w (post : B -> World -> Prop) :
  wp m w (fun a w' => wp (k a) w' post) -> wp (bind m k) w post.
Proof. unfold wp, bind. now destruct (m w). Qed.

Lemma wp_mono {A} (m : M A) w (post post' : A -> World -> Prop) :
  wp m w post -> (forall a w', post a w' -> post' a w') -> wp m w post'.
Proof. unfold wp. destruct (m w); [auto | easy]. Qed.

Lemma wp_elim {A} (m : M A) w (post : A -> World -> Prop) :
  wp m w post -> exists a w', m w = Ok a w' /\ post a w'.
Proof. unfold wp. destruct (m w) as [a w'|]; [eauto | easy]. Qed.

Lemma wp_intro {A} (m : M A) w a w' (post : A -> World -> Prop) :
  m w = Ok a w' -> post a w' -> wp m w post.
Proof. unfold wp. now intros ->. Qed.

Lemma after_refl w : after w w.
Proof. repeat split. now exists 0%nat. Qed.

Lemma after_trans w1 w2 w3 : after w1 w2 -> after w2 w3 -> after w1 w3.
Proof.
  intros (O1 & E1 & C1 & k1 & R1) (O2 & E2 & C2 & k2 & R2).
  repeat split; try congruence.
  exists (k1 + k2)%nat. rewrite R2, R1. apply drop_drop.
Qed.

Lemma after_valid_rng w w' : after w w' -> valid_rng w -> valid_rng w'.
Proof.
  intros (_ & _ & _ & k & R) V. unfold valid_rng in *. rewrite R.
  now apply Forall_drop.
Qed.

Lemma after_heap_ok w w' voices : after w w' -> heap_ok w voices -> heap_ok w' voices.
Proof. intros (O & E & _) H. unfold heap_ok in *. now rewrite O, E. Qed.

Lemma after_synthValues w w' voices :
  after w w' -> synthValues w' voices = synthValues w voices.
Proof.
  intros (O & E & _). unfold synthValues, synthValue. now rewrite O, E.
Qed.

Lemma rng_only_wp {A} (m : M A) (P : A -> Prop) w (post : A -> World -> Prop) :
  rng_only m P ->
  (forall a w', after w w' -> P a -> post a w') ->
  wp m w post.
Proof.
  intros H K. apply (wp_mono _ _ _ _ (H w)). intros a w' [? ?]. now apply K.
Qed.

Lemma rng_only_ret {A} (a : A) (P : A -> Prop) : P a -> rng_only (ret a) P.
Proof. intros H w. apply wp_ret. split; [apply after_refl | exact H]. Qed.

Lemma rng_only_bind {A B} (m : M A) (k : A -> M B) (P : A -> Prop) (Q : B -> Prop) :
  rng_only m P -> (forall a, P a -> rng_only (k a) Q) -> rng_only (bind m k) Q.
Proof.
  intros Hm Hk w. apply wp_bind. apply (rng_only_wp _ _ _ _ Hm).
  intros a w1 A1 Pa. apply (rng_only_wp _ _ _ _ (Hk a Pa)).
  intros b w2 A2 Qb. split; [now apply (after_trans _ w1) | exact Qb].
Qed.

Lemma rng_only_weaken {A} (m : M A) (P Q : A -> Prop) :
  rng_only m P -> (forall a, P a -> Q a) -> rng_only m Q.
Proof.
  intros H K w. apply (rng_only_wp _ _ _ _ H). intros a w' ? ?. split; auto.
Qed.

Lemma rng_only_random : rng_only random (fun _ => True).
Proof.
  intros w. unfold wp, random. destruct (rng w) as [|r rest] eqn:E.
  - split; [apply after_refl | exact I].
  - split; [|exact I]. repeat split; cbn. exists 1%nat. now rewrite E.
Qed.

Lemma rng_only_andM (b : bool) (m : M bool) :
  rng_only m (fun _ => True) -> rng_only (andM b m) (fun _ => True).
Proof. destruct b; [easy | intros _; now apply rng_only_ret]. Qed.

Lemma rng_only_mapM {A B} (f : A -> M B) (R : A -> B -> Prop) (l : list A) :
  (forall x, In x l -> rng_only (f x) (R x)) ->
  rng_only (mapM f l) (fun ys => Forall2 R l ys).
Proof.
  induction l as [|x l IH]; intros H.
  - apply rng_only_ret. constructor.
  - cbn [mapM].
    apply (rng_only_bind _ _ (R x)); [apply H; now left|]. intros y Hy.
    apply (rng_only_bind _ _ (fun ys => Forall2 R l ys)).
    + apply IH. intros z Hz. apply H. now right.
    + intros ys Hys. apply rng_only_ret. now constructor.
Qed.

Lemma rng_only_forPush {A} (body : nat -> M A) (P : A -> Prop) (n : nat) :
  (forall i, rng_only (body i) P) ->
  forall start, rng_only (forPush n start body)
                  (fun xs => length xs = n /\ Forall P xs).
Proof.
  intros H. induction n as [|n IH]; intros start.
  - apply rng_only_ret. split; [reflexivity | constructor].
  - cbn [forPush].
    apply (rng_only_bind _ _ P); [apply H|]. intros x Hx.
    apply (rng_only_bind _ _ (fun xs => length xs = n /\ Forall P xs));
      [apply IH|]. intros xs [L F].
    apply rng_only_ret. split; [cbn; now rewrite L | now constructor].
Qed.

(** ** The heap *)

Lemma same_shape_refl w : same_shape w w.
Proof. repeat split. now exists 0%nat. Qed.

Lemma same_shape_trans w1 w2 w3 :
  same_shape w1 w2 -> same_shape w2 w3 -> same_shape w1 w3.
Proof.
  intros (O1 & E1 & C1 & k1 & R1) (O2 & E2 & C2 & k2 & R2).
  repeat split; try congruence.
  exists (k1 + k2)%nat. rewrite R2, R1. apply drop_drop.
Qed.

Lemma after_same_shape w w' : after w w' -> same_shape w w'.
Proof. intros (O & E & C & R). unfold same_shape. rewrite O, E. auto. Qed.

Lemma same_shape_heap_ok w w' voices :
  same_shape w w' -> heap_ok w voices -> heap_ok w' voices.
Proof. intros (O & E & _) H. unfold heap_ok in *. now rewrite O, E. Qed.

Lemma extends_refl w : extends w w.
Proof.
  repeat split; exists []; now rewrite app_nil_r.
Qed.

Lemma extends_trans w1 w2 w3 : extends w1 w2 -> extends w2 w3 -> extends w1 w3.
Proof.
  intros (R1 & C1 & (o1 & O1) & (e1 & E1)) (R2 & C2 & (o2 & O2) & (e2 & E2)).
  repeat split; try congruence.
  - exists (o1 ++ o2)%list. now rewrite O2, O1, <- app_assoc.
  - exists (e1 ++ e2)%list. now rewrite E2, E1, <- app_assoc.
Qed.

Lemma extends_heap_ok w w' voices :
  extends w w' -> heap_ok w voices -> heap_ok w' voices.
Proof.
  intros (_ & _ & (os & O) & (es & E)) H. unfold heap_ok in *.
  rewrite O, E. rewrite !length_app.
  eapply Forall_impl; [exact H|]. cbn. intros s [? ?]. split; lia.
Qed.

Lemma extends_synthValue w w' s v :
  extends w w' -> synthValue w s = Some v -> synthValue w' s = Some v.
Proof.
  intros (_ & _ & (os & O) & (es & E)). unfold synthValue. rewrite O, E.
  destruct (oscs w !! Synth.oscillator s) as [o|] eqn:Ho; [|easy].
  destruct (envs w !! Synth.envelope s) as [e|] eqn:He; [|easy].
  intros H.
  rewrite (lookup_app_l_Some _ _ _ _ Ho), (lookup_app_l_Some _ _ _ _ He).
  exact H.
Qed.

Lemma extends_synthValues w w' voices :
  extends w w' -> heap_ok w voices ->
  synthValues w' voices = synthValues w voices.
Proof.
  intros X H. unfold synthValues. apply map_ext_in. intros s Hs.
  unfold heap_ok in H. rewrite Forall_forall in H.
  destruct (H s) as [Ho He]; [now apply list_elem_of_In|].
  destruct (synthValue w s) as [v|] eqn:V.
  - now apply (extends_synthValue w w').
  - exfalso. unfold synthValue in V.
    destruct (oscs w !! Synth.oscillator s) eqn:Ho';
      [|apply lookup_ge_None in Ho'; lia].
    destruct (envs w !! Synth.envelope s) eqn:He';
      [discriminate | apply lookup_ge_None in He'; lia].
Qed.

Lemma readSynth_spec s w :
  readSynth s w =
    match synthValue w s with
    | Some v => Ok v w
    | None => Throw DanglingRef w
    end.
Proof.
  unfold readSynth, synthValue, bind, readOsc, readEnv, ret.
  destruct (oscs w !! Synth.oscillator s); [|reflexivity].
  now destruct (envs w !! Synth.envelope s).
Qed.

Lemma mapM_readSynth voices w :
  heap_ok w voices ->
  exists vs, mapM readSynth voices w = Ok vs w
             /\ synthValues w voices = map Some vs.
Proof.
  induction voices as [|s voices IH]; intros H.
  - now exists [].
  - apply Forall_cons in H as [[Ho He] H].
    destruct (IH H) as (vs & E & V).
    apply lookup_lt_is_Some_2 in Ho as [o Ho].
    apply lookup_lt_is_Some_2 in He as [e He].
    assert (S : synthValue w s
                = Some {| SynthValue.type := Synth.type s;
                          SynthValue.oscillator := o;
                          SynthValue.envelope := e;
                          SynthValue.volume := Synth.volume s |}).
    { unfold synthValue. now rewrite Ho, He. }
    eexists (_ :: vs). cbn [mapM]. unfold bind at 1.
    rewrite readSynth_spec, S. unfold bind at 1. rewrite E.
    split; [reflexivity|]. unfold synthValues in *. cbn [map].
    now rewrite S, V.
Qed.

Lemma newSynth_spec v w :
  exists s w', newSynth v w = Ok s w'
               /\ extends w w' /\ synthValue w' s = Some v /\ heap_ok w' [s].
Proof.
  unfold newSynth, bind, newOsc, newEnv, ret. do 2 eexists.
  split; [reflexivity|]. split; [|split].
  - repeat split; cbn; eauto.
  - unfold synthValue. cbn.
    rewrite !list_lookup_middle by reflexivity. now destruct v.
  - constructor; [|constructor]. cbn. rewrite !length_app. cbn. lia.
Qed.

Lemma mapM_newSynth vs : forall w,
  exists voices w', mapM newSynth vs w = Ok voices w'
                    /\ extends w w'
                    /\ synthValues w' voices = map Some vs
                    /\ heap_ok w' voices.
Proof.
  induction vs as [|v vs IH]; intros w.
  - exists [], w. repeat split; try apply extends_refl. constructor.
  - destruct (newSynth_spec v w) as (s & w1 & E1 & X1 & V1 & H1).
    destruct (IH w1) as (voices & w2 & E2 & X2 & V2 & H2).
    exists (s :: voices), w2. cbn [mapM]. unfold bind at 1. rewrite E1.
    unfold bind at 1. rewrite E2. split; [reflexivity|].
    split; [now apply (extends_trans _ w1)|]. split.
    + cbn. rewrite (extends_synthValue w1 w2 s v X2 V1). now f_equal.
    + apply Forall_cons. split; [|exact H2].
      apply (extends_heap_ok w1 w2 [s] X2) in H1.
      now apply Forall_cons in H1 as [? _].
Qed.

(** [JSON.parse(JSON.stringify(params))] returns [params] with fresh synth
    voices that have the values of the voices of [params]. *)
Lemma jsonClone_wp params w (post : MusicParameters -> World -> Prop) :
  heap_ok w (synths params) ->
  (forall fresh w',
     extends w w' ->
     synthValues w' fresh = synthValues w (synths params) ->
     heap_ok w' fresh ->
     post (set_synths params fresh) w') ->
  wp (jsonClone params) w post.
Proof.
  intros H K. unfold jsonClone.
  destruct (mapM_readSynth _ _ H) as (vs & E & V).
  destruct (mapM_newSynth vs w) as (fresh & w' & E' & X & V' & H').
  apply wp_bind. apply (wp_intro _ _ _ _ _ E).
  apply wp_bind. apply (wp_intro _ _ _ _ _ E').
  apply wp_ret. apply K; [exact X | congruence | exact H'].
Qed.

Lemma wp_random w (post : Q -> World -> Prop) :
  (forall r w', after w w' -> post r w') -> wp random w post.
Proof.
  intros K. apply (rng_only_wp _ _ _ _ rng_only_random). intros r w' A _.
  now apply K.
Qed.

Lemma wp_writeOsc l o w (post : unit -> World -> Prop) :
  (l < length (oscs w))%nat ->
  (forall w', same_shape w w' -> post tt w') ->
  wp (writeOsc l o) w post.
Proof.
  intros L K. unfold wp, writeOsc.
  apply lookup_lt_is_Some_2 in L as [o' ->]. apply K.
  repeat split; cbn; [apply length_insert | now exists 0%nat].
Qed.

Lemma wp_readEnv l w (post : Envelope.t -> World -> Prop) :
  (l < length (envs w))%nat ->
  (forall e, envs w !! l = Some e -> post e w) ->
  wp (readEnv l) w post.
Proof.
  intros L K. unfold wp, readEnv.
  apply lookup_lt_is_Some_2 in L as [e E]. rewrite E. now apply K.
Qed.

Lemma wp_writeEnv l e w (post : unit -> World -> Prop) :
  (l < length (envs w))%nat ->
  (forall w', same_shape w w' -> post tt w') ->
  wp (writeEnv l e) w post.
Proof.
  intros L K. unfold wp, writeEnv.
  apply lookup_lt_is_Some_2 in L as [e' ->]. apply K.
  repeat split; cbn; [apply length_insert | now exists 0%nat].
Qed.

(** [mutateSynth] returns the voice it was given, with the same two
    locations; what it changes is in the heap. *)
Lemma mutateSynth_wp s intensity w (post : SynthSettings -> World -> Prop) :
  heap_ok w [s] ->
  (forall w', same_shape w w' -> post s w') ->
  wp (mutateSynth s intensity) w post.
Proof.
  intros H K. apply Forall_cons in H as [[Ho He] _]. unfold mutateSynth.
  apply wp_bind.
  assert (Step1 : forall w1, same_shape w w1 ->
            wp (let* e := readEnv (Synth.envelope s) in
                let* r1 := random in
                exec writeEnv (Synth.envelope s)
                       (set_attack e (Envelope.attack e + (r1 - 0.5) * intensity * 0.5)) in
                let* e' := readEnv (Synth.envelope s) in
                let* r2 := random in
                exec writeEnv (Synth.envelope s)
                       (set_release e' (Envelope.release e' + (r2 - 0.5) * intensity * 1.0)) in
                ret s) w1 post).
  { intros w1 S1. pose proof S1 as (_ & E1 & _).
    apply wp_bind, wp_readEnv; [lia|]. intros e _.
    apply wp_bind, wp_random. intros r1 w2 A2.
    pose proof (same_shape_trans _ _ _ S1 (after_same_shape _ _ A2)) as S2.
    pose proof S2 as (_ & E2 & _).
    apply wp_bind, wp_writeEnv; [lia|]. intros w3 S3.
    pose proof (same_shape_trans _ _ _ S2 S3) as S3'.
    pose proof S3' as (_ & E3 & _).
    apply wp_bind, wp_readEnv; [lia|]. intros e' _.
    apply wp_bind, wp_random. intros r2 w4 A4.
    pose proof (same_shape_trans _ _ _ S3' (after_same_shape _ _ A4)) as S4.
    pose proof S4 as (_ & E4 & _).
    apply wp_bind, wp_writeEnv; [lia|]. intros w5 S5.
    apply wp_ret, K. now apply (same_shape_trans _ w4). }
  destruct (intensity >? 0.5).
  - apply wp_bind, wp_random. intros r w1 A1.
    pose proof (after_same_shape _ _ A1) as S1. pose proof S1 as (O1 & _).
    apply wp_writeOsc; [lia|]. intros w2 S2.
    apply Step1. now apply (same_shape_trans _ w1).
  - apply wp_ret, Step1, same_shape_refl.
Qed.

Lemma mapM_mutateSynth_wp intensity voices : forall w (post : list SynthSettings -> World -> Prop),
  heap_ok w voices ->
  (forall w', same_shape w w' -> post voices w') ->
  wp (mapM (fun s => mutateSynth s intensity) voices) w post.
Proof.
  induction voices as [|s voices IH]; intros w post H K.
  - apply wp_ret, K, same_shape_refl.
  - apply Forall_cons in H as [Hs H]. cbn [mapM].
    apply wp_bind, mutateSynth_wp; [now constructor|]. intros w1 S1.
    apply wp_bind, IH; [now apply (same_shape_heap_ok w)|]. intros w2 S2.
    apply wp_ret, K. now apply (same_shape_trans _ w1).
Qed.

(** ** Numbers *)

Lemma Qgtb_lt a b : (a >? b) = true <-> b < a.
Proof.
  unfold Qgtb. rewrite negb_true_iff, <- not_true_iff_false, Qle_bool_iff.
  split; [apply Qnot_le_lt | apply Qlt_not_le].
Qed.

Lemma Qgtb_le a b : (a >? b) = false <-> a <= b.
Proof. unfold Qgtb. now rewrite negb_false_iff, Qle_bool_iff. Qed.

Lemma Qltb_lt a b : (a <? b) = true <-> a < b.
Proof. apply Qgtb_lt. Qed.

Lemma Qltb_le a b : (a <? b) = false <-> b <= a.
Proof. apply Qgtb_le. Qed.

Lemma clamp_bounds lo hi x : lo <= hi -> lo <= clamp lo hi x /\ clamp lo hi x <= hi.
Proof.
  intros H. unfold clamp. split; [apply Q.le_max_l|].
  apply Q.max_lub; [exact H | apply Q.le_min_l].
Qed.

(** With a draw in [0,1), [pick] returns an element of a non-empty array:
    its default is out of reach. *)
Lemma pick_in_range {A} (d : A) (arr : list A) (r : Q) :
  arr <> [] -> 0 <= r /\ r < 1 -> In (pick d arr r) arr.
Proof.
  intros Ne [R0 R1]. unfold pick, floor_index.
  set (n := length arr).
  assert (Hn : 0 < of_nat n).
  { unfold of_nat. change 0 with (inject_Z 0). rewrite <- Zlt_Qlt.
    subst n. destruct arr; [easy | cbn; lia]. }
  assert (L : (0 <= Qfloor (r * of_nat n))%Z).
  { change 0%Z with (Qfloor 0). apply Qfloor_resp_le. nra. }
  assert (U : (Qfloor (r * of_nat n) < Z.of_nat n)%Z).
  { rewrite Zlt_Qlt. apply (Qle_lt_trans _ (r * of_nat n)).
    - apply Qfloor_le.
    - unfold of_nat in *. nra. }
  destruct (Qfloor (r * of_nat n) <? 0)%Z eqn:Neg.
  { apply Z.ltb_lt in Neg. lia. }
  destruct (arr !! Z.to_nat (Qfloor (r * of_nat n))) as [x|] eqn:E.
  - apply list_elem_of_In. now apply (list_elem_of_lookup_2 _ _ _ E).
  - apply lookup_ge_None in E. subst n. lia.
Qed.

(** ** The mutation helpers draw random numbers and do nothing else *)

Ltac rng_draw :=
  eapply rng_only_bind; [apply rng_only_random | intros ? _].

Lemma mutateScale_rng sc intensity : rng_only (mutateScale sc intensity) (fun _ => True).
Proof.
  unfold mutateScale. destruct (intensity <? 0.3).
  - rng_draw. rng_draw. now apply rng_only_ret.
  - now apply rng_only_ret.
Qed.

Lemma mutateKey_rng k intensity : rng_only (mutateKey k intensity) (fun _ => True).
Proof.
  unfold mutateKey. destruct (intensity <? 0.4).
  - now apply rng_only_ret.
  - rng_draw. now apply rng_only_ret.
Qed.

Lemma mutateTempo_rng t intensity :
  rng_only (mutateTempo t intensity) (fun v => 40 <= v /\ v <= 200).
Proof.
  unfold mutateTempo. rng_draw. apply rng_only_ret. now apply clamp_bounds.
Qed.

Lemma alterDuration_rng d : rng_only (alterDuration d) (fun _ => True).
Proof. unfold alterDuration. rng_draw. now apply rng_only_ret. Qed.

Lemma mutateRhythm_rng ds intensity :
  rng_only (mutateRhythm ds intensity) (fun v => length v = length ds).
Proof.
  unfold mutateRhythm. destruct (intensity <? 0.4).
  - eapply rng_only_weaken.
    + apply (rng_only_mapM _ (fun _ _ => True)). intros d _.
      rng_draw. destruct (_ <? _); [apply alterDuration_rng | now apply rng_only_ret].
    + intros v F. symmetry. exact (Forall2_length _ _ _ F).
  - eapply rng_only_weaken.
    + apply (rng_only_mapM _ (fun _ _ => True)). intros d _. apply alterDuration_rng.
    + intros v F. symmetry. exact (Forall2_length _ _ _ F).
Qed.

Lemma mutatePattern_rng intensity slot :
  is_Some slot -> rng_only (mutatePattern intensity slot) is_Some.
Proof.
  intros [p ->]. unfold mutatePattern.
  eapply rng_only_bind; [apply mutateRhythm_rng|]. intros ds _.
  apply rng_only_ret. eauto.
Qed.

Lemma mutatePatterns_rng intensity slots :
  no_holes slots ->
  rng_only (mapM (mutatePattern intensity) slots)
           (fun v => no_holes v /\ length v = length slots).
Proof.
  intros H. eapply rng_only_weaken.
  - apply (rng_only_mapM _ (fun _ y => is_Some y)). intros x Hx.
    apply mutatePattern_rng. unfold no_holes in H. rewrite Forall_forall in H.
    apply H. now apply list_elem_of_In.
  - intros v F. split.
    + unfold no_holes. clear H. induction F; constructor; auto.
    + symmetry. exact (Forall2_length _ _ _ F).
Qed.

Lemma mutateEffects_rng e intensity :
  rng_only (mutateEffects e intensity)
    (fun v => 0.1 <= Reverb.roomSize (reverb v) /\ Reverb.roomSize (reverb v) <= 0.9
              /\ 0 <= Delay.feedback (delay v) /\ Delay.feedback (delay v) <= 0.9
              /\ Reverb.wet (reverb v) = Reverb.wet (reverb e)
              /\ Delay.wet (delay v) = Delay.wet (delay e)).
Proof.
  unfold mutateEffects. rng_draw. rng_draw. apply rng_only_ret. cbn.
  split; [|split; [|split; [|split]]]; try apply clamp_bounds; try lra.
  now split.
Qed.

Lemma generateRadicalScale_rng : rng_only generateRadicalScale (fun _ => True).
Proof.
  unfold generateRadicalScale. rng_draw.
  eapply rng_only_weaken; [|easy].
  apply (rng_only_forPush _ (fun _ => True)). intros _.
  rng_draw. now apply rng_only_ret.
Qed.

(** ** The mutation applicator *)

Ltac lock_contra :=
  match goal with
  | E : arr_includes ?l ?x = false, I : In ?x ?l |- _ =>
      apply arr_includes_In in I; rewrite I in E; discriminate E
  end.

Lemma no_holes_removelast slots : no_holes slots -> no_holes (removelast slots).
Proof.
  unfold no_holes. induction 1 as [|x l Hx Hl IH]; [constructor|].
  cbn. destruct l; [constructor | now constructor].
Qed.

Ltac rng_next lem :=
  apply wp_bind; apply (rng_only_wp _ _ _ _ lem); intros ? ? ? ?.

Lemma wp_random_valid w (post : Q -> World -> Prop) :
  (forall r w', after w w' -> (valid_rng w -> 0 <= r /\ r < 1) -> post r w') ->
  wp random w post.
Proof.
  intros K. unfold wp, random. destruct (rng w) as [|r rest] eqn:E.
  - apply K; [apply after_refl | intros _; lra].
  - apply K.
    + repeat split; cbn. exists 1%nat. now rewrite E.
    + unfold valid_rng. rewrite E. intros V. now apply Forall_cons in V as [V _].
Qed.

Lemma extends_valid_rng w w' : extends w w' -> valid_rng w -> valid_rng w'.
Proof. intros (R & _) V. unfold valid_rng in *. now rewrite R. Qed.

(** [40 + Math.random() * 160] is a tempo in [40,200]. *)
Lemma radical_tempo_range r :
  0 <= r /\ r < 1 -> 40 <= 40 + r * 160 /\ 40 + r * 160 <= 200.
Proof. intros [? ?]. split; lra. Qed.

Lemma applyMutation_mutated params strat locked w :
  heap_ok w (synths params) -> no_holes (patterns params) ->
  wp (applyMutation params strat locked) w (mutated params w strat locked).
Proof.
  intros H NH. unfold applyMutation.
  apply wp_bind, jsonClone_wp; [exact H|]. intros fresh w1 X V H1.
  pose proof (extends_heap_ok _ _ _ X H) as H1'.
  assert (Fin : forall out w',
            after w1 w' ->
            synths out = fresh ->
            (valid_rng w -> 40 <= tempo params /\ tempo params <= 200 ->
             40 <= tempo out /\ tempo out <= 200) ->
            timeSignature out = timeSignature params ->
            (In "scale" locked -> scale out = scale params) ->
            (In "key" locked -> key out = key params) ->
            (In "tempo" locked -> tempo out = tempo params) ->
            (In "patterns" locked -> patterns out = patterns params) ->
            (In "effects" locked -> effects out = effects params) ->
            ((Strategy.type strat = structural -> ~ In "patterns" locked ->
              (Strategy.intensity strat >? 0.7) = false) ->
             no_holes (patterns out)) ->
            mutated params w strat locked out w').
  { intros out w' A S. constructor; auto.
    - rewrite S. now apply (after_heap_ok w1).
    - intros _. rewrite (after_synthValues _ _ _ A).
      now apply extends_synthValues.
    - intros _. rewrite S, (after_synthValues _ _ _ A). exact V. }
  destruct (Strategy.type strat) eqn:T.
  - (* harmonic *)
    apply wp_bind.
    destruct (arr_includes locked "scale") eqn:Ls; cbn [negb].
    + apply wp_ret.
      destruct (arr_includes locked "key") eqn:Lk; cbn [negb].
      * apply wp_ret, Fin; cbn; auto using after_refl.
      * rng_next (mutateKey_rng (key params) (Strategy.intensity strat)).
        apply wp_ret, Fin; cbn; auto; intros; lock_contra.
    + rng_next (mutateScale_rng (scale params) (Strategy.intensity strat)).
      apply wp_ret.
      destruct (arr_includes locked "key") eqn:Lk; cbn [negb].
      * apply wp_ret, Fin; cbn; auto; intros; lock_contra.
      * rng_next (mutateKey_rng (key params) (Strategy.intensity strat)).
        apply wp_ret, Fin; cbn; eauto using after_trans; intros; lock_contra.
  - (* rhythmic *)
    apply wp_bind.
    destruct (arr_includes locked "tempo") eqn:Lt; cbn [negb].
    + apply wp_ret.
      destruct (arr_includes locked "patterns") eqn:Lp; cbn [negb].
      * apply wp_ret, Fin; cbn; auto using after_refl.
      * rng_next (mutatePatterns_rng (Strategy.intensity strat) _ NH).
        apply wp_ret, Fin; cbn; auto; try (intros; lock_contra).
        intros _. tauto.
    + rng_next (mutateTempo_rng (tempo params) (Strategy.intensity strat)).
      apply wp_ret.
      destruct (arr_includes locked "patterns") eqn:Lp; cbn [negb].
      * apply wp_ret, Fin; cbn; auto; intros; lock_contra.
      * rng_next (mutatePatterns_rng (Strategy.intensity strat) _ NH).
        apply wp_ret, Fin; cbn; eauto using after_trans; try (intros; lock_contra).
        intros _. tauto.
  - (* timbral *)
    apply wp_bind.
    destruct (arr_includes locked "synths") eqn:Lsy; cbn [negb].
    + apply wp_ret.
      destruct (arr_includes locked "effects") eqn:Le; cbn [negb].
      * apply wp_ret, Fin; cbn; auto using after_refl.
      * rng_next (mutateEffects_rng (effects params) (Strategy.intensity strat)).
        apply wp_ret, Fin; cbn; auto; intros; lock_contra.
    + apply wp_bind, mapM_mutateSynth_wp; [exact H1'|]. intros w2 S2.
      apply wp_ret.
      pose proof (same_shape_heap_ok _ _ _ S2 H1') as H2.
      destruct (arr_includes locked "effects") eqn:Le; cbn [negb].
      * apply wp_ret. constructor; cbn; auto; try (intros; lock_contra).
        intros K. specialize (K T). lock_contra.
      * rng_next (mutateEffects_rng (effects params) (Strategy.intensity strat)).
        apply wp_ret. constructor; cbn; auto; try (intros; lock_contra).
        -- now apply (after_heap_ok w2).
        -- intros K. specialize (K T). lock_contra.
  - (* structural *)
    destruct (arr_includes locked "patterns") eqn:Lp; cbn [negb].
    + apply wp_ret, Fin; cbn; auto using after_refl.
    + cbn [patterns set_synths].
      destruct (Strategy.intensity strat >? 0.6) eqn:I6; cbn [andb].
      * destruct (1 <? length (patterns params))%nat eqn:L1.
        -- apply wp_ret, Fin; cbn; auto using after_refl; try (intros; lock_contra).
           intros _. now apply no_holes_removelast.
        -- destruct (Strategy.intensity strat >? 0.7) eqn:I7; cbn [andb].
           ++ destruct (length (patterns params) <? 4)%nat eqn:L4.
              ** apply wp_ret, Fin; cbn; auto using after_refl;
                   try (intros; lock_contra).
                 intros K. exfalso.
                 assert (N : ~ In "patterns" locked).
                 { intros I. lock_contra. }
                 specialize (K eq_refl N). discriminate K.
              ** apply wp_ret, Fin; cbn; auto using after_refl;
                   intros; lock_contra.
           ++ apply wp_ret, Fin; cbn; auto using after_refl;
                intros; lock_contra.
      * destruct (Strategy.intensity strat >? 0.7) eqn:I7; cbn [andb].
        -- destruct (length (patterns params) <? 4)%nat eqn:L4.
           ++ apply wp_ret, Fin; cbn; auto using after_refl;
                try (intros; lock_contra).
              intros K. exfalso.
              assert (N : ~ In "patterns" locked).
              { intros I. lock_contra. }
              specialize (K eq_refl N). discriminate K.
           ++ apply wp_ret, Fin; cbn; auto using after_refl;
                intros; lock_contra.
        -- apply wp_ret, Fin; cbn; auto using after_refl;
             intros; lock_contra.
  - (* textural *)
    destruct (arr_includes locked "effects") eqn:Le; cbn [negb].
    + apply wp_ret, Fin; cbn; auto using after_refl.
    + apply wp_bind, wp_random. intros r1 w2 A2.
      apply wp_bind, wp_random. intros r2 w3 A3.
      apply wp_ret, Fin; cbn; eauto using after_trans; intros; lock_contra.
  - (* radical *)
    apply wp_bind.
    destruct (arr_includes locked "scale") eqn:Ls; cbn [negb].
    + apply wp_ret.
      destruct (arr_includes locked "tempo") eqn:Lt; cbn [negb].
      * apply wp_ret, Fin; cbn; auto using after_refl.
      * apply wp_bind, wp_random_valid. intros r w2 A2 R.
        apply wp_ret, Fin; cbn; auto; try (intros; lock_contra).
        intros Vw _. apply radical_tempo_range, R.
        now apply (extends_valid_rng w).
    + rng_next generateRadicalScale_rng.
      apply wp_ret.
      destruct (arr_includes locked "tempo") eqn:Lt; cbn [negb].
      * apply wp_ret, Fin; cbn; auto; intros; lock_contra.
      * apply wp_bind, wp_random_valid. intros r w3 A3 R.
        apply wp_ret, Fin; cbn; eauto using after_trans;
          try (intros; lock_contra).
        intros Vw _. apply radical_tempo_range, R.
        apply (after_valid_rng w1); [assumption|].
        now apply (extends_valid_rng w).
Qed.

(** Outside a timbral mutation of unlocked [synths], [applyMutation] leaves
    the synth voices of its argument as they are. *)
Lemma applyMutation_argument_unchanged params strat locked w :
  heap_ok w (synths params) -> no_holes (patterns params) ->
  (Strategy.type strat = timbral -> In "synths" locked) ->
  exists out w',
    applyMutation params strat locked w = Ok out w'
    /\ synthValues w' (synths params) = synthValues w (synths params).
Proof.
  intros H NH K.
  destruct (wp_elim _ _ _ (applyMutation_mutated params strat locked w H NH))
    as (out & w' & E & Mu).
  exists out, w'. split; [exact E|]. now apply (mutated_argument _ _ _ _ _ _ Mu).
Qed.

(** Every mutation keeps a tempo that is in [40,200] in [40,200], when the
    random draws are in [0,1). *)
Lemma applyMutation_tempo_range params strat locked w :
  heap_ok w (synths params) -> no_holes (patterns params) ->
  valid_rng w -> 40 <= tempo params /\ tempo params <= 200 ->
  exists out w',
    applyMutation params strat locked w = Ok out w'
    /\ 40 <= tempo out /\ tempo out <= 200.
Proof.
  intros H NH V R.
  destruct (wp_elim _ _ _ (applyMutation_mutated params strat locked w H NH))
    as (out & w' & E & Mu).
  exists out, w'. split; [exact E|].
  now apply (mutated_tempo_range _ _ _ _ _ _ Mu).
Qed.

(** C4. Locking law: whatever the mutation type and the intensity, every
    field whose name is in [locked] has, in the result of [applyMutation],
    the value it has in the argument.  The value of [synths] is the list of
    the values of the voices. The call returns for every argument of the
    type [MusicParameters]. *)
Theorem locked_fields_unchanged
    (params : MusicParameters) (strat : MutationStrategy)
    (locked : list string) (w : World) :
  heap_ok w (synths params) -> no_holes (patterns params) ->
  exists out w',
    applyMutation params strat locked w = Ok out w'
    /\ (In "scale" locked -> scale out = scale params)
    /\ (In "key" locked -> key out = key params)
    /\ (In "tempo" locked -> tempo out = tempo params)
    /\ (In "patterns" locked -> patterns out = patterns params)
    /\ (In "synths" locked ->
        synthValues w' (synths out) = synthValues w (synths params))
    /\ (In "effects" locked -> effects out = effects params).
Proof.
  intros H NH.
  destruct (wp_elim _ _ _ (applyMutation_mutated params strat locked w H NH))
    as (out & w' & E & Mu).
  exists out, w'. split; [exact E|].
  destruct Mu. repeat split; assumption.
Qed.

Lemma locked_fields_unchanged_witness :
  let params := Sample.params [Some Sample.layer] in
  let w := Sample.heapWorld [0.9; 0.1; 0.9; 0.1] in
  heap_ok w (synths params) /\ no_holes (patterns params)
  /\ exists out w',
       applyMutation params (Sample.strat timbral 0.8) ["synths"; "key"] w
       = Ok out w'
       /\ key out = key params
       /\ synthValues w' (synths out) = synthValues w (synths params).
Proof.
  assert (H : heap_ok (Sample.heapWorld [0.9; 0.1; 0.9; 0.1])
                (synths (Sample.params [Some Sample.layer]))).
  { repeat constructor. }
  assert (NH : no_holes (patterns (Sample.params [Some Sample.layer]))).
  { repeat constructor. now exists Sample.layer. }
  split; [exact H|]. split; [exact NH|].
  destruct (locked_fields_unchanged _ (Sample.strat timbral 0.8)
              ["synths"; "key"] _ H NH)
    as (out & w' & E & _ & K & _ & _ & Sy & _).
  exists out, w'. split; [exact E|]. split.
  - apply K. right. now left.
  - apply Sy. now left.
Defined.

(** The structural case of [applyMutation]: the layers of the result. *)
Lemma applyMutation_structural params strat locked w :
  Strategy.type strat = structural -> heap_ok w (synths params) ->
  exists out w',
    applyMutation params strat locked w = Ok out w'
    /\ patterns out =
        if negb (arr_includes locked "patterns") then
          if (Strategy.intensity strat >? 0.6)
             && (1 <? length (patterns params))%nat
          then removelast (patterns params)
          else if (Strategy.intensity strat >? 0.7)
                  && (length (patterns params) <? 4)%nat
               then (patterns params ++ [mjoin (patterns params !! 0%nat)])%list
               else patterns params
        else patterns params.
Proof.
  intros T H. apply wp_elim. unfold applyMutation.
  apply wp_bind, jsonClone_wp; [exact H|]. intros fresh w1 X V H1.
  rewrite T. cbn [patterns set_synths].
  destruct (negb (arr_includes locked "patterns")); [|now apply wp_ret].
  destruct ((Strategy.intensity strat >? 0.6)
            && (1 <? length (patterns params))%nat); [now apply wp_ret|].
  destruct ((Strategy.intensity strat >? 0.7)
            && (length (patterns params) <? 4)%nat); now apply wp_ret.
Qed.

(** C8. A structural mutation of intensity 0.65, with [patterns] not locked,
    of parameters with exactly two pattern layers yields exactly one layer
    (the last layer is removed, the first is not duplicated); and for every
    intensity and every number of layers the result has the layers of the
    argument, or these without the last one, or these followed by a copy of
    the first one: at most one of the two actions fires. *)
Theorem structural_mutation_layers :
  (forall params strat locked w,
     Strategy.type strat = structural ->
     Strategy.intensity strat == 0.65 ->
     ~ In "patterns" locked ->
     heap_ok w (synths params) ->
     length (patterns params) = 2%nat ->
     exists out w',
       applyMutation params strat locked w = Ok out w'
       /\ length (patterns out) = 1%nat
       /\ patterns out = removelast (patterns params))
  /\ (forall params strat locked w,
     Strategy.type strat = structural ->
     heap_ok w (synths params) ->
     exists out w',
       applyMutation params strat locked w = Ok out w'
       /\ let layers := patterns params in
          let i := Strategy.intensity strat in
          (patterns out = removelast layers
           /\ S (length (patterns out)) = length layers
           /\ ~ In "patterns" locked
           /\ 0.6 < i /\ (1 < length layers)%nat)
          \/ (patterns out = (layers ++ [mjoin (layers !! 0%nat)])%list
              /\ length (patterns out) = S (length layers)
              /\ ~ In "patterns" locked
              /\ ~ (0.6 < i /\ (1 < length layers)%nat)
              /\ 0.7 < i /\ (length layers < 4)%nat)
          \/ (patterns out = layers
              /\ (In "patterns" locked
                  \/ (~ (0.6 < i /\ (1 < length layers)%nat)
                      /\ ~ (0.7 < i /\ (length layers < 4)%nat))))).
Proof.
  split.
  - intros params strat locked w T I NL H L.
    destruct (applyMutation_structural params strat locked w T H)
      as (out & w' & E & P).
    exists out, w'. split; [exact E|].
    assert (A : arr_includes locked "patterns" = false).
    { apply not_true_iff_false. intros A. now apply arr_includes_In in A. }
    assert (G : (Strategy.intensity strat >? 0.6) = true).
    { apply Qgtb_lt. lra. }
    rewrite A, G, L in P. cbn in P. rewrite P.
    destruct (patterns params) as [|x [|y [|z l]]]; try discriminate L.
    now split.
  - intros params strat locked w T H.
    destruct (applyMutation_structural params strat locked w T H)
      as (out & w' & E & P).
    exists out, w'. split; [exact E|]. cbv zeta.
    destruct (arr_includes locked "patterns") eqn:A; cbn [negb] in P.
    { right. right. split; [exact P|]. left. now apply arr_includes_In. }
    assert (NL : ~ In "patterns" locked).
    { intros I. apply arr_includes_In in I. congruence. }
    destruct ((Strategy.intensity strat >? 0.6)
              && (1 <? length (patterns params))%nat) eqn:C1.
    { left. apply andb_true_iff in C1 as [G L].
      apply Qgtb_lt in G. apply Nat.ltb_lt in L.
      rewrite P. repeat split; try assumption.
      destruct (patterns params) as [|x l] eqn:Ps; [cbn in L; lia|].
      rewrite <- Ps.
      assert (Ne : patterns params <> []) by now rewrite Ps.
      rewrite (app_removelast_last None Ne) at 2.
      rewrite length_app. cbn. lia. }
    assert (N1 : ~ (0.6 < Strategy.intensity strat
                    /\ (1 < length (patterns params))%nat)).
    { intros [G L]. apply Qgtb_lt in G. apply Nat.ltb_lt in L.
      rewrite G, L in C1. discriminate C1. }
    destruct ((Strategy.intensity strat >? 0.7)
              && (length (patterns params) <? 4)%nat) eqn:C2.
    { right. left. apply andb_true_iff in C2 as [G L].
      apply Qgtb_lt in G. apply Nat.ltb_lt in L.
      rewrite P. repeat split; try assumption; try tauto.
      rewrite length_app. cbn. lia. }
    right. right. split; [exact P|]. right. split; [exact N1|].
    intros [G L]. apply Qgtb_lt in G. apply Nat.ltb_lt in L.
    rewrite G, L in C2. discriminate C2.
Qed.

Lemma structural_mutation_layers_witness :
  let params := Sample.params [Some Sample.layer; Some Sample.layer] in
  let w := Sample.heapWorld [] in
  Strategy.intensity (Sample.strat structural 0.65) == 0.65
  /\ ~ In "patterns" ["key"]
  /\ heap_ok w (synths params)
  /\ length (patterns params) = 2%nat
  /\ exists out w',
       applyMutation params (Sample.strat structural 0.65) ["key"] w = Ok out w'
       /\ length (patterns out) = 1%nat
       /\ patterns out = removelast (patterns params).
Proof.
  assert (I : Strategy.intensity (Sample.strat structural 0.65) == 0.65)
    by reflexivity.
  assert (NL : ~ In "patterns" ["key"]).
  { intros [E|[]]. discriminate E. }
  assert (H : heap_ok (Sample.heapWorld [])
                (synths (Sample.params [Some Sample.layer; Some Sample.layer]))).
  { repeat constructor. }
  repeat (split; [assumption || reflexivity|]).
  exact (proj1 structural_mutation_layers _ (Sample.strat structural 0.65)
           ["key"] _ eq_refl I NL H eq_refl).
Defined.

(** C2. A timbral mutation writes to the objects of its argument: after
    the call, the synth voice of the argument has another oscillator type,
    attack and release than before the call.  The voices of the result are
    those of the argument, not those of the deep clone. *)
Theorem timbral_mutation_writes_to_argument :
  let params := Sample.params [Some Sample.layer] in
  let w := Sample.heapWorld [0.9; 0.1; 0.9; 0.5; 0.5] in
  exists out w' before now,
    applyMutation params (Sample.strat timbral 0.8) [] w = Ok out w'
    /\ synthValues w (synths params) = [Some before]
    /\ synthValues w' (synths params) = [Some now]
    /\ synths out = synths params
    /\ Oscillator.type (SynthValue.oscillator before) = "sine"
    /\ Oscillator.type (SynthValue.oscillator now) = "square"
    /\ Envelope.attack (SynthValue.envelope before) == 0.001
    /\ Envelope.attack (SynthValue.envelope now) == -0.159
    /\ Envelope.release (SynthValue.envelope before) == 0.1
    /\ Envelope.release (SynthValue.envelope now) == 0.42
    /\ synthValues w' (synths params) <> synthValues w (synths params).
Proof.
  cbv zeta. eexists _, _, _, _.
  split; [vm_compute; reflexivity|].
  split; [vm_compute; reflexivity|].
  split; [vm_compute; reflexivity|].
  repeat (split; [vm_compute; reflexivity|]).
  vm_compute. discriminate.
Qed.

(** C3. Two mutations of parameters whose fields are in range leave the
    range: a textural mutation of intensity 1 takes the reverb wetness from
    0.05 to -0.07 and the delay wetness from 0.02 to -0.06, and a timbral
    mutation of intensity 0.8 takes the attack of the synth voice from 0.001
    to -0.159 and its release from 0.1 to -0.22. *)
Theorem textural_and_timbral_mutations_leave_range :
  let params := Sample.params [Some Sample.layer] in
  (exists out w',
     applyMutation params (Sample.strat textural 1) []
       (Sample.heapWorld [0.1; 0.1])
     = Ok out w'
     /\ 0 <= Reverb.wet (reverb (effects params)) <= 1
     /\ 0 <= Delay.wet (delay (effects params)) <= 1
     /\ Reverb.wet (reverb (effects out)) == -0.07
     /\ Delay.wet (delay (effects out)) == -0.06)
  /\ (exists out w' before now,
       applyMutation params (Sample.strat timbral 0.8) []
         (Sample.heapWorld [0.9; 0.1; 0.1; 0.5; 0.5])
       = Ok out w'
       /\ synthValues (Sample.heapWorld [0.9; 0.1; 0.1; 0.5; 0.5])
            (synths params)
          = [Some before]
       /\ synthValues w' (synths out) = [Some now]
       /\ 0 <= Envelope.attack (SynthValue.envelope before)
       /\ 0 <= Envelope.release (SynthValue.envelope before)
       /\ Envelope.attack (SynthValue.envelope now) == -0.159
       /\ Envelope.release (SynthValue.envelope now) == -0.22).
Proof.
  cbv zeta. split.
  - eexists _, _. split; [vm_compute; reflexivity|].
    repeat split; vm_compute; congruence.
  - eexists _, _, _, _. split; [vm_compute; reflexivity|].
    split; [vm_compute; reflexivity|].
    split; [vm_compute; reflexivity|].
    repeat split; vm_compute; congruence.
Qed.

(** ** The fitness evaluator *)

Lemma of_nat_S_nonzero n : Qeq_bool (of_nat (S n)) 0 = false.
Proof.
  apply not_true_iff_false. intros E. apply Qeq_bool_iff in E.
  unfold of_nat, Qeq in E. cbn in E. lia.
Qed.

Lemma variance_empty : variance [] = NaN.
Proof. reflexivity. Qed.

Lemma variance_sum_finite (mean : Q) (nums : list Q) : forall acc : Q,
  exists q,
    fold_left
      (fun acc x =>
         let d := JsNum.sub (Num x) (Num mean) in
         JsNum.add acc (JsNum.mul d d))
      nums (Num acc) = Num q.
Proof.
  induction nums as [|x nums IH]; intros acc; cbn; [eauto | apply IH].
Qed.

Lemma div_by_length a n :
  JsNum.div (Num a) (Num (of_nat (S n))) = Num (a / of_nat (S n)).
Proof. unfold JsNum.div. now rewrite of_nat_S_nonzero. Qed.

(** On a non-empty array, [variance] is a finite number. *)
Lemma variance_finite nums : nums <> [] -> exists q, variance nums = Num q.
Proof.
  destruct nums as [|x nums]; [easy|]. intros _. unfold variance.
  cbn [length]. cbv zeta. rewrite div_by_length.
  destruct (variance_sum_finite (sum (x :: nums) / of_nat (S (length nums)))
              (x :: nums) 0) as [q E].
  cbv zeta in E. rewrite E, div_by_length. eauto.
Qed.

Lemma assessCoherence_bounds params :
  synths params <> [] -> JsNum.between 0 1 (assessCoherence params).
Proof.
  intros Ne. unfold assessCoherence.
  destruct (variance_finite (map Synth.volume (synths params))) as [q E].
  { destruct (synths params); [easy | discriminate]. }
  rewrite E. cbn. apply clamp_bounds. lra.
Qed.

Lemma assessCoherence_no_voice params :
  synths params = [] -> assessCoherence params = NaN.
Proof. intros E. unfold assessCoherence. now rewrite E. Qed.

Lemma flatDurations_ok slots w :
  no_holes slots -> exists ds, flatDurations slots w = Ok ds w.
Proof.
  induction 1 as [|x l [p ->] _ [ds E]]; [now exists []|].
  cbn [flatDurations]. unfold bind. rewrite E. eauto.
Qed.

Lemma everyGoodEnvelope_ok voices w :
  heap_ok w voices -> exists b, everyGoodEnvelope voices w = Ok b w.
Proof.
  induction 1 as [|s l [_ He] _ [b E]]; [now exists true|].
  cbn [everyGoodEnvelope]. unfold bind, readEnv.
  apply lookup_lt_is_Some_2 in He as [e ->].
  destruct (_ && _); [rewrite E|]; eauto.
Qed.

(** [evaluateFitness] returns for every argument of the type
    [MusicParameters], and leaves the world as it is; four scores are in
    [0,1], and so is [coherence] when there is a synth voice. *)
Lemma evaluateFitness_scores params mood prompt w :
  heap_ok w (synths params) -> no_holes (patterns params) ->
  exists f,
    evaluateFitness params mood prompt w = Ok f w
    /\ JsNum.between 0 1 (emotionalResonance f)
    /\ coherence f = assessCoherence params
    /\ JsNum.between 0 1 (interest f)
    /\ JsNum.between 0 1 (surprise f)
    /\ JsNum.between 0 1 (technicalQuality f).
Proof.
  intros H NH. unfold evaluateFitness, assessInterest, assessTechnicalQuality.
  destruct (flatDurations_ok _ w NH) as [ds E1].
  destruct (everyGoodEnvelope_ok _ w H) as [b E2].
  eexists. unfold bind, ret. rewrite E1, E2. split; [reflexivity|].
  cbn [emotionalResonance coherence interest surprise technicalQuality
       JsNum.between].
  repeat split; try (apply clamp_bounds; lra).
Qed.

(** ** The parameter synthesizer *)

Lemma rng_only_returns {A} (m : M A) (P : A -> Prop) : rng_only m P -> returns m P.
Proof. intros H w. apply (rng_only_wp _ _ _ _ H). auto. Qed.

Lemma returns_ret {A} (a : A) (P : A -> Prop) : P a -> returns (ret a) P.
Proof. intros H w. now apply wp_ret. Qed.

Lemma returns_bind {A B} (m : M A) (k : A -> M B) (P : A -> Prop) (Q : B -> Prop) :
  returns m P -> (forall a, P a -> returns (k a) Q) -> returns (bind m k) Q.
Proof.
  intros Hm Hk w. apply wp_bind. apply (wp_mono _ _ _ _ (Hm w)).
  intros a w' Pa. now apply Hk.
Qed.

Lemma emotionToSynths_returns v : returns (MusicEngine.emotionToSynths v) (fun l => l <> []).
Proof.
  unfold MusicEngine.emotionToSynths. intros w.
  apply wp_bind.
  destruct (newSynth_spec
              {| SynthValue.type := "synth";
                 SynthValue.oscillator :=
                   {| Oscillator.type := if warmth v >? 0.5 then "sine" else "triangle" |};
                 SynthValue.envelope :=
                   {| Envelope.attack := 0.01 + space v * 0.1;
                      Envelope.decay := 0.2;
                      Envelope.sustain := 0.6 + energy v * 0.3;
                      Envelope.release := 0.5 + space v * 1.5 |};
                 SynthValue.volume := -10 |} w) as (s & w1 & E & _).
  apply (wp_intro _ _ _ _ _ E).
  apply wp_bind.
  assert (Tail : forall (lead : list SynthSettings) w2,
            wp (let* texture_voice :=
                  if complexity v >? 0.6 then
                    let* s0 :=
                      newSynth
                        {| SynthValue.type := if chaos v >? 0.7 then "noise" else "membrane";
                           SynthValue.oscillator := {| Oscillator.type := "sine" |};
                           SynthValue.envelope :=
                             {| Envelope.attack := 0.001; Envelope.decay := 0.1;
                                Envelope.sustain := 0; Envelope.release := 0.1 |};
                           SynthValue.volume := -20 |} in
                    ret [s0]
                  else ret [] in
                ret (s :: lead ++ texture_voice)%list) w2
               (fun l _ => l <> [])).
  { intros lead w2. apply wp_bind. destruct (complexity v >? 0.6).
    - apply wp_bind.
      match goal with
      | |- wp (newSynth ?x) _ _ =>
          destruct (newSynth_spec x w2) as (s2 & w3 & E2 & _)
      end.
      apply (wp_intro _ _ _ _ _ E2). apply wp_ret, wp_ret. discriminate.
    - apply wp_ret, wp_ret. discriminate. }
  destruct (complexity v >? 0.3).
  - apply wp_bind.
    match goal with
    | |- wp (newSynth ?x) _ _ =>
        destruct (newSynth_spec x w1) as (s1 & w2 & E1 & _)
    end.
    apply (wp_intro _ _ _ _ _ E1). apply wp_ret, Tail.
  - apply wp_ret, Tail.
Qed.

Lemma selectScale_length emotion : length (MusicEngine.selectScale emotion) = 7%nat.
Proof.
  unfold MusicEngine.selectScale.
  repeat match goal with |- context [if ?b then _ else _] => destruct b end;
    reflexivity.
Qed.

Lemma generateBassLine_rng sc emotion :
  rng_only (MusicEngine.generateBassLine sc emotion)
    (fun ns => length ns = if complexity emotion >? 0.5 then 8%nat else 4%nat).
Proof.
  unfold MusicEngine.generateBassLine.
  eapply rng_only_weaken.
  - apply (rng_only_forPush _ (fun _ => True)). intros i.
    eapply rng_only_bind.
    + apply rng_only_andM. rng_draw. now apply rng_only_ret.
    + intros [] _; [rng_draw|]; now apply rng_only_ret.
  - now intros ns [L _].
Qed.

Lemma melodyLoop_rng sc emotion n : forall cur,
  rng_only (MusicEngine.melodyLoop sc emotion n cur) (fun ns => length ns = n).
Proof.
  induction n as [|n IH]; intros cur; [now apply rng_only_ret|].
  cbn [MusicEngine.melodyLoop].
  apply (rng_only_bind _ _ (fun _ => True)).
  - destruct (chaos emotion >? 0.5); [|destruct (tension emotion >? 0.5)];
      rng_draw; now apply rng_only_ret.
  - intros cur' _. eapply rng_only_bind; [apply IH|]. intros rest L.
    apply rng_only_ret. cbn. now rewrite L.
Qed.

Lemma generateRhythm_rng emotion kind :
  rng_only (MusicEngine.generateRhythm emotion kind)
    (fun ds => length ds = match kind with
                           | MusicEngine.bass => 8%nat
                           | MusicEngine.melody => 16%nat
                           end).
Proof.
  unfold MusicEngine.generateRhythm.
  eapply rng_only_weaken.
  - apply (rng_only_forPush _ (fun _ => True)). intros _.
    eapply rng_only_bind.
    + apply rng_only_andM. rng_draw. now apply rng_only_ret.
    + intros [] _; [now apply rng_only_ret|].
      eapply rng_only_bind.
      * apply rng_only_andM. rng_draw. now apply rng_only_ret.
      * intros [] _; now apply rng_only_ret.
  - now intros ds [L _].
Qed.

Lemma generateVelocities_rng emotion n :
  rng_only (MusicEngine.generateVelocities emotion n)
    (fun vs => length vs = n /\ Forall (fun v => 0.1 <= v /\ v <= 1) vs).
Proof.
  unfold MusicEngine.generateVelocities.
  apply rng_only_forPush. intros _. rng_draw. apply rng_only_ret.
  apply clamp_bounds. lra.
Qed.

Lemma generateTiming_rng emotion n :
  rng_only (MusicEngine.generateTiming emotion n) (fun ts => length ts = n).
Proof.
  unfold MusicEngine.generateTiming.
  eapply rng_only_weaken.
  - apply (rng_only_forPush _ (fun _ => True)). intros i.
    apply (rng_only_bind _ _ (fun _ => True)).
    + destruct (warmth emotion >? 0.5); [rng_draw|]; now apply rng_only_ret.
    + intros h _. now apply rng_only_ret.
  - now intros ts [L _].
Qed.

(** The patterns of [generatePatterns]: a bass layer, then a melody layer
    when [complexity] is above 0.3.  In each layer [velocities] and [timing]
    are as long as [notes]; [durations] has 8 entries in the bass layer and
    16 in the melody layer, whatever the number of notes. *)
Lemma generatePatterns_rng emotion sc :
  rng_only (MusicEngine.generatePatterns emotion sc)
    (fun ps =>
       let bassLength := if complexity emotion >? 0.5 then 8%nat else 4%nat in
       let melodyLength := Z.to_nat (Qceiling (4 + complexity emotion * 12)) in
       if complexity emotion >? 0.3
       then exists b m, ps = [b; m] /\ pattern_shape bassLength 8 b
                        /\ pattern_shape melodyLength 16 m
       else exists b, ps = [b] /\ pattern_shape bassLength 8 b).
Proof.
  unfold MusicEngine.generatePatterns. cbv zeta.
  eapply rng_only_bind; [apply generateBassLine_rng|]. intros bn Lbn.
  eapply rng_only_bind; [apply (generateRhythm_rng _ MusicEngine.bass)|].
  intros bd Lbd.
  eapply rng_only_bind; [apply generateVelocities_rng|]. intros bv [Lbv _].
  eapply rng_only_bind; [apply generateTiming_rng|]. intros bt Lbt.
  destruct (complexity emotion >? 0.3).
  - eapply rng_only_bind; [apply melodyLoop_rng|]. intros mn Lmn.
    eapply rng_only_bind; [apply (generateRhythm_rng _ MusicEngine.melody)|].
    intros md Lmd.
    eapply rng_only_bind; [apply generateVelocities_rng|]. intros mv [Lmv _].
    eapply rng_only_bind; [apply generateTiming_rng|]. intros mt Lmt.
    apply rng_only_ret. do 2 eexists. split; [reflexivity|].
    unfold pattern_shape. cbn. repeat split; congruence.
  - apply rng_only_ret. eexists. split; [reflexivity|].
    unfold pattern_shape. cbn. repeat split; congruence.
Qed.

(** What [emotionToParams] establishes for every emotional vector: it
    returns, with the tempo [60 + energy * 120], a scale of seven notes, at
    least one synth voice, and the patterns of [generatePatterns]. *)
Lemma emotionToParams_returns emotion prompt :
  returns (MusicEngine.emotionToParams emotion prompt)
    (fun p =>
       tempo p = 60 + energy emotion * 120
       /\ length (scale p) = 7%nat
       /\ synths p <> []
       /\ let bassLength := if complexity emotion >? 0.5 then 8%nat else 4%nat in
          let melodyLength := Z.to_nat (Qceiling (4 + complexity emotion * 12)) in
          if complexity emotion >? 0.3
          then exists b m, patterns p = [Some b; Some m]
                           /\ pattern_shape bassLength 8 b
                           /\ pattern_shape melodyLength 16 m
          else exists b, patterns p = [Some b] /\ pattern_shape bassLength 8 b).
Proof.
  unfold MusicEngine.emotionToParams. cbv zeta.
  apply (returns_bind _ _ (fun _ => True)).
  { destruct (chaos emotion >? 0.6); [|now apply returns_ret].
    apply rng_only_returns. unfold MusicEngine.getComplexTimeSignature.
    rng_draw. now apply rng_only_ret. }
  intros ts _.
  eapply returns_bind; [apply emotionToSynths_returns|]. intros voices Hv.
  eapply returns_bind; [apply rng_only_returns, generatePatterns_rng|].
  cbv zeta. intros ps Hps. apply returns_ret. cbn.
  split; [reflexivity|]. split; [apply selectScale_length|].
  split; [exact Hv|].
  destruct (complexity emotion >? 0.3).
  - destruct Hps as (b & m & -> & Hb & Hm). now exists b, m.
  - destruct Hps as (b & -> & Hb). now exists b.
Qed.

Lemma melody_length_le_16 c :
  c <= 1 -> (Z.to_nat (Qceiling (4 + c * 12)) <= 16)%nat.
Proof.
  intros H.
  assert (L : (Qceiling (4 + c * 12) <= Qceiling (inject_Z 16))%Z).
  { apply Qceiling_resp_le. change (inject_Z 16) with 16. lra. }
  rewrite Qceiling_Z in L. lia.
Qed.

(** For an emotional vector with all fields in [0,1], [emotionToParams]
    returns parameters with a tempo in [60,180], a non-empty scale, at least
    one synth voice, and patterns in which [notes], [velocities] and
    [timing] are equally long and [durations] is at least as long. *)
Lemma emotionToParams_valid emotion prompt w :
  0 <= energy emotion <= 1 -> complexity emotion <= 1 ->
  exists p w',
    MusicEngine.emotionToParams emotion prompt w = Ok p w'
    /\ 60 <= tempo p <= 180
    /\ scale p <> []
    /\ synths p <> []
    /\ Forall (fun slot => exists pat,
                  slot = Some pat
                  /\ length (velocities pat) = length (notes pat)
                  /\ length (timing pat) = length (notes pat)
                  /\ (length (notes pat) <= length (durations pat))%nat)
              (patterns p).
Proof.
  intros He Hc.
  destruct (wp_elim _ _ _ (emotionToParams_returns emotion prompt w))
    as (p & w' & E & T & Sc & Sy & Ps).
  exists p, w'. split; [exact E|]. split; [rewrite T; lra|].
  split; [now destruct (scale p)|]. split; [exact Sy|].
  cbv zeta in Ps.
  assert (B : forall c : bool, ((if c then 8 else 4) <= 8)%nat).
  { intros []; lia. }
  specialize (B (complexity emotion >? 0.5)).
  pose proof (melody_length_le_16 _ Hc) as Me.
  destruct (complexity emotion >? 0.3).
  - destruct Ps as (b & m & -> & (Nb & Vb & Tb & Db) & (Nm & Vm & Tm & Dm)).
    constructor; [|constructor; [|constructor]].
    + exists b. rewrite Nb, Vb, Tb, Db. auto.
    + exists m. rewrite Nm, Vm, Tm, Dm. auto.
  - destruct Ps as (b & -> & (Nb & Vb & Tb & Db)).
    constructor; [|constructor].
    exists b. rewrite Nb, Vb, Tb, Db. auto.
Qed.

(** C1. For the emotional vector with every field at 0.5, whatever the random
    draws, [emotionToParams] returns parameters with tempo in [60,180], a
    non-empty scale and a synth voice, but the four arrays of its patterns
    are not equally long: the bass pattern has 4 notes and 8 durations, the
    melody pattern 10 notes and 16 durations. *)
Theorem pattern_arrays_differ_in_length (w : World) :
  exists p w' b m,
    MusicEngine.emotionToParams (Sample.flat 0.5) "calm piano" w = Ok p w'
    /\ 60 <= tempo p <= 180
    /\ scale p <> []
    /\ synths p <> []
    /\ patterns p = [Some b; Some m]
    /\ length (notes b) = 4%nat /\ length (durations b) = 8%nat
    /\ length (notes m) = 10%nat /\ length (durations m) = 16%nat.
Proof.
  destruct (wp_elim _ _ _
              (emotionToParams_returns (Sample.flat 0.5) "calm piano" w))
    as (p & w' & E & T & Sc & Sy & b & m & Ps & Hb & Hm).
  exists p, w', b, m. split; [exact E|].
  split; [rewrite T; cbn; lra|].
  split; [now destruct (scale p)|]. split; [exact Sy|]. split; [exact Ps|].
  destruct Hb as (Nb & _ & _ & Db). destruct Hm as (Nm & _ & _ & Dm).
  repeat split; assumption.
Qed.

(** Without a synth voice, the coherence score is [NaN], whatever the other
    parameters. *)
Lemma evaluateFitness_no_voice params mood prompt w :
  synths params = [] -> no_holes (patterns params) ->
  exists f, evaluateFitness params mood prompt w = Ok f w /\ coherence f = NaN.
Proof.
  intros E NH.
  destruct (evaluateFitness_scores params mood prompt w) as (f & Ev & _ & C & _).
  - rewrite E. constructor.
  - exact NH.
  - exists f. split; [exact Ev|]. rewrite C. now apply assessCoherence_no_voice.
Qed.

(** With at least one synth voice, the five scores are in [0,1]. *)
Lemma evaluateFitness_unit_interval params mood prompt w :
  heap_ok w (synths params) -> no_holes (patterns params) ->
  synths params <> [] ->
  exists f,
    evaluateFitness params mood prompt w = Ok f w
    /\ JsNum.between 0 1 (emotionalResonance f)
    /\ JsNum.between 0 1 (coherence f)
    /\ JsNum.between 0 1 (interest f)
    /\ JsNum.between 0 1 (surprise f)
    /\ JsNum.between 0 1 (technicalQuality f).
Proof.
  intros H NH Ne.
  destruct (evaluateFitness_scores params mood prompt w H NH)
    as (f & E & B1 & C & B3 & B4 & B5).
  exists f. repeat split; try assumption; try apply B1; try apply B3;
    try apply B4; try apply B5.
  rewrite C. now apply assessCoherence_bounds.
Qed.

(** C6. For parameters without a synth voice [evaluateFitness] returns the
    score [NaN] for coherence, which is not in [0,1]; the four other scores
    are. *)
Theorem coherence_without_voice_is_NaN :
  exists f w',
    evaluateFitness Sample.noVoice (Sample.flat 0.5) "calm piano"
      (Sample.heapWorld []) = Ok f w'
    /\ coherence f = NaN
    /\ ~ JsNum.between 0 1 (coherence f)
    /\ JsNum.between 0 1 (emotionalResonance f)
    /\ JsNum.between 0 1 (interest f)
    /\ JsNum.between 0 1 (surprise f)
    /\ JsNum.between 0 1 (technicalQuality f).
Proof.
  eexists _, _. split; [vm_compute; reflexivity|].
  split; [reflexivity|]. split; [intros []|].
  repeat split; vm_compute; congruence.
Qed.

(** ** The mutation strategy selector *)


(** A feedback text that [parseFeedback] recognises decides the type and the
    intensity of the strategy, whatever the fitness and the temperature. *)
Lemma chooseMutationStrategy_feedback parent temperature fb t i :
  parseFeedback fb = Some (t, i) ->
  Strategy.type (chooseMutationStrategy parent temperature (Some fb)) = t
  /\ Strategy.intensity (chooseMutationStrategy parent temperature (Some fb)) = i.
Proof.
  intros H. unfold chooseMutationStrategy.
  destruct fb as [|c fb]; [discriminate H|].
  cbn [truthy]. rewrite H. now split.
Qed.

(** C7. The feedback text "make it darker and heavier" selects a strategy of
    type [harmonic], for every parent generation (hence every fitness) and
    every creative temperature: the feedback rule comes before the radical
    rule of a temperature above 0.8 and before the weakest-dimension rule. *)
Theorem darker_feedback_selects_harmonic (parent : Generation.t) (temperature : Q) :
  Strategy.type
    (chooseMutationStrategy parent temperature (Some "make it darker and heavier"))
  = harmonic.
Proof.
  now apply (chooseMutationStrategy_feedback parent temperature _ harmonic 0.6).
Qed.

Lemma parseFeedback_classes fb :
  parseFeedback fb =
    if Phrase.energy fb then Some (rhythmic, 0.7)
    else if Phrase.darkening fb then Some (harmonic, 0.6)
    else if Phrase.simplification fb then Some (structural, 0.5)
    else if Phrase.experimental fb then Some (radical, 0.9)
    else None.
Proof. reflexivity. Qed.

(** C10. A feedback text that matches several phrase classes is resolved by
    a fixed priority: energy-increase, then darkening, then simplification,
    then experimental.  In particular a text in which both "faster" and
    "darker" occur selects [rhythmic] with intensity 0.7, not [harmonic]. *)
Theorem feedback_priority_order (parent : Generation.t) (temperature : Q) (fb : string) :
  let s := chooseMutationStrategy parent temperature (Some fb) in
  (Phrase.energy fb = true ->
     Strategy.type s = rhythmic /\ Strategy.intensity s = 0.7)
  /\ (Phrase.energy fb = false -> Phrase.darkening fb = true ->
     Strategy.type s = harmonic /\ Strategy.intensity s = 0.6)
  /\ (Phrase.energy fb = false -> Phrase.darkening fb = false ->
      Phrase.simplification fb = true ->
     Strategy.type s = structural /\ Strategy.intensity s = 0.5)
  /\ (Phrase.energy fb = false -> Phrase.darkening fb = false ->
      Phrase.simplification fb = false -> Phrase.experimental fb = true ->
     Strategy.type s = radical /\ Strategy.intensity s = 0.9)
  /\ (includes fb "faster" = true -> includes fb "darker" = true ->
     Strategy.type s = rhythmic /\ Strategy.intensity s = 0.7
     /\ Strategy.type s <> harmonic).
Proof.
  cbv zeta.
  pose proof (parseFeedback_classes fb) as P.
  repeat apply conj.
  - intros E. rewrite E in P.
    now apply (chooseMutationStrategy_feedback parent temperature fb _ _ P).
  - intros E D. rewrite E, D in P.
    now apply (chooseMutationStrategy_feedback parent temperature fb _ _ P).
  - intros E D S. rewrite E, D, S in P.
    now apply (chooseMutationStrategy_feedback parent temperature fb _ _ P).
  - intros E D S X. rewrite E, D, S, X in P.
    now apply (chooseMutationStrategy_feedback parent temperature fb _ _ P).
  - intros F _. apply includes_toLowerCase in F.
    assert (E : Phrase.energy fb = true).
    { unfold Phrase.energy, Phrase.mentions. apply orb_true_iff. now right. }
    rewrite E in P.
    destruct (chooseMutationStrategy_feedback parent temperature fb _ _ P) as [T I].
    rewrite T, I. repeat split. discriminate.
Qed.

Lemma feedback_priority_order_witness :
  includes "Faster please, and darker" "darker" = true
  /\ Phrase.energy "Faster please, and darker" = true
  /\ Phrase.darkening "Faster please, and darker" = true
  /\ Strategy.type
       (chooseMutationStrategy (Sample.generation "gen_a" 0) 0.5
          (Some "Faster please, and darker")) = rhythmic
  /\ Strategy.intensity
       (chooseMutationStrategy (Sample.generation "gen_a" 0) 0.5
          (Some "Faster please, and darker")) = 0.7.
Proof.
  split; [reflexivity|]. split; [reflexivity|]. split; [reflexivity|].
  apply (proj1 (feedback_priority_order (Sample.generation "gen_a" 0) 0.5
                  "Faster please, and darker")).
  reflexivity.
Defined.

(** ** The generation lifecycle *)

Lemma parseFeedback_range fb t i :
  parseFeedback fb = Some (t, i) ->
  (t, i) = (rhythmic, 0.7) \/ (t, i) = (harmonic, 0.6)
  \/ (t, i) = (structural, 0.5) \/ (t, i) = (radical, 0.9).
Proof.
  rewrite parseFeedback_classes.
  destruct (Phrase.energy fb); [intros [= <- <-]; tauto|].
  destruct (Phrase.darkening fb); [intros [= <- <-]; tauto|].
  destruct (Phrase.simplification fb); [intros [= <- <-]; tauto|].
  destruct (Phrase.experimental fb); [intros [= <- <-]; tauto | discriminate].
Qed.

(** The selector never asks for a structural mutation of an intensity above
    0.7: the layer-adding branch of [applyMutation] is out of its reach. *)
Lemma structural_strategy_is_mild parent temperature feedback :
  Strategy.type (chooseMutationStrategy parent temperature feedback) = structural ->
  (Strategy.intensity (chooseMutationStrategy parent temperature feedback) >? 0.7)
  = false.
Proof.
  unfold chooseMutationStrategy.
  set (hints := match feedback with
                | Some text => if truthy text then parseFeedback text else None
                | None => None
                end).
  destruct hints as [[t i]|] eqn:Hh.
  - assert (R : exists fb, parseFeedback fb = Some (t, i)).
    { subst hints. destruct feedback as [text|]; [|discriminate].
      destruct (truthy text); [eauto | discriminate]. }
    destruct R as [fb R]. cbn.
    destruct (parseFeedback_range _ _ _ R) as [E|[E|[E|E]]];
      injection E as -> ->; try discriminate; reflexivity.
  - destruct (temperature >? 0.8) eqn:T; cbn; [discriminate|].
    intros _. apply Qgtb_le in T. apply Qgtb_le. lra.
Qed.

Lemma no_holes_forallb slots :
  no_holes slots ->
  forallb (fun slot : option PatternDefinition => bool_decide (is_Some slot)) slots
  = true.
Proof.
  intros H. apply forallb_forall. intros x Hx. apply bool_decide_eq_true.
  unfold no_holes in H. rewrite Forall_forall in H.
  apply H. now apply list_elem_of_In.
Qed.

Lemma generateCode_ok renderCode params w :
  heap_ok w (synths params) -> no_holes (patterns params) ->
  exists code, generateCode renderCode params w = Ok code w.
Proof.
  intros H NH. unfold generateCode, bind.
  destruct (mapM_readSynth _ _ H) as (vs & -> & _).
  rewrite (no_holes_forallb _ NH). eauto.
Qed.

Lemma generateId_ok renderId w : exists name w', generateId renderId w = Ok name w'.
Proof.
  unfold generateId, bind, now. destruct (tick w) as [t w1].
  destruct (wp_elim _ _ _ (rng_only_random w1)) as (r & w2 & -> & _). eauto.
Qed.

Lemma now_ok w : exists t w', now w = Ok t w'.
Proof. unfold now. destruct (tick w). eauto. Qed.

(** C5. Lineage law: [evolve] returns a generation whose number is the
    parent's plus one, whose [parentId] is the parent's id, whose mutation
    history is the parent's followed by the type of the chosen strategy, and
    whose locked elements and branch are the parent's. *)
Theorem evolve_lineage
    (renderCode : MusicParameters -> list SynthValue.t -> string)
    (renderId : Q -> Q -> string)
    (parent : Generation.t) (temperature : Q) (feedback : option string)
    (w : World) :
  heap_ok w (synths (Generation.musicParams parent)) ->
  no_holes (patterns (Generation.musicParams parent)) ->
  exists g w',
    evolve renderCode renderId parent temperature feedback w = Ok g w'
    /\ Generation.generationNumber g = Generation.generationNumber parent + 1
    /\ Generation.parentId g = Some (Generation.id parent)
    /\ Generation.mutations g =
         (Generation.mutations parent
          ++ [type_name
                (Strategy.type
                   (chooseMutationStrategy parent temperature feedback))])%list
    /\ Generation.lockedElements g = Generation.lockedElements parent
    /\ Generation.branch g = Generation.branch parent.
Proof.
  intros H NH. unfold evolve.
  set (strat := chooseMutationStrategy parent temperature feedback).
  destruct (wp_elim _ _ _
              (applyMutation_mutated _ strat (Generation.lockedElements parent)
                 w H NH))
    as (out & w1 & E1 & Mu).
  pose proof (mutated_heap_ok _ _ _ _ _ _ Mu) as H1.
  assert (NH1 : no_holes (patterns out)).
  { apply (mutated_no_holes _ _ _ _ _ _ Mu NH). intros T _.
    now apply structural_strategy_is_mild. }
  destruct (generateCode_ok renderCode out w1 H1 NH1) as [code E2].
  destruct (evaluateFitness_scores out (Generation.mood parent)
              (Generation.prompt parent) w1 H1 NH1) as (f & E3 & _).
  destruct (generateId_ok renderId w1) as (name & w2 & E4).
  destruct (now_ok w2) as (t & w3 & E5).
  eexists _, w3. unfold bind. rewrite E1, E2, E3, E4, E5.
  split; [reflexivity|]. repeat split.
Qed.

Lemma evolve_lineage_witness :
  let parent := Sample.generation "gen_a" 4 in
  let w := Sample.heapWorld [0.9; 0.1; 0.9; 0.1] in
  heap_ok w (synths (Generation.musicParams parent))
  /\ no_holes (patterns (Generation.musicParams parent))
  /\ exists g w',
       evolve Sample.renderCode Sample.renderId parent 0.5 (Some "simpler") w
       = Ok g w'
       /\ Generation.generationNumber g = 4 + 1
       /\ Generation.parentId g = Some "gen_a"
       /\ Generation.mutations g = ["timbral"; "structural"]
       /\ Generation.lockedElements g = ["key"]
       /\ Generation.branch g = "main".
Proof.
  assert (H : heap_ok (Sample.heapWorld [0.9; 0.1; 0.9; 0.1])
                (synths (Generation.musicParams (Sample.generation "gen_a" 4)))).
  { repeat constructor. }
  assert (NH : no_holes
                 (patterns (Generation.musicParams (Sample.generation "gen_a" 4)))).
  { repeat constructor; now exists Sample.layer. }
  split; [exact H|]. split; [exact NH|].
  exact (evolve_lineage Sample.renderCode Sample.renderId
           (Sample.generation "gen_a" 4) 0.5 (Some "simpler") _ H NH).
Defined.

(** ** The session store *)


Lemma find_absent {A} (f : A -> bool) (l : list A) :
  (forall x, In x l -> f x = false) -> find f l = None.
Proof.
  induction l as [|x l IH]; intros H; [reflexivity|].
  simpl. rewrite (H x (or_introl eq_refl)).
  apply IH. intros y Hy. apply H. now right.
Qed.

(** C9. When the [currentGeneration] id of the session matches no generation
    of its list, [evolveCurrentGeneration] throws at once: the stores (the
    session with its generations list and its pointer, and the
    [isGenerating] flag) and the world are as before the call, and no
    generation is returned. *)
Theorem evolve_without_current_generation
    (renderCode : MusicParameters -> list SynthValue.t -> string)
    (renderId : Q -> Q -> string)
    (feedback : option string) (st : Stores) (w : World) :
  (forall g, In g (Session.generations (session st)) ->
             Generation.id g <> Session.currentGeneration (session st)) ->
  evolveCurrentGeneration renderCode renderId feedback st w
  = (st, Throw (Error "No current generation to evolve") w).
Proof.
  intros H. unfold evolveCurrentGeneration.
  rewrite find_absent; [reflexivity|].
  intros g Hg. apply String.eqb_neq. now apply H.
Qed.

Lemma evolve_without_current_generation_witness :
  let st := {| session := Sample.sessionAt "gen_b" [Sample.generation "gen_a" 0];
               isGenerating := false |} in
  (forall g, In g (Session.generations (session st)) ->
             Generation.id g <> Session.currentGeneration (session st))
  /\ evolveCurrentGeneration Sample.renderCode Sample.renderId
       (Some "faster") st (Sample.heapWorld [])
     = (st, Throw (Error "No current generation to evolve") (Sample.heapWorld [])).
Proof.
  assert (H : forall g,
             In g [Sample.generation "gen_a" 0] -> Generation.id g <> "gen_b").
  { intros g [<-|[]]. discriminate. }
  split; [exact H|].
  apply evolve_without_current_generation. exact H.
Defined.


(** * Further properties of the engine and of the session store *)

(** ** More on the monad *)

Lemma wp_conj {A} (m : M A) w (P Q : A -> World -> Prop) :
  wp m w P -> wp m w Q -> wp m w (fun a w' => P a w' /\ Q a w').
Proof. unfold wp. destruct (m w); [now split | easy]. Qed.

Lemma rng_only_conj {A} (m : M A) (P Q : A -> Prop) :
  rng_only m P -> rng_only m Q -> rng_only m (fun a => P a /\ Q a).
Proof.
  intros HP HQ w. apply (wp_mono _ _ _ _ (wp_conj _ _ _ _ (HP w) (HQ w))).
  intros a w' [[A1 Pa] [_ Qa]]. split; [exact A1 | now split].
Qed.

Lemma after_extends_synthValues w w1 w2 voices :
  extends w w1 -> after w1 w2 -> heap_ok w voices ->
  synthValues w2 voices = synthValues w voices.
Proof.
  intros X A H. rewrite (after_synthValues _ _ _ A).
  now apply extends_synthValues.
Qed.

(** ** More on the parameter synthesizer *)

Lemma optional_voice_spec (c : bool) (v : SynthValue.t) w :
  exists l w',
    (if c then (let* s := newSynth v in ret [s]) else ret []) w = Ok l w'
    /\ extends w w' /\ heap_ok w' l
    /\ synthValues w' l = map Some (if c then [v] else []).
Proof.
  destruct c.
  - destruct (newSynth_spec v w) as (s & w' & E & X & V & H).
    exists [s], w'. unfold bind. rewrite E. repeat split; try apply X; try exact H.
    unfold synthValues. cbn. now rewrite V.
  - exists [], w. repeat split; try apply extends_refl. constructor.
Qed.

(** [emotionToSynths] allocates the voices [voiceValues emotion]. *)
Lemma emotionToSynths_wp emotion w (post : list SynthSettings -> World -> Prop) :
  (forall voices w',
     extends w w' -> heap_ok w' voices ->
     synthValues w' voices = map Some (voiceValues emotion) ->
     post voices w') ->
  wp (MusicEngine.emotionToSynths emotion) w post.
Proof.
  intros K. unfold MusicEngine.emotionToSynths, voiceValues.
  apply wp_bind.
  match goal with
  | |- wp (newSynth ?x) _ _ =>
      destruct (newSynth_spec x w) as (s0 & w0 & E0 & X0 & V0 & H0)
  end.
  apply (wp_intro _ _ _ _ _ E0). apply wp_bind.
  match goal with
  | |- wp (if ?c then (let* s := newSynth ?v in ret [s]) else ret []) _ _ =>
      destruct (optional_voice_spec c v w0) as (l1 & w1 & E1 & X1 & H1 & V1)
  end.
  apply (wp_intro _ _ _ _ _ E1). apply wp_bind.
  match goal with
  | |- wp (if ?c then (let* s := newSynth ?v in ret [s]) else ret []) _ _ =>
      destruct (optional_voice_spec c v w1) as (l2 & w2 & E2 & X2 & H2 & V2)
  end.
  apply (wp_intro _ _ _ _ _ E2). apply wp_ret.
  pose proof (extends_trans _ _ _ X1 X2) as X12.
  apply K.
  - now apply (extends_trans _ w0).
  - change (s0 :: l1 ++ l2)%list with ([s0] ++ l1 ++ l2)%list.
    unfold heap_ok. rewrite !Forall_app. repeat split.
    + now apply (extends_heap_ok w0).
    + now apply (extends_heap_ok w1).
    + exact H2.
  - change (s0 :: l1 ++ l2)%list with ([s0] ++ l1 ++ l2)%list.
    unfold synthValues in *. rewrite !map_app.
    fold (synthValues w2 [s0]). fold (synthValues w2 l1).
    rewrite (extends_synthValues w0 w2 [s0] X12 H0).
    rewrite (extends_synthValues w1 w2 l1 X2 H1).
    unfold synthValues. rewrite V1, V2. cbn [map]. rewrite V0.
    unfold voiceValues. cbn [map app]. now rewrite map_app.
Qed.

Lemma generateRhythm_values emotion kind :
  rng_only (MusicEngine.generateRhythm emotion kind)
    (Forall (fun d => In d ["8n"; "2n"; "4n"])).
Proof.
  unfold MusicEngine.generateRhythm.
  eapply rng_only_weaken.
  - apply (rng_only_forPush _ (fun d => In d ["8n"; "2n"; "4n"])). intros _.
    eapply rng_only_bind.
    + apply rng_only_andM. rng_draw. now apply rng_only_ret.
    + intros [] _; [apply rng_only_ret; cbn; tauto|].
      eapply rng_only_bind.
      * apply rng_only_andM. rng_draw. now apply rng_only_ret.
      * intros [] _; apply rng_only_ret; destruct kind; cbn; tauto.
  - now intros ds [_ F].
Qed.

Lemma generatePatterns_values emotion sc :
  rng_only (MusicEngine.generatePatterns emotion sc) (Forall pattern_values).
Proof.
  unfold MusicEngine.generatePatterns.
  eapply rng_only_bind; [apply generateBassLine_rng|]. intros bn _.
  eapply rng_only_bind; [apply (generateRhythm_values _ MusicEngine.bass)|].
  intros bd Vbd.
  eapply rng_only_bind; [apply generateVelocities_rng|]. intros bv [_ Vbv].
  eapply rng_only_bind; [apply generateTiming_rng|]. intros bt _.
  destruct (complexity emotion >? 0.3).
  - eapply rng_only_bind; [apply melodyLoop_rng|]. intros mn _.
    eapply rng_only_bind; [apply (generateRhythm_values _ MusicEngine.melody)|].
    intros md Vmd.
    eapply rng_only_bind; [apply generateVelocities_rng|]. intros mv [_ Vmv].
    eapply rng_only_bind; [apply generateTiming_rng|]. intros mt _.
    apply rng_only_ret. constructor; [now split|]. constructor; [now split|].
    constructor.
  - apply rng_only_ret. constructor; [now split | constructor].
Qed.

Lemma emotionToParams_synthesized emotion prompt w :
  wp (MusicEngine.emotionToParams emotion prompt) w (synthesized emotion w).
Proof.
  unfold MusicEngine.emotionToParams. cbv zeta.
  assert (Rest : forall ts w1,
            after w w1 ->
            ((chaos emotion >? 0.6) = false -> ts = (4, 4)) ->
            ((chaos emotion >? 0.6) = true -> valid_rng w ->
             In ts complexSignatures) ->
            wp (let* synths := MusicEngine.emotionToSynths emotion in
                let* patterns :=
                  MusicEngine.generatePatterns emotion
                    (MusicEngine.selectScale emotion) in
                ret {| tempo := 60 + energy emotion * 120;
                       key := MusicEngine.selectKey emotion;
                       scale := MusicEngine.selectScale emotion;
                       timeSignature := ts;
                       effects := MusicEngine.emotionToEffects emotion;
                       synths := synths;
                       patterns := map Some patterns |}) w1
               (synthesized emotion w)).
  { intros ts w1 A1 Reg Irr.
    apply wp_bind, emotionToSynths_wp. intros voices w2 X2 H2 V2.
    apply wp_bind.
    apply (rng_only_wp _ _ _ _
             (rng_only_conj _ _ _
                (generatePatterns_rng emotion (MusicEngine.selectScale emotion))
                (generatePatterns_values emotion (MusicEngine.selectScale emotion)))).
    intros ps w3 A3 [Sh Va]. apply wp_ret.
    constructor;
      cbn [tempo key scale effects timeSignature synths patterns]; auto.
    - now apply (after_heap_ok w2).
    - rewrite (after_synthValues _ _ _ A3). exact V2.
    - now exists ps.
    - intros V. apply (after_valid_rng w2); [exact A3|].
      apply (extends_valid_rng w1); [exact X2|].
      now apply (after_valid_rng w). }
  apply wp_bind. destruct (chaos emotion >? 0.6) eqn:C.
  - unfold MusicEngine.getComplexTimeSignature.
    apply wp_bind, wp_random_valid. intros r w1 A1 R. apply wp_ret.
    apply Rest; [exact A1 | discriminate |]. intros _ V.
    apply (pick_in_range (4, 4) [(5, 4); (7, 8); (6, 8); (9, 8)] r);
      [discriminate | now apply R].
  - apply wp_ret, Rest; [apply after_refl | reflexivity | discriminate].
Qed.

Lemma voiceValues_length emotion :
  (1 <= length (voiceValues emotion) <= 3)%nat
  /\ ((if complexity emotion >? 0.3 then 2 else 1) <= length (voiceValues emotion))%nat.
Proof.
  unfold voiceValues. cbn [length]. rewrite length_app.
  destruct (complexity emotion >? 0.3), (complexity emotion >? 0.6); cbn; lia.
Qed.

Lemma synthValues_length w voices : length (synthValues w voices) = length voices.
Proof. apply length_map. Qed.

(** X1. Whatever the emotional vector and the random draws, [emotionToParams]
    returns one to three synth voices and one or two pattern layers, never
    more layers than voices, and no layer slot is undefined: every layer has
    a voice of its own to play it. *)
Theorem every_layer_has_a_voice (emotion : EmotionalVector) (prompt : string)
    (w : World) :
  exists p w',
    MusicEngine.emotionToParams emotion prompt w = Ok p w'
    /\ (1 <= length (synths p) <= 3)%nat
    /\ (1 <= length (patterns p) <= 2)%nat
    /\ (length (patterns p) <= length (synths p))%nat
    /\ no_holes (patterns p).
Proof.
  destruct (wp_elim _ _ _ (emotionToParams_synthesized emotion prompt w))
    as (p & w' & E & Sy).
  exists p, w'. split; [exact E|].
  pose proof (synthesized_voices _ _ _ _ Sy) as V.
  apply (f_equal (@length _)) in V.
  rewrite synthValues_length, length_map in V.
  destruct (voiceValues_length emotion) as [[L1 L3] L2].
  destruct (synthesized_patterns _ _ _ _ Sy) as (ps & Ps & Sh & _).
  unfold layers_shape in Sh. cbv zeta in Sh. rewrite Ps, length_map, V.
  assert (NH : no_holes (map Some ps)).
  { unfold no_holes. apply Forall_forall. intros x Hx.
    apply list_elem_of_In, in_map_iff in Hx as (y & <- & _). now exists y. }
  destruct (complexity emotion >? 0.3).
  - destruct Sh as (b & m & -> & _). cbn [length] in *. repeat split; try lia.
    exact NH.
  - destruct Sh as (b & -> & _). cbn [length] in *. repeat split; try lia.
    exact NH.
Qed.

(** X2. For an emotional vector whose [complexity] is at most 1, every pattern
    layer that [emotionToParams] returns can be played note by note: its
    velocities and timing offsets are as many as its notes, its durations at
    least as many, every velocity is in [0.1,1] and every duration is one of
    the tokens 8n, 2n and 4n. *)
Theorem synthesized_layers_are_playable (emotion : EmotionalVector)
    (prompt : string) (w : World) :
  complexity emotion <= 1 ->
  exists p w',
    MusicEngine.emotionToParams emotion prompt w = Ok p w'
    /\ Forall (fun slot => exists layer,
                  slot = Some layer
                  /\ length (velocities layer) = length (notes layer)
                  /\ length (timing layer) = length (notes layer)
                  /\ (length (notes layer) <= length (durations layer))%nat
                  /\ Forall (fun v => 0.1 <= v /\ v <= 1) (velocities layer)
                  /\ Forall (fun d => In d ["8n"; "2n"; "4n"]) (durations layer))
              (patterns p).
Proof.
  intros Hc.
  destruct (wp_elim _ _ _ (emotionToParams_synthesized emotion prompt w))
    as (p & w' & E & Sy).
  exists p, w'. split; [exact E|].
  destruct (synthesized_patterns _ _ _ _ Sy) as (ps & -> & Sh & Va).
  unfold layers_shape in Sh. cbv zeta in Sh.
  assert (B : forall c : bool, ((if c then 8 else 4) <= 8)%nat).
  { intros []; lia. }
  specialize (B (complexity emotion >? 0.5)).
  pose proof (melody_length_le_16 _ Hc) as Me.
  destruct (complexity emotion >? 0.3).
  - destruct Sh as (b & m & -> & (Nb & Vb & Tb & Db) & (Nm & Vm & Tm & Dm)).
    apply Forall_cons in Va as [[Vvb Vdb] Va].
    apply Forall_cons in Va as [[Vvm Vdm] _].
    cbn [map]. constructor; [|constructor; [|constructor]].
    + exists b. rewrite Nb, Vb, Tb, Db. auto 10.
    + exists m. rewrite Nm, Vm, Tm, Dm. auto 10.
  - destruct Sh as (b & -> & (Nb & Vb & Tb & Db)).
    apply Forall_cons in Va as [[Vvb Vdb] _].
    cbn [map]. constructor; [|constructor].
    exists b. rewrite Nb, Vb, Tb, Db. auto 10.
Qed.

Lemma synthesized_layers_are_playable_witness :
  complexity validEmotionSample <= 1
  /\ exists p w',
       MusicEngine.emotionToParams validEmotionSample "storm"
         (Sample.heapWorld [0.3; 0.8; 0.6]) = Ok p w'
       /\ Forall (fun slot => exists layer,
                     slot = Some layer
                     /\ length (velocities layer) = length (notes layer)
                     /\ length (timing layer) = length (notes layer)
                     /\ (length (notes layer) <= length (durations layer))%nat
                     /\ Forall (fun v => 0.1 <= v /\ v <= 1) (velocities layer)
                     /\ Forall (fun d => In d ["8n"; "2n"; "4n"]) (durations layer))
                 (patterns p).
Proof.
  assert (H : complexity validEmotionSample <= 1) by (cbn; lra).
  split; [exact H|].
  exact (synthesized_layers_are_playable validEmotionSample "storm" _ H).
Defined.

(** X3. The time signature of [emotionToParams] is 4/4 whenever [chaos] is at
    most 0.6, and, with random draws in [0,1), one of 5/4, 7/8, 6/8 and 9/8,
    hence never 4/4, whenever [chaos] is above 0.6. *)
Theorem time_signature_follows_chaos (emotion : EmotionalVector)
    (prompt : string) (w : World) :
  valid_rng w ->
  exists p w',
    MusicEngine.emotionToParams emotion prompt w = Ok p w'
    /\ (chaos emotion <= 0.6 -> timeSignature p = (4, 4))
    /\ (0.6 < chaos emotion ->
        In (timeSignature p) [(5, 4); (7, 8); (6, 8); (9, 8)]
        /\ ~ fst (timeSignature p) == 4).
Proof.
  intros V.
  destruct (wp_elim _ _ _ (emotionToParams_synthesized emotion prompt w))
    as (p & w' & E & Sy).
  exists p, w'. split; [exact E|]. split.
  - intros C. apply (synthesized_regular _ _ _ _ Sy). now apply Qgtb_le.
  - intros C. apply Qgtb_lt in C.
    pose proof (synthesized_irregular _ _ _ _ Sy C V) as I.
    split; [exact I|].
    destruct I as [<-|[<-|[<-|[<-|[]]]]]; cbn; intros Q; discriminate Q.
Qed.

Lemma time_signature_follows_chaos_witness :
  valid_rng (Sample.heapWorld [0.3; 0.8; 0.6])
  /\ 0.6 < chaos validEmotionSample
  /\ exists p w',
       MusicEngine.emotionToParams validEmotionSample "storm"
         (Sample.heapWorld [0.3; 0.8; 0.6]) = Ok p w'
       /\ In (timeSignature p) [(5, 4); (7, 8); (6, 8); (9, 8)]
       /\ ~ fst (timeSignature p) == 4.
Proof.
  assert (V : valid_rng (Sample.heapWorld [0.3; 0.8; 0.6])).
  { unfold valid_rng. cbn. repeat constructor; cbn; lra. }
  assert (C : 0.6 < chaos validEmotionSample) by (cbn; lra).
  split; [exact V|]. split; [exact C|].
  destruct (time_signature_follows_chaos validEmotionSample "storm" _ V)
    as (p & w' & E & _ & I).
  exists p, w'. split; [exact E|]. exact (I C).
Defined.

Lemma floor_index_range (x : Q) (n : Z) :
  0 <= x -> x <= inject_Z n -> (0 <= floor_index x <= n)%Z.
Proof.
  intros L U. unfold floor_index. split.
  - change 0%Z with (Qfloor 0). now apply Qfloor_resp_le.
  - rewrite <- (Qfloor_Z n). now apply Qfloor_resp_le.
Qed.

(** X4. For [hope] in [0,1], [selectKey] returns a key of its table, never an
    undefined entry: one of the six major keys or Db when [darkness] is at
    most 0.5, one of the six minor keys or C#m when it is above 0.5; so the
    key contains the letter m exactly when [darkness] is above 0.5. *)
Theorem key_quality_follows_darkness (emotion : EmotionalVector) :
  0 <= hope emotion -> hope emotion <= 1 ->
  let k := MusicEngine.selectKey emotion in
  (darkness emotion <= 0.5 ->
     In k ["C"; "G"; "D"; "F"; "A"; "E"; "Db"] /\ includes k "m" = false)
  /\ (0.5 < darkness emotion ->
      In k ["Am"; "Dm"; "Em"; "Bm"; "F#m"; "Cm"; "C#m"] /\ includes k "m" = true).
Proof.
  intros H0 H1. cbv zeta. unfold MusicEngine.selectKey.
  assert (R : (0 <= floor_index (hope emotion * (of_nat 6 - 1)) <= 5)%Z).
  { apply floor_index_range; unfold of_nat;
      change (inject_Z (Z.of_nat 6)) with 6; change (inject_Z 5) with 5; lra. }
  set (i := floor_index (hope emotion * (of_nat 6 - 1))) in *.
  assert (I : i = 0%Z \/ i = 1%Z \/ i = 2%Z \/ i = 3%Z \/ i = 4%Z \/ i = 5%Z)
    by lia.
  split; intros D.
  - apply Qgtb_le in D. rewrite D. cbn [length]. fold i.
    destruct (tension emotion >? 0.7); [cbn; tauto|].
    destruct I as [->|[->|[->|[->|[->| ->]]]]]; cbn; tauto.
  - apply Qgtb_lt in D. rewrite D. cbn [length]. fold i.
    destruct (tension emotion >? 0.7); [cbn; tauto|].
    destruct I as [->|[->|[->|[->|[->| ->]]]]]; cbn; tauto.
Qed.

Lemma key_quality_follows_darkness_witness :
  0 <= hope validEmotionSample /\ hope validEmotionSample <= 1
  /\ darkness validEmotionSample <= 0.5
  /\ In (MusicEngine.selectKey validEmotionSample)
        ["C"; "G"; "D"; "F"; "A"; "E"; "Db"]
  /\ includes (MusicEngine.selectKey validEmotionSample) "m" = false.
Proof.
  assert (H0 : 0 <= hope validEmotionSample) by (cbn; lra).
  assert (H1 : hope validEmotionSample <= 1) by (cbn; lra).
  assert (D : darkness validEmotionSample <= 0.5) by (cbn; lra).
  split; [exact H0|]. split; [exact H1|]. split; [exact D|].
  exact (proj1 (key_quality_follows_darkness validEmotionSample H0 H1) D).
Defined.

(** X5. For an emotional vector with all fields in [0,1], the effect settings
    of [emotionToEffects] are in range: reverb room size in [0.3,1],
    dampening in [1000,5000] and wetness in [0.2,0.7]; delay feedback in
    [0.1,0.5] and wetness in [0.1,0.4]; filter frequency in [200,8200]. *)
Theorem synthesized_effects_in_range (emotion : EmotionalVector) :
  valid_emotion emotion ->
  let e := MusicEngine.emotionToEffects emotion in
  (0.3 <= Reverb.roomSize (reverb e) /\ Reverb.roomSize (reverb e) <= 1)
  /\ (1000 <= Reverb.dampening (reverb e) /\ Reverb.dampening (reverb e) <= 5000)
  /\ (0.2 <= Reverb.wet (reverb e) /\ Reverb.wet (reverb e) <= 0.7)
  /\ (0.1 <= Delay.feedback (delay e) /\ Delay.feedback (delay e) <= 0.5)
  /\ (0.1 <= Delay.wet (delay e) /\ Delay.wet (delay e) <= 0.4)
  /\ (200 <= Filter.frequency (filter e) /\ Filter.frequency (filter e) <= 8200).
Proof.
  intros (En & Te & Wa & Co & Da & Ho & Ch & Sp). cbn.
  repeat split; lra.
Qed.

Lemma valid_emotion_sample : valid_emotion validEmotionSample.
Proof. unfold valid_emotion. cbn. repeat split; lra. Defined.

Lemma synthesized_effects_in_range_witness :
  valid_emotion validEmotionSample
  /\ 0.2 <= Reverb.wet (reverb (MusicEngine.emotionToEffects validEmotionSample))
  /\ Reverb.wet (reverb (MusicEngine.emotionToEffects validEmotionSample)) <= 0.7.
Proof.
  split; [exact valid_emotion_sample|].
  exact (proj1 (proj2 (proj2
           (synthesized_effects_in_range validEmotionSample valid_emotion_sample)))).
Defined.

(** ** More on the fitness evaluator *)

Lemma clamp_within lo hi a b x :
  lo <= a -> b <= hi -> a <= x -> x <= b ->
  a <= clamp lo hi x /\ clamp lo hi x <= b.
Proof.
  intros La Hb Ax Xb. unfold clamp.
  destruct (Q.min_spec hi x) as [[I1 E1]|[I1 E1]];
    destruct (Q.max_spec lo (Qmin hi x)) as [[I2 E2]|[I2 E2]];
    split; lra.
Qed.

Lemma clamp_lower lo hi a x :
  a <= hi -> a <= x -> a <= clamp lo hi x.
Proof.
  intros Ah Ax. unfold clamp.
  destruct (Q.min_spec hi x) as [[I1 E1]|[I1 E1]];
    destruct (Q.max_spec lo (Qmin hi x)) as [[I2 E2]|[I2 E2]]; lra.
Qed.

Lemma of_nat_nonneg n : 0 <= of_nat n.
Proof.
  unfold of_nat. change 0 with (inject_Z 0). rewrite <- Zle_Qle. lia.
Qed.

Lemma of_nat_pos n : (1 <= n)%nat -> 1 <= of_nat n.
Proof.
  intros H. unfold of_nat. change 1 with (inject_Z 1). rewrite <- Zle_Qle. lia.
Qed.

Lemma square_nonneg (d : Q) : 0 <= d * d.
Proof.
  destruct (Qlt_le_dec d 0) as [H|H].
  - assert (E : (- d) * (- d) == d * d) by ring.
    rewrite <- E. apply Qmult_le_0_compat; lra.
  - apply Qmult_le_0_compat; lra.
Qed.

Lemma variance_sum_nonneg (mean : Q) (nums : list Q) : forall acc : Q,
  0 <= acc ->
  exists q,
    fold_left
      (fun acc x =>
         let d := JsNum.sub (Num x) (Num mean) in
         JsNum.add acc (JsNum.mul d d))
      nums (Num acc) = Num q
    /\ 0 <= q.
Proof.
  induction nums as [|x nums IH]; intros acc A; [cbn; eauto|].
  cbn [fold_left]. cbv zeta.
  change (JsNum.add (Num acc)
            (JsNum.mul (JsNum.sub (Num x) (Num mean))
               (JsNum.sub (Num x) (Num mean))))
    with (Num (acc + (x - mean) * (x - mean))).
  apply IH.
  pose proof (square_nonneg (x - mean)) as S.
  lra.
Qed.

(** On a non-empty array, [variance] is a finite number that is not negative. *)
Lemma variance_nonneg nums :
  nums <> [] -> exists q, variance nums = Num q /\ 0 <= q.
Proof.
  destruct nums as [|x nums]; [easy|]. intros _. unfold variance.
  cbn [length]. cbv zeta. rewrite div_by_length.
  destruct (variance_sum_nonneg (sum (x :: nums) / of_nat (S (length nums)))
              (x :: nums) 0) as (q & E & Hq); [lra|].
  cbv zeta in E. rewrite E, div_by_length. eexists. split; [reflexivity|].
  apply Qle_shift_div_l.
  - apply (Qlt_le_trans _ 1); [lra|]. apply of_nat_pos. lia.
  - lra.
Qed.

Lemma assessCoherence_range params :
  synths params <> [] ->
  exists c, assessCoherence params = Num c /\ 0.6 <= c /\ c <= 0.72.
Proof.
  intros Ne. unfold assessCoherence.
  destruct (variance_nonneg (map Synth.volume (synths params))) as (q & E & Hq).
  { destruct (synths params); [easy | discriminate]. }
  rewrite E. cbn. eexists. split; [reflexivity|].
  apply clamp_within; try lra;
    destruct (Q.max_spec 0 (0.3 - q)) as [[I M]|[I M]]; lra.
Qed.

Lemma assessSurprise_values params :
  assessSurprise params == 0.3 \/ assessSurprise params == 0.5
  \/ assessSurprise params == 0.7.
Proof.
  unfold assessSurprise.
  destruct (negb (Qeq_bool (fst (timeSignature params)) 4));
    destruct (negb (length (scale params) =? 7)%nat);
    [right; right | right; left | right; left | left]; reflexivity.
Qed.

(** The interest score for [n] layers whose durations are [ds]. *)
Lemma interest_range (n : nat) (ds : list string) :
  let score :=
    clamp 0 1 (0.4 + Qmin (of_nat n / 4) 0.3
               + of_nat (length (nodup string_dec ds)) * 0.05) in
  (0.4 <= score /\ score <= 1)
  /\ ((1 <= n)%nat -> ds <> [] -> 0.7 <= score).
Proof.
  cbv zeta.
  pose proof (of_nat_nonneg n) as N.
  pose proof (of_nat_nonneg (length (nodup string_dec ds))) as U.
  change (of_nat n / 4) with (of_nat n * (1 # 4)).
  split.
  - split; [|apply clamp_bounds; lra].
    apply clamp_lower; [lra|].
    destruct (Q.min_spec (of_nat n * (1 # 4)) 0.3) as [[I M]|[I M]]; lra.
  - intros Hn Hd. apply of_nat_pos in Hn.
    assert (U1 : 1 <= of_nat (length (nodup string_dec ds))).
    { apply of_nat_pos. destruct ds as [|d ds]; [easy|].
      assert (I : In d (nodup string_dec (d :: ds))).
      { apply nodup_In. now left. }
      destruct (nodup string_dec (d :: ds)); [easy | cbn; lia]. }
    assert (B : 0.7 <= 0.4 + Qmin (of_nat n * (1 # 4)) 0.3
                      + of_nat (length (nodup string_dec ds)) * 0.05).
    { destruct (Q.min_spec (of_nat n * (1 # 4)) 0.3) as [[I M]|[I M]]; lra. }
    unfold clamp.
    destruct (Q.min_spec 1
                (0.4 + Qmin (of_nat n * (1 # 4)) 0.3
                 + of_nat (length (nodup string_dec ds)) * 0.05))
      as [[I1 E1]|[I1 E1]];
      destruct (Q.max_spec 0
                  (Qmin 1
                     (0.4 + Qmin (of_nat n * (1 # 4)) 0.3
                      + of_nat (length (nodup string_dec ds)) * 0.05)))
        as [[I2 E2]|[I2 E2]]; lra.
Qed.

(** The technical quality score when every envelope is sane, or not, and
    the effects are in range, or not. *)
Lemma technicalQuality_values (goodEnvelopes goodEffects : bool) :
  let score := 0.6 in
  let score := if goodEnvelopes then score + 0.2 else score in
  let score := if goodEffects then score + 0.2 else score in
  clamp 0 1 score == 0.6 \/ clamp 0 1 score == 0.8 \/ clamp 0 1 score == 1.
Proof.
  destruct goodEnvelopes, goodEffects; cbv zeta;
    [right; right | right; left | right; left | left]; reflexivity.
Qed.

(** The scores of [evaluateFitness], one by one. *)
Lemma evaluateFitness_values params mood prompt w :
  heap_ok w (synths params) -> no_holes (patterns params) ->
  exists ds good,
    flatDurations (patterns params) w = Ok ds w
    /\ everyGoodEnvelope (synths params) w = Ok good w
    /\ evaluateFitness params mood prompt w
       = Ok {| emotionalResonance := Num (assessEmotionalMatch params mood);
               coherence := assessCoherence params;
               interest :=
                 Num (clamp 0 1
                        (0.4 + Qmin (of_nat (length (patterns params)) / 4) 0.3
                         + of_nat (length (nodup string_dec ds)) * 0.05));
               surprise := Num (assessSurprise params);
               technicalQuality :=
                 Num (clamp 0 1
                        (let score := 0.6 in
                         let score := if good then score + 0.2 else score in
                         let score :=
                           if (Reverb.wet (reverb (effects params)) <? 0.8)
                              && (Delay.feedback (delay (effects params)) <? 0.8)
                           then score + 0.2 else score in
                         score)) |} w.
Proof.
  intros H NH. unfold evaluateFitness, assessInterest, assessTechnicalQuality.
  destruct (flatDurations_ok _ w NH) as [ds E1].
  destruct (everyGoodEnvelope_ok _ w H) as [b E2].
  exists ds, b. split; [exact E1|]. split; [exact E2|].
  unfold bind, ret. now rewrite E1, E2.
Qed.

(** X6. For parameters with at least one synth voice, the scores of
    [evaluateFitness] lie in narrower ranges than [0,1]: coherence is in
    [0.6,0.72], interest in [0.4,1], surprise is 0.3, 0.5 or 0.7, and
    technical quality is 0.6, 0.8 or 1. *)
Theorem fitness_score_ranges (params : MusicParameters) (mood : EmotionalVector)
    (prompt : string) (w : World) :
  heap_ok w (synths params) -> no_holes (patterns params) ->
  synths params <> [] ->
  exists er co interest_score su tq,
    evaluateFitness params mood prompt w
    = Ok {| emotionalResonance := Num er; coherence := Num co;
            interest := Num interest_score; surprise := Num su;
            technicalQuality := Num tq |} w
    /\ (0 <= er /\ er <= 1)
    /\ (0.6 <= co /\ co <= 0.72)
    /\ (0.4 <= interest_score /\ interest_score <= 1)
    /\ (su == 0.3 \/ su == 0.5 \/ su == 0.7)
    /\ (tq == 0.6 \/ tq == 0.8 \/ tq == 1).
Proof.
  intros H NH Ne.
  destruct (evaluateFitness_values params mood prompt w H NH)
    as (ds & good & _ & _ & E).
  destruct (assessCoherence_range params Ne) as (c & Ec & Hc).
  rewrite Ec in E. do 5 eexists. split; [exact E|].
  split; [apply clamp_bounds; lra|]. split; [exact Hc|].
  split; [apply (interest_range (length (patterns params)) ds)|].
  split; [apply assessSurprise_values|].
  apply technicalQuality_values.
Qed.

Lemma fitness_score_ranges_witness :
  let params := Sample.params [Some Sample.layer] in
  let w := Sample.heapWorld [] in
  heap_ok w (synths params) /\ no_holes (patterns params)
  /\ synths params <> []
  /\ exists er co interest_score su tq,
       evaluateFitness params (Sample.flat 0.5) "calm piano" w
       = Ok {| emotionalResonance := Num er; coherence := Num co;
               interest := Num interest_score; surprise := Num su;
               technicalQuality := Num tq |} w
       /\ (0.6 <= co /\ co <= 0.72).
Proof.
  assert (H : heap_ok (Sample.heapWorld [])
                (synths (Sample.params [Some Sample.layer]))).
  { repeat constructor. }
  assert (NH : no_holes (patterns (Sample.params [Some Sample.layer]))).
  { repeat constructor. now exists Sample.layer. }
  assert (Ne : synths (Sample.params [Some Sample.layer]) <> []) by discriminate.
  split; [exact H|]. split; [exact NH|]. split; [exact Ne|].
  destruct (fitness_score_ranges _ (Sample.flat 0.5) "calm piano" _ H NH Ne)
    as (er & co & i & su & tq & E & _ & C & _).
  exists er, co, i, su, tq. now split.
Defined.

(** ** The weakest aspect *)

Lemma negative_sub q q' :
  JsNum.negative (JsNum.sub (Num q) (Num q')) = true <-> q < q'.
Proof.
  unfold JsNum.negative, JsNum.sub, JsNum.lift2. rewrite Qltb_lt.
  split; intros; lra.
Qed.

(** The head of the sorted entries is the first minimum of the entries. *)
Lemma sort_entries_head (l : list (FitnessKey * jsnum)) :
  l <> [] -> Forall (fun e => exists q, snd e = Num q) l ->
  exists k q rest, sort_entries l = (k, Num q) :: rest /\ first_minimum l k q.
Proof.
  induction l as [|[kx sx] l IH]; [easy|]. intros _ F.
  apply Forall_cons in F as [[qx Ex] F]. cbn in Ex. subst sx.
  destruct l as [|y l].
  - exists kx, qx, []. split; [reflexivity|].
    exists [], []. now repeat split.
  - destruct (IH ltac:(discriminate) F) as (k & q & rest & E & pre & post & L & Pre & Post).
    unfold sort_entries in *. cbn [foldr]. cbn [foldr] in E. rewrite E.
    cbn [insert_entry snd].
    destruct (JsNum.negative (JsNum.sub (Num q) (Num qx))) eqn:N.
    + apply negative_sub in N.
      exists k, q, (insert_entry (kx, Num qx) rest). split; [reflexivity|].
      exists ((kx, Num qx) :: pre), post. rewrite L. split; [reflexivity|].
      split; [|exact Post]. constructor; [|exact Pre]. now exists qx.
    + assert (Le : qx <= q).
      { apply Qnot_lt_le. intros Lt. apply negative_sub in Lt. congruence. }
      exists kx, qx, ((k, Num q) :: rest). split; [reflexivity|].
      exists [], (y :: l). split; [reflexivity|]. split; [constructor|].
      rewrite L. apply Forall_app. split; [|constructor].
      * eapply Forall_impl; [exact Pre|]. intros e (q' & E' & Lt).
        exists q'. split; [exact E' | lra].
      * now exists q.
      * eapply Forall_impl; [exact Post|]. intros e (q' & E' & Lt).
        exists q'. split; [exact E' | lra].
Qed.

Lemma findWeakestAspect_first_minimum f :
  finite_scores f ->
  exists q, first_minimum (entries f) (findWeakestAspect f) q.
Proof.
  intros Fin.
  destruct (sort_entries_head (entries f)) as (k & q & rest & E & M).
  - discriminate.
  - unfold entries.
    repeat (constructor; [match goal with
                          | |- exists q, snd (?k, _) = _ => exact (Fin k)
                          end|]).
    constructor.
  - exists q. unfold findWeakestAspect. now rewrite E.
Qed.

Ltac same_score :=
  repeat match goal with
         | H : snd _ = Num _ |- _ => cbn [snd] in H
         | H1 : ?a = Num ?x, H2 : ?a = Num ?y |- _ =>
             rewrite H1 in H2; injection H2 as H2; try subst x; try subst y
         end.

(** X7. When the five scores are finite numbers, the aspect that
    [findWeakestAspect] returns has the least score, and it is the first
    such aspect in the order emotionalResonance, coherence, interest,
    surprise, technicalQuality: every aspect before it has a strictly
    greater score. *)
Theorem weakest_aspect_is_first_minimum (f : FitnessScores) :
  finite_scores f ->
  exists q,
    score_at f (findWeakestAspect f) = Num q
    /\ forall k q', score_at f k = Num q' ->
         q <= q' /\ ((rank k < rank (findWeakestAspect f))%nat -> q < q').
Proof.
  intros Fin.
  destruct (findWeakestAspect_first_minimum f Fin)
    as (q & pre & post & L & Pre & Post).
  set (k0 := findWeakestAspect f) in *. clearbody k0. exists q.
  unfold entries in L.
  destruct pre as [|e0 [|e1 [|e2 [|e3 [|e4 pre]]]]];
    cbn [app] in L; inversion L; subst; clear L;
    try (destruct pre; discriminate);
    repeat match goal with
           | H : Forall _ (_ :: _) |- _ => apply Forall_cons in H as [(? & ? & ?) H]
           end;
    same_score;
    (split; [cbn; congruence|]);
    intros k q' Hk; destruct k; cbn [score_at rank] in *; same_score;
    (split; [lra | intros R; try lia; lra]).
Qed.

Lemma weakest_aspect_is_first_minimum_witness :
  finite_scores Sample.scores
  /\ exists q,
       score_at Sample.scores (findWeakestAspect Sample.scores) = Num q
       /\ forall k q', score_at Sample.scores k = Num q' ->
            q <= q'
            /\ ((rank k < rank (findWeakestAspect Sample.scores))%nat -> q < q').
Proof.
  assert (F : finite_scores Sample.scores).
  { intros []; cbn; eauto. }
  split; [exact F|]. exact (weakest_aspect_is_first_minimum Sample.scores F).
Defined.

(** ** Generation 0 *)

Lemma same_heap_refl w : same_heap w w.
Proof. now repeat split. Qed.

Lemma same_heap_trans w1 w2 w3 : same_heap w1 w2 -> same_heap w2 w3 -> same_heap w1 w3.
Proof.
  intros (O1 & E1 & V1) (O2 & E2 & V2). repeat split; try congruence. auto.
Qed.

Lemma after_same_heap w w' : after w w' -> same_heap w w'.
Proof.
  intros A. pose proof A as (O & E & _). repeat split; try assumption.
  now apply after_valid_rng.
Qed.

Lemma tick_same_heap w : same_heap w (snd (tick w)).
Proof.
  unfold tick. destruct (clock w); [apply same_heap_refl|]. now repeat split.
Qed.

Lemma now_same_heap w : exists t w', now w = Ok t w' /\ same_heap w w'.
Proof.
  unfold now. pose proof (tick_same_heap w) as T.
  destruct (tick w) as [t w']. eauto.
Qed.

Lemma generateId_same_heap renderId w :
  exists name w', generateId renderId w = Ok name w' /\ same_heap w w'.
Proof.
  unfold generateId, bind.
  destruct (now_same_heap w) as (t & w1 & -> & S1).
  destruct (wp_elim _ _ _ (rng_only_random w1)) as (r & w2 & -> & A & _).
  exists (renderId t r), w2. split; [reflexivity|].
  apply (same_heap_trans _ w1); [exact S1 | now apply after_same_heap].
Qed.

Lemma same_heap_heap_ok w w' voices :
  same_heap w w' -> heap_ok w voices -> heap_ok w' voices.
Proof. intros (O & E & _) H. unfold heap_ok in *. now rewrite O, E. Qed.

Lemma same_heap_synthValues w w' voices :
  same_heap w w' -> synthValues w' voices = synthValues w voices.
Proof. intros (O & E & _). unfold synthValues, synthValue. now rewrite O, E. Qed.

Lemma flatDurations_values ps w :
  flatDurations (map Some ps) w = Ok (concat (map durations ps)) w.
Proof.
  induction ps as [|p ps IH]; [reflexivity|].
  cbn [map flatDurations concat]. unfold bind. now rewrite IH.
Qed.

Lemma everyGoodEnvelope_values voices : forall vs w,
  synthValues w voices = map Some vs ->
  everyGoodEnvelope voices w = Ok (forallb goodEnvelope vs) w.
Proof.
  induction voices as [|s voices IH]; intros [|v vs] w E; try discriminate E.
  - reflexivity.
  - unfold synthValues in E. cbn [map] in E. injection E as Ev E.
    cbn [everyGoodEnvelope forallb]. unfold bind, readEnv.
    unfold synthValue in Ev.
    destruct (oscs w !! Synth.oscillator s); [|discriminate Ev].
    destruct (envs w !! Synth.envelope s) as [e|]; [|discriminate Ev].
    injection Ev as <-. unfold goodEnvelope at 1. cbn [SynthValue.envelope].
    destruct ((Envelope.attack e <? 2) && (Envelope.release e <? 5));
      [now apply IH | reflexivity].
Qed.

(** The emotional match of the parameters that [emotionToParams] derives
    from the mood itself: the tempo matches the energy exactly. *)
Lemma initial_emotional_match emotion p :
  tempo p = 60 + energy emotion * 120 ->
  effects p = MusicEngine.emotionToEffects emotion ->
  0 <= space emotion /\ space emotion <= 1 ->
  0.84 <= assessEmotionalMatch p emotion /\ assessEmotionalMatch p emotion <= 0.9.
Proof.
  intros T E [S0 S1]. unfold assessEmotionalMatch. cbv zeta. rewrite T, E.
  cbn [MusicEngine.emotionToEffects reverb Reverb.wet].
  assert (Z : Qabs ((60 + energy emotion * 120 - 60) / 120 - energy emotion) == 0).
  { assert (Z : (60 + energy emotion * 120 - 60) / 120 - energy emotion == 0)
      by field.
    now rewrite Z. }
  pose proof (Qabs_nonneg (0.2 + space emotion * 0.5 - space emotion)) as B0.
  assert (B1 : Qabs (0.2 + space emotion * 0.5 - space emotion) <= 0.3).
  { apply Qabs_Qle_condition. split; lra. }
  set (a := Qabs ((60 + energy emotion * 120 - 60) / 120 - energy emotion)) in *.
  set (b := Qabs (0.2 + space emotion * 0.5 - space emotion)) in *.
  apply clamp_within; lra.
Qed.

Lemma voiceValues_good emotion :
  0 <= space emotion /\ space emotion <= 1 ->
  forallb goodEnvelope (voiceValues emotion) = true.
Proof.
  intros [S0 S1]. unfold voiceValues. cbn [forallb]. rewrite forallb_app.
  assert (G1 : goodEnvelope
                 {| SynthValue.type := "synth";
                    SynthValue.oscillator :=
                      {| Oscillator.type :=
                           if warmth emotion >? 0.5 then "sine" else "triangle" |};
                    SynthValue.envelope :=
                      {| Envelope.attack := 0.01 + space emotion * 0.1;
                         Envelope.decay := 0.2;
                         Envelope.sustain := 0.6 + energy emotion * 0.3;
                         Envelope.release := 0.5 + space emotion * 1.5 |};
                    SynthValue.volume := -10 |} = true).
  { unfold goodEnvelope. cbn. apply andb_true_iff. split; apply Qltb_lt; lra. }
  rewrite G1. cbn [andb].
  apply andb_true_iff. split.
  - destruct (complexity emotion >? 0.3); [|reflexivity].
    cbn [forallb]. rewrite andb_true_r. unfold goodEnvelope. cbn.
    apply andb_true_iff. split; apply Qltb_lt; lra.
  - destruct (complexity emotion >? 0.6); reflexivity.
Qed.

(** The scores of the parameters that [emotionToParams] derives from a
    valid mood, evaluated against that mood. *)
Lemma initial_fitness emotion prompt w p w1 :
  synthesized emotion w p w1 -> valid_emotion emotion ->
  exists er co i su tq,
    evaluateFitness p emotion prompt w1
    = Ok {| emotionalResonance := Num er; coherence := Num co;
            interest := Num i; surprise := Num su;
            technicalQuality := Num tq |} w1
    /\ (0.84 <= er /\ er <= 0.9)
    /\ (0.6 <= co /\ co <= 0.72)
    /\ (0.7 <= i /\ i <= 1)
    /\ (su == 0.3 \/ su == 0.5)
    /\ tq == 1.
Proof.
  intros Sy (En & Te & Wa & Co & Da & Ho & Ch & Sp).
  pose proof (synthesized_heap_ok _ _ _ _ Sy) as H.
  pose proof (synthesized_voices _ _ _ _ Sy) as V.
  destruct (synthesized_patterns _ _ _ _ Sy) as (ps & Ps & Sh & _).
  assert (NH : no_holes (patterns p)).
  { rewrite Ps. unfold no_holes. apply Forall_forall. intros x Hx.
    apply list_elem_of_In, in_map_iff in Hx as (y & <- & _). now exists y. }
  assert (Ne : synths p <> []).
  { intros E. rewrite E in V. unfold voiceValues in V. discriminate V. }
  destruct (evaluateFitness_values p emotion prompt w1 H NH)
    as (ds & good & E1 & E2 & E).
  rewrite Ps, flatDurations_values in E1. injection E1 as <-.
  rewrite (everyGoodEnvelope_values _ _ _ V), (voiceValues_good emotion Sp) in E2.
  injection E2 as <-.
  destruct (assessCoherence_range p Ne) as (c & Ec & Hc).
  rewrite Ec in E. do 5 eexists. split; [exact E|].
  split.
  { apply initial_emotional_match; [apply Sy | apply Sy | exact Sp]. }
  split; [exact Hc|].
  split.
  { pose proof (interest_range (length (patterns p))
                  (concat (map durations ps))) as [R K].
    cbv zeta in R, K. split; [|apply R]. apply K.
    - rewrite Ps, length_map. unfold layers_shape in Sh. cbv zeta in Sh.
      destruct (complexity emotion >? 0.3).
      + destruct Sh as (b & m & -> & _). cbn. lia.
      + destruct Sh as (b & -> & _). cbn. lia.
    - unfold layers_shape in Sh. cbv zeta in Sh.
      assert (D : exists b rest, ps = b :: rest /\ length (durations b) = 8%nat).
      { destruct (complexity emotion >? 0.3).
        - destruct Sh as (b & m & -> & (_ & _ & _ & Db) & _). eauto.
        - destruct Sh as (b & -> & (_ & _ & _ & Db)). eauto. }
      destruct D as (b & rest & -> & Db). cbn [map concat].
      destruct (durations b); [discriminate Db | discriminate]. }
  split.
  { unfold assessSurprise. rewrite (synthesized_scale _ _ _ _ Sy).
    rewrite selectScale_length. cbn [Nat.eqb negb].
    destruct (negb (Qeq_bool (fst (timeSignature p)) 4));
      [right | left]; reflexivity. }
  rewrite (synthesized_effects _ _ _ _ Sy).
  cbn [MusicEngine.emotionToEffects reverb delay Reverb.wet Delay.feedback].
  assert (G1 : (0.2 + space emotion * 0.5 <? 0.8) = true) by (apply Qltb_lt; lra).
  assert (G2 : (0.1 + complexity emotion * 0.4 <? 0.8) = true)
    by (apply Qltb_lt; lra).
  rewrite G1, G2. reflexivity.
Qed.

Lemma map_Some_no_holes (ps : list PatternDefinition) : no_holes (map Some ps).
Proof.
  unfold no_holes. apply Forall_forall. intros x Hx.
  apply list_elem_of_In, in_map_iff in Hx as (y & <- & _). now exists y.
Qed.

(** [createInitialGeneration] returns, whatever the mood and the world. *)
Lemma createInitialGeneration_spec renderCode renderId prompt mood w :
  exists p w1 code f name t w',
    MusicEngine.emotionToParams mood prompt w = Ok p w1
    /\ synthesized mood w p w1
    /\ no_holes (patterns p)
    /\ evaluateFitness p mood prompt w1 = Ok f w1
    /\ same_heap w1 w'
    /\ createInitialGeneration renderCode renderId prompt mood w
       = Ok {| Generation.id := name;
               Generation.parentId := None;
               Generation.generationNumber := 0;
               Generation.timestamp := t;
               Generation.musicCode := code;
               Generation.musicParams := p;
               Generation.creativeReasoning :=
                 {| analysis :=
                      "Starting from prompt: " ++ dquote ++ prompt ++ dquote
                      ++ ". I'm interpreting this as a call for "
                      ++ describeMood mood ++ ".";
                    intention := formulateIntention mood prompt;
                    strategy := formulateStrategy mood prompt;
                    reflection :=
                      "This is my initial conception. I'm curious to hear how it resonates." |};
               Generation.fitness := f;
               Generation.prompt := prompt;
               Generation.mood := mood;
               Generation.mutations := [];
               Generation.lockedElements := [];
               Generation.branch := "main";
               Generation.tags := [] |} w'.
Proof.
  destruct (wp_elim _ _ _ (emotionToParams_synthesized mood prompt w))
    as (p & w1 & E0 & Sy).
  pose proof (synthesized_heap_ok _ _ _ _ Sy) as H.
  destruct (synthesized_patterns _ _ _ _ Sy) as (ps & Ps & _).
  assert (NH : no_holes (patterns p)).
  { rewrite Ps. apply map_Some_no_holes. }
  destruct (generateCode_ok renderCode p w1 H NH) as [code E1].
  destruct (evaluateFitness_values p mood prompt w1 H NH)
    as (ds & good & _ & _ & E2).
  destruct (generateId_same_heap renderId w1) as (name & w2 & E3 & S2).
  destruct (now_same_heap w2) as (t & w3 & E4 & S3).
  exists p, w1, code. eexists. exists name, t, w3.
  split; [exact E0|]. split; [exact Sy|]. split; [exact NH|].
  split; [exact E2|]. split; [now apply (same_heap_trans _ w2)|].
  unfold createInitialGeneration, bind. now rewrite E0, E1, E2, E3, E4.
Qed.

Lemma weakest_is_surprise er co i su tq :
  su < er -> su < co -> su < i -> su <= tq ->
  findWeakestAspect
    {| emotionalResonance := Num er; coherence := Num co; interest := Num i;
       surprise := Num su; technicalQuality := Num tq |} = kSurprise.
Proof.
  intros L1 L2 L3 L4.
  set (f := {| emotionalResonance := Num er; coherence := Num co;
               interest := Num i; surprise := Num su;
               technicalQuality := Num tq |}).
  assert (Fin : finite_scores f) by (intros []; cbn; eauto).
  destruct (findWeakestAspect_first_minimum f Fin)
    as (q & pre & post & L & Pre & Post).
  set (k0 := findWeakestAspect f) in *. clearbody k0.
  unfold entries, f in L. cbn in L.
  destruct pre as [|e0 [|e1 [|e2 [|e3 [|e4 pre]]]]];
    cbn [app] in L; inversion L; subst; clear L;
    try (destruct pre; discriminate);
    repeat match goal with
           | H : Forall _ (_ :: _) |- _ => apply Forall_cons in H as [(? & ? & ?) H]
           end;
    repeat match goal with
           | H : snd _ = Num _ |- _ => cbn [snd] in H; injection H as H; subst
           end;
    try reflexivity; exfalso; lra.
Qed.

(** X8. For a mood with all fields in [0,1], [createInitialGeneration]
    returns a root generation (no parent, number 0, no mutation, no lock,
    branch main) whose self-evaluation does not depend on the random draws
    beyond this: emotional resonance in [0.84,0.9], coherence in [0.6,0.72],
    interest in [0.7,1], surprise 0.3 or 0.5, technical quality 1.  Its
    weakest aspect is therefore always surprise. *)
Theorem initial_generation_scores
    (renderCode : MusicParameters -> list SynthValue.t -> string)
    (renderId : Q -> Q -> string)
    (prompt : string) (mood : EmotionalVector) (w : World) :
  valid_emotion mood ->
  exists g w' er co i su tq,
    createInitialGeneration renderCode renderId prompt mood w = Ok g w'
    /\ Generation.parentId g = None
    /\ Generation.generationNumber g = 0
    /\ Generation.mutations g = []
    /\ Generation.lockedElements g = []
    /\ Generation.branch g = "main"
    /\ Generation.prompt g = prompt
    /\ Generation.mood g = mood
    /\ Generation.fitness g
       = {| emotionalResonance := Num er; coherence := Num co;
            interest := Num i; surprise := Num su;
            technicalQuality := Num tq |}
    /\ (0.84 <= er /\ er <= 0.9)
    /\ (0.6 <= co /\ co <= 0.72)
    /\ (0.7 <= i /\ i <= 1)
    /\ (su == 0.3 \/ su == 0.5)
    /\ tq == 1
    /\ findWeakestAspect (Generation.fitness g) = kSurprise.
Proof.
  intros V.
  destruct (createInitialGeneration_spec renderCode renderId prompt mood w)
    as (p & w1 & code & f & name & t & w' & E0 & Sy & NH & Ef & Sh & E).
  destruct (initial_fitness mood prompt w p w1 Sy V)
    as (er & co & i & su & tq & Ef' & Her & Hco & Hi & Hsu & Htq).
  rewrite Ef in Ef'. injection Ef' as ->.
  eexists _, w', er, co, i, su, tq. split; [exact E|].
  cbn [Generation.parentId Generation.generationNumber Generation.mutations
       Generation.lockedElements Generation.branch Generation.prompt
       Generation.mood Generation.fitness].
  repeat (split; [reflexivity || assumption|]).
  apply weakest_is_surprise; destruct Hsu as [S|S]; lra.
Qed.

Lemma initial_generation_scores_witness :
  valid_emotion validEmotionSample
  /\ exists g w' er co i su tq,
       createInitialGeneration Sample.renderCode Sample.renderId "storm"
         validEmotionSample (Sample.heapWorld [0.3; 0.8; 0.6]) = Ok g w'
       /\ Generation.fitness g
          = {| emotionalResonance := Num er; coherence := Num co;
               interest := Num i; surprise := Num su;
               technicalQuality := Num tq |}
       /\ tq == 1
       /\ findWeakestAspect (Generation.fitness g) = kSurprise.
Proof.
  split; [exact valid_emotion_sample|].
  destruct (initial_generation_scores Sample.renderCode Sample.renderId "storm"
              validEmotionSample (Sample.heapWorld [0.3; 0.8; 0.6])
              valid_emotion_sample)
    as (g & w' & er & co & i & su & tq & E & _ & _ & _ & _ & _ & _ & _ & F
        & _ & _ & _ & _ & T & K).
  exists g, w', er, co, i, su, tq. now repeat split.
Defined.

(** ** The footprint of a mutation *)

Lemma synthValues_types w1 l1 : forall w l,
  synthValues w1 l1 = synthValues w l -> heap_ok w l ->
  map Synth.type l1 = map Synth.type l
  /\ map Synth.volume l1 = map Synth.volume l.
Proof.
  induction l1 as [|s1 l1 IH]; intros w [|s l] E H; try discriminate E.
  - now split.
  - unfold synthValues in E. cbn [map] in E. injection E as Es E.
    apply Forall_cons in H as [[Ho He] H].
    destruct (IH w l E H) as [T V]. cbn [map]. rewrite T, V.
    apply lookup_lt_is_Some_2 in Ho as [o Ho].
    apply lookup_lt_is_Some_2 in He as [e He].
    unfold synthValue in Es. rewrite Ho, He in Es.
    destruct (oscs w1 !! Synth.oscillator s1); [|discriminate Es].
    destruct (envs w1 !! Synth.envelope s1); [|discriminate Es].
    injection Es as -> _ _ ->. now split.
Qed.

Lemma mutateEffects_frame e intensity :
  rng_only (mutateEffects e intensity)
    (fun v => filter v = filter e
              /\ Reverb.dampening (reverb v) = Reverb.dampening (reverb e)
              /\ Delay.delayTime (delay v) = Delay.delayTime (delay e)).
Proof.
  unfold mutateEffects. rng_draw. rng_draw. apply rng_only_ret. now cbn.
Qed.

Lemma applyMutation_footprint params strat locked w :
  heap_ok w (synths params) -> no_holes (patterns params) ->
  wp (applyMutation params strat locked) w (footprint params w strat).
Proof.
  intros H NH. unfold applyMutation.
  apply wp_bind, jsonClone_wp; [exact H|]. intros fresh w1 X V H1.
  pose proof (extends_heap_ok _ _ _ X H) as H1'.
  pose proof (extends_valid_rng _ _ X) as Vr.
  assert (Fin : forall out w',
            after w1 w' ->
            synths out = fresh ->
            timeSignature out = timeSignature params ->
            filter (effects out) = filter (effects params) ->
            Reverb.dampening (reverb (effects out))
            = Reverb.dampening (reverb (effects params)) ->
            Delay.delayTime (delay (effects out))
            = Delay.delayTime (delay (effects params)) ->
            (Strategy.type strat <> harmonic -> Strategy.type strat <> radical ->
             scale out = scale params) ->
            (Strategy.type strat <> harmonic -> key out = key params) ->
            (Strategy.type strat <> rhythmic -> Strategy.type strat <> radical ->
             tempo out = tempo params) ->
            (Strategy.type strat <> rhythmic -> Strategy.type strat <> structural ->
             patterns out = patterns params) ->
            (Strategy.type strat <> timbral -> Strategy.type strat <> textural ->
             effects out = effects params) ->
            footprint params w strat out w').
  { intros out w' A S. destruct (synthValues_types _ _ _ _ V H) as [Ty Vo].
    constructor; auto.
    - now rewrite S.
    - now rewrite S.
    - intros _. rewrite S, (after_synthValues _ _ _ A). exact V.
    - intros Vw. apply (after_valid_rng w1); auto. }
  destruct (Strategy.type strat) eqn:T.
  - (* harmonic *)
    apply wp_bind.
    destruct (arr_includes locked "scale"); cbn [negb].
    + apply wp_ret.
      destruct (arr_includes locked "key"); cbn [negb].
      * apply wp_ret, Fin; cbn; auto using after_refl; congruence.
      * rng_next (mutateKey_rng (key params) (Strategy.intensity strat)).
        apply wp_ret, Fin; cbn; auto; congruence.
    + rng_next (mutateScale_rng (scale params) (Strategy.intensity strat)).
      apply wp_ret.
      destruct (arr_includes locked "key"); cbn [negb].
      * apply wp_ret, Fin; cbn; auto; congruence.
      * rng_next (mutateKey_rng (key params) (Strategy.intensity strat)).
        apply wp_ret, Fin; cbn; eauto using after_trans; congruence.
  - (* rhythmic *)
    apply wp_bind.
    destruct (arr_includes locked "tempo"); cbn [negb].
    + apply wp_ret.
      destruct (arr_includes locked "patterns"); cbn [negb].
      * apply wp_ret, Fin; cbn; auto using after_refl; congruence.
      * rng_next (mutatePatterns_rng (Strategy.intensity strat) _ NH).
        apply wp_ret, Fin; cbn; auto; congruence.
    + rng_next (mutateTempo_rng (tempo params) (Strategy.intensity strat)).
      apply wp_ret.
      destruct (arr_includes locked "patterns"); cbn [negb].
      * apply wp_ret, Fin; cbn; auto; congruence.
      * rng_next (mutatePatterns_rng (Strategy.intensity strat) _ NH).
        apply wp_ret, Fin; cbn; eauto using after_trans; congruence.
  - (* timbral *)
    destruct (synthValues_types _ _ _ _ V H) as [Ty Vo].
    apply wp_bind.
    destruct (arr_includes locked "synths"); cbn [negb].
    + apply wp_ret.
      destruct (arr_includes locked "effects"); cbn [negb].
      * apply wp_ret, Fin; cbn; auto using after_refl; congruence.
      * rng_next (mutateEffects_frame (effects params) (Strategy.intensity strat)).
        apply wp_ret, Fin; cbn; auto; try congruence; tauto.
    + apply wp_bind, mapM_mutateSynth_wp; [exact H1'|]. intros w2 S2.
      apply wp_ret.
      assert (Vr2 : valid_rng w -> valid_rng w2).
      { intros Vw. destruct S2 as (_ & _ & _ & k & R). unfold valid_rng.
        rewrite R. apply Forall_drop. now apply Vr. }
      destruct (arr_includes locked "effects"); cbn [negb].
      * apply wp_ret. constructor; cbn; auto; congruence.
      * rng_next (mutateEffects_frame (effects params) (Strategy.intensity strat)).
        apply wp_ret. constructor; cbn; auto; try congruence; try tauto.
        intros Vw. apply (after_valid_rng w2); auto.
  - (* structural *)
    destruct (arr_includes locked "patterns"); cbn [negb].
    + apply wp_ret, Fin; cbn; auto using after_refl; congruence.
    + cbn [patterns set_synths].
      destruct ((Strategy.intensity strat >? 0.6)
                && (1 <? length (patterns params))%nat).
      * apply wp_ret, Fin; cbn; auto using after_refl; congruence.
      * destruct ((Strategy.intensity strat >? 0.7)
                  && (length (patterns params) <? 4)%nat);
          apply wp_ret, Fin; cbn; auto using after_refl; congruence.
  - (* textural *)
    destruct (arr_includes locked "effects"); cbn [negb].
    + apply wp_ret, Fin; cbn; auto using after_refl; congruence.
    + apply wp_bind, wp_random. intros r1 w2 A2.
      apply wp_bind, wp_random. intros r2 w3 A3.
      apply wp_ret, Fin; cbn; eauto using after_trans; congruence.
  - (* radical *)
    apply wp_bind.
    destruct (arr_includes locked "scale"); cbn [negb].
    + apply wp_ret.
      destruct (arr_includes locked "tempo"); cbn [negb].
      * apply wp_ret, Fin; cbn; auto using after_refl; congruence.
      * apply wp_bind, wp_random. intros r w2 A2.
        apply wp_ret, Fin; cbn; auto; congruence.
    + rng_next generateRadicalScale_rng.
      apply wp_ret.
      destruct (arr_includes locked "tempo"); cbn [negb].
      * apply wp_ret, Fin; cbn; auto; congruence.
      * apply wp_bind, wp_random. intros r w3 A3.
        apply wp_ret, Fin; cbn; eauto using after_trans; congruence.
Qed.

(** X9. Each mutation type has a footprint.  No mutation changes the time
    signature, the filter, the reverb dampening, the delay time, or the type
    and volume of a synth voice.  The scale is changed only by a harmonic or
    a radical mutation, the key only by a harmonic one, the tempo only by a
    rhythmic or a radical one, the pattern layers only by a rhythmic or a
    structural one, the effects only by a timbral or a textural one, and the
    oscillators and envelopes of the voices only by a timbral one. *)
Theorem mutation_footprint (params : MusicParameters) (strat : MutationStrategy)
    (locked : list string) (w : World) :
  heap_ok w (synths params) -> no_holes (patterns params) ->
  exists out w',
    applyMutation params strat locked w = Ok out w'
    /\ timeSignature out = timeSignature params
    /\ filter (effects out) = filter (effects params)
    /\ Reverb.dampening (reverb (effects out))
       = Reverb.dampening (reverb (effects params))
    /\ Delay.delayTime (delay (effects out))
       = Delay.delayTime (delay (effects params))
    /\ map Synth.type (synths out) = map Synth.type (synths params)
    /\ map Synth.volume (synths out) = map Synth.volume (synths params)
    /\ (Strategy.type strat <> harmonic -> Strategy.type strat <> radical ->
        scale out = scale params)
    /\ (Strategy.type strat <> harmonic -> key out = key params)
    /\ (Strategy.type strat <> rhythmic -> Strategy.type strat <> radical ->
        tempo out = tempo params)
    /\ (Strategy.type strat <> rhythmic -> Strategy.type strat <> structural ->
        patterns out = patterns params)
    /\ (Strategy.type strat <> timbral -> Strategy.type strat <> textural ->
        effects out = effects params)
    /\ (Strategy.type strat <> timbral ->
        synthValues w' (synths out) = synthValues w (synths params)).
Proof.
  intros H NH.
  destruct (wp_elim _ _ _ (applyMutation_footprint params strat locked w H NH))
    as (out & w' & E & F).
  exists out, w'. split; [exact E|]. destruct F. repeat split; assumption.
Qed.

Lemma mutation_footprint_witness :
  let params := Sample.params [Some Sample.layer] in
  let w := Sample.heapWorld [0.9; 0.1; 0.9; 0.1] in
  heap_ok w (synths params) /\ no_holes (patterns params)
  /\ exists out w',
       applyMutation params (Sample.strat textural 0.8) [] w = Ok out w'
       /\ timeSignature out = timeSignature params
       /\ scale out = scale params
       /\ tempo out = tempo params
       /\ patterns out = patterns params
       /\ synthValues w' (synths out) = synthValues w (synths params).
Proof.
  assert (H : heap_ok (Sample.heapWorld [0.9; 0.1; 0.9; 0.1])
                (synths (Sample.params [Some Sample.layer]))).
  { repeat constructor. }
  assert (NH : no_holes (patterns (Sample.params [Some Sample.layer]))).
  { repeat constructor. now exists Sample.layer. }
  split; [exact H|]. split; [exact NH|].
  destruct (mutation_footprint _ (Sample.strat textural 0.8) [] _ H NH)
    as (out & w' & E & Ts & _ & _ & _ & _ & _ & Sc & _ & Te & Pa & _ & Sy).
  exists out, w'. split; [exact E|]. split; [exact Ts|].
  split; [apply Sc; discriminate|]. split; [apply Te; discriminate|].
  split; [apply Pa; discriminate|]. apply Sy; discriminate.
Defined.

(** ** One step of evolution *)

(** [evolve] returns, for every parent whose parameters are of the declared
    type; the generation it returns, field by field. *)
Lemma evolve_spec renderCode renderId parent temperature feedback w :
  heap_ok w (synths (Generation.musicParams parent)) ->
  no_holes (patterns (Generation.musicParams parent)) ->
  exists out w1 code f name t w',
    applyMutation (Generation.musicParams parent)
      (chooseMutationStrategy parent temperature feedback)
      (Generation.lockedElements parent) w = Ok out w1
    /\ heap_ok w1 (synths out) /\ no_holes (patterns out)
    /\ evaluateFitness out (Generation.mood parent) (Generation.prompt parent) w1
       = Ok f w1
    /\ same_heap w1 w'
    /\ evolve renderCode renderId parent temperature feedback w
       = Ok {| Generation.id := name;
               Generation.parentId := Some (Generation.id parent);
               Generation.generationNumber := Generation.generationNumber parent + 1;
               Generation.timestamp := t;
               Generation.musicCode := code;
               Generation.musicParams := out;
               Generation.creativeReasoning :=
                 {| analysis := analyzeParent parent;
                    intention :=
                      articulateIntent
                        (chooseMutationStrategy parent temperature feedback) feedback;
                    strategy :=
                      explainStrategy
                        (chooseMutationStrategy parent temperature feedback);
                    reflection :=
                      anticipateOutcome
                        (chooseMutationStrategy parent temperature feedback) |};
               Generation.fitness := f;
               Generation.prompt := Generation.prompt parent;
               Generation.mood := Generation.mood parent;
               Generation.mutations :=
                 (Generation.mutations parent
                  ++ [type_name
                        (Strategy.type
                           (chooseMutationStrategy parent temperature feedback))])%list;
               Generation.lockedElements := Generation.lockedElements parent;
               Generation.branch := Generation.branch parent;
               Generation.tags := [] |} w'.
Proof.
  intros H NH. unfold evolve.
  set (strat := chooseMutationStrategy parent temperature feedback).
  destruct (wp_elim _ _ _
              (applyMutation_mutated _ strat (Generation.lockedElements parent)
                 w H NH))
    as (out & w1 & E1 & Mu).
  pose proof (mutated_heap_ok _ _ _ _ _ _ Mu) as H1.
  assert (NH1 : no_holes (patterns out)).
  { apply (mutated_no_holes _ _ _ _ _ _ Mu NH). intros T _.
    now apply structural_strategy_is_mild. }
  destruct (generateCode_ok renderCode out w1 H1 NH1) as [code E2].
  destruct (evaluateFitness_values out (Generation.mood parent)
              (Generation.prompt parent) w1 H1 NH1) as (ds & good & _ & _ & E3).
  destruct (generateId_same_heap renderId w1) as (name & w2 & E4 & S2).
  destruct (now_same_heap w2) as (t & w3 & E5 & S3).
  exists out, w1, code. eexists. exists name, t, w3.
  split; [exact E1|]. split; [exact H1|]. split; [exact NH1|].
  split; [exact E3|]. split; [now apply (same_heap_trans _ w2)|].
  unfold bind. now rewrite E1, E2, E3, E4, E5.
Qed.

(** ** What the selected mutations do *)

(** A harmonic mutation whose intensity is not below 0.3: the new scale and
    the new key. *)
Lemma applyMutation_harmonic params strat locked w :
  Strategy.type strat = harmonic -> heap_ok w (synths params) ->
  (Strategy.intensity strat <? 0.3) = false ->
  wp (applyMutation params strat locked) w
     (fun out _ =>
        scale out =
          (if arr_includes locked "scale" then scale params
           else if Strategy.intensity strat >? 0.7
                then ["C"; "Db"; "E"; "F"; "G"; "Ab"; "Bb"]
                else ["C"; "D"; "E"; "F#"; "G"; "A"; "B"])
        /\ (arr_includes locked "key" = true -> key out = key params)
        /\ (arr_includes locked "key" = false ->
            (Strategy.intensity strat <? 0.4) = true ->
            key out = if includes (key params) "m" then "Am" else "G")
        /\ (arr_includes locked "key" = false -> valid_rng w ->
            In (key out) (chromatic ++ map (fun k => k ++ "m") chromatic))).
Proof.
  intros T H I3. unfold applyMutation.
  apply wp_bind, jsonClone_wp; [exact H|]. intros fresh w1 X V H1.
  pose proof (extends_valid_rng _ _ X) as Vr.
  rewrite T. apply wp_bind.
  assert (Key : forall (p : MusicParameters) w2 sc,
            after w1 w2 -> scale p = sc -> key p = key params ->
            wp (if negb (arr_includes locked "key")
                then let* v := mutateKey (key params) (Strategy.intensity strat) in
                     ret (set_key p v)
                else ret p) w2
               (fun out _ =>
                  scale out = sc
                  /\ (arr_includes locked "key" = true -> key out = key params)
                  /\ (arr_includes locked "key" = false ->
                      (Strategy.intensity strat <? 0.4) = true ->
                      key out = if includes (key params) "m" then "Am" else "G")
                  /\ (arr_includes locked "key" = false -> valid_rng w ->
                      In (key out)
                         (chromatic ++ map (fun k => k ++ "m") chromatic)))).
  { intros p w2 sc A2 Sc K.
    destruct (arr_includes locked "key"); cbn [negb].
    - apply wp_ret. repeat split; auto; discriminate.
    - apply wp_bind. unfold mutateKey.
      destruct (Strategy.intensity strat <? 0.4).
      + do 2 apply wp_ret. cbn [scale key set_key].
        repeat split; auto; try discriminate.
        intros _ _. destruct (includes (key params) "m"); cbn; tauto.
      + apply wp_bind, wp_random_valid. intros r w3 A3 R.
        do 2 apply wp_ret. cbn [scale key set_key].
        repeat split; auto; try discriminate.
        intros _ Vw.
        apply (pick_in_range "undefined"
                 (chromatic ++ map (fun k => k ++ "m") chromatic) r);
          [discriminate|].
        apply R. apply (after_valid_rng w1); auto. }
  destruct (arr_includes locked "scale"); cbn [negb].
  - apply wp_ret, Key; [apply after_refl | reflexivity | reflexivity].
  - apply wp_bind. unfold mutateScale. rewrite I3. do 2 apply wp_ret.
    apply Key; [apply after_refl | reflexivity | reflexivity].
Qed.

Lemma no_feedback_strategy parent temperature :
  (temperature >? 0.8) = false ->
  Strategy.type (chooseMutationStrategy parent temperature None)
  = chooseTypeForAspect (findWeakestAspect (Generation.fitness parent))
  /\ Strategy.intensity (chooseMutationStrategy parent temperature None)
     = 0.3 + temperature * 0.4.
Proof. intros T. unfold chooseMutationStrategy. rewrite T. now split. Qed.

(** X10. The first evolution of a session is always the same move.  For a
    mood with all fields in [0,1] and a creative temperature in [0,0.8],
    evolving Generation 0 without feedback is a harmonic mutation, explained
    as a lack of surprise; it sets the scale to C D E F# G A B, whatever the
    scale was, and leaves tempo, time signature, effects and pattern layers
    (hence every note that is played) as they were. *)
Theorem first_evolution_is_harmonic
    (renderCode : MusicParameters -> list SynthValue.t -> string)
    (renderId : Q -> Q -> string)
    (prompt : string) (mood : EmotionalVector) (temperature : Q) (w : World) :
  valid_emotion mood -> 0 <= temperature -> temperature <= 0.8 ->
  exists g0 w0 g1 w1,
    createInitialGeneration renderCode renderId prompt mood w = Ok g0 w0
    /\ evolve renderCode renderId g0 temperature None w0 = Ok g1 w1
    /\ Generation.mutations g1 = ["harmonic"]
    /\ analysis (Generation.creativeReasoning g1)
       = "It's a bit too predictable - needs unexpected moments."
    /\ scale (Generation.musicParams g1) = ["C"; "D"; "E"; "F#"; "G"; "A"; "B"]
    /\ tempo (Generation.musicParams g1) = tempo (Generation.musicParams g0)
    /\ timeSignature (Generation.musicParams g1)
       = timeSignature (Generation.musicParams g0)
    /\ effects (Generation.musicParams g1) = effects (Generation.musicParams g0)
    /\ patterns (Generation.musicParams g1) = patterns (Generation.musicParams g0).
Proof.
  intros V T0 T8.
  destruct (createInitialGeneration_spec renderCode renderId prompt mood w)
    as (p & wa & code & f & name & t & w0 & E0 & Sy & NH & Ef & Sh & E).
  destruct (initial_fitness mood prompt w p wa Sy V)
    as (er & co & i & su & tq & Ef' & Her & Hco & Hi & Hsu & Htq).
  rewrite Ef in Ef'. injection Ef' as ->.
  match type of E with
  | _ = Ok ?g _ => set (g0 := g) in *
  end.
  assert (W : findWeakestAspect (Generation.fitness g0) = kSurprise).
  { apply weakest_is_surprise; destruct Hsu as [S|S]; lra. }
  assert (H0 : heap_ok w0 (synths (Generation.musicParams g0))).
  { apply (same_heap_heap_ok wa); [exact Sh | apply Sy]. }
  destruct (evolve_spec renderCode renderId g0 temperature None w0 H0 NH)
    as (out & wb & code1 & f1 & name1 & t1 & w1 & E1 & H1 & NH1 & _ & _ & E2).
  assert (Tm : (temperature >? 0.8) = false) by now apply Qgtb_le.
  destruct (no_feedback_strategy g0 temperature Tm) as [Ty In].
  rewrite W in Ty. cbn [chooseTypeForAspect] in Ty.
  set (strat := chooseMutationStrategy g0 temperature None) in *.
  assert (I3 : (Strategy.intensity strat <? 0.3) = false).
  { rewrite In. apply Qltb_le. lra. }
  pose proof (applyMutation_harmonic p strat [] w0 Ty H0 I3) as Ha.
  pose proof (applyMutation_footprint p strat [] w0 H0 NH) as Hf.
  unfold wp in Ha, Hf. cbn [Generation.musicParams Generation.lockedElements g0] in E1.
  rewrite E1 in Ha, Hf. destruct Ha as (Sc & _).
  exists g0, w0. eexists _, w1. split; [exact E|]. split; [exact E2|].
  cbn [Generation.mutations Generation.creativeReasoning analysis
       Generation.musicParams g0].
  split; [now rewrite Ty|].
  split; [unfold analyzeParent; now rewrite W|].
  split.
  { rewrite Sc. cbn [arr_includes existsb].
    assert (I7 : (Strategy.intensity strat >? 0.7) = false).
    { rewrite In. apply Qgtb_le. lra. }
    now rewrite I7. }
  split; [apply (footprint_tempo _ _ _ _ _ Hf); rewrite Ty; discriminate|].
  split; [apply (footprint_timeSignature _ _ _ _ _ Hf)|].
  split; [apply (footprint_effects _ _ _ _ _ Hf); rewrite Ty; discriminate|].
  apply (footprint_patterns _ _ _ _ _ Hf); rewrite Ty; discriminate.
Qed.

Lemma first_evolution_is_harmonic_witness :
  valid_emotion validEmotionSample /\ 0 <= 0.5 /\ 0.5 <= 0.8
  /\ exists g0 w0 g1 w1,
       createInitialGeneration Sample.renderCode Sample.renderId "storm"
         validEmotionSample (Sample.heapWorld [0.3; 0.8; 0.6]) = Ok g0 w0
       /\ evolve Sample.renderCode Sample.renderId g0 0.5 None w0 = Ok g1 w1
       /\ Generation.mutations g1 = ["harmonic"]
       /\ scale (Generation.musicParams g1) = ["C"; "D"; "E"; "F#"; "G"; "A"; "B"].
Proof.
  assert (T0 : 0 <= 0.5) by lra.
  assert (T8 : 0.5 <= 0.8) by lra.
  split; [exact valid_emotion_sample|]. split; [exact T0|]. split; [exact T8|].
  destruct (first_evolution_is_harmonic Sample.renderCode Sample.renderId "storm"
              validEmotionSample 0.5 (Sample.heapWorld [0.3; 0.8; 0.6])
              valid_emotion_sample T0 T8)
    as (g0 & w0 & g1 & w1 & E0 & E1 & M & _ & S & _).
  exists g0, w0, g1, w1. now repeat split.
Defined.

(** X11. A feedback text of the simplification class ("simpler", "less")
    that is of no class of higher priority selects a structural mutation of
    intensity 0.5, which is below both thresholds of the structural case:
    [evolve] returns a child whose music is the parent's.  Tempo, key, scale,
    time signature, effects, pattern layers and the values of the synth
    voices are unchanged; only the lineage records the mutation. *)
Theorem simpler_feedback_changes_nothing
    (renderCode : MusicParameters -> list SynthValue.t -> string)
    (renderId : Q -> Q -> string)
    (parent : Generation.t) (temperature : Q) (fb : string) (w : World) :
  heap_ok w (synths (Generation.musicParams parent)) ->
  no_holes (patterns (Generation.musicParams parent)) ->
  Phrase.energy fb = false -> Phrase.darkening fb = false ->
  Phrase.simplification fb = true ->
  exists g w',
    evolve renderCode renderId parent temperature (Some fb) w = Ok g w'
    /\ Generation.mutations g = (Generation.mutations parent ++ ["structural"])%list
    /\ tempo (Generation.musicParams g) = tempo (Generation.musicParams parent)
    /\ key (Generation.musicParams g) = key (Generation.musicParams parent)
    /\ scale (Generation.musicParams g) = scale (Generation.musicParams parent)
    /\ timeSignature (Generation.musicParams g)
       = timeSignature (Generation.musicParams parent)
    /\ effects (Generation.musicParams g) = effects (Generation.musicParams parent)
    /\ patterns (Generation.musicParams g) = patterns (Generation.musicParams parent)
    /\ synthValues w' (synths (Generation.musicParams g))
       = synthValues w (synths (Generation.musicParams parent)).
Proof.
  intros H NH Pe Pd Ps.
  pose proof (parseFeedback_classes fb) as P. rewrite Pe, Pd, Ps in P.
  destruct (chooseMutationStrategy_feedback parent temperature fb _ _ P) as [Ty In].
  destruct (evolve_spec renderCode renderId parent temperature (Some fb) w H NH)
    as (out & w1 & code & f & name & t & w' & E1 & H1 & NH1 & _ & Sh & E2).
  set (strat := chooseMutationStrategy parent temperature (Some fb)) in *.
  pose proof (applyMutation_footprint (Generation.musicParams parent) strat
                (Generation.lockedElements parent) w H NH) as Hf.
  destruct (applyMutation_structural (Generation.musicParams parent) strat
              (Generation.lockedElements parent) w Ty H)
    as (out' & w1' & E1' & Pa).
  unfold wp in Hf. rewrite E1 in Hf, E1'. injection E1' as <- <-.
  rewrite In in Pa. change (0.5 >? 0.6) with false in Pa.
  change (0.5 >? 0.7) with false in Pa. cbn [andb] in Pa.
  eexists _, w'. split; [exact E2|].
  cbn [Generation.mutations Generation.musicParams].
  split; [now rewrite Ty|].
  split; [apply (footprint_tempo _ _ _ _ _ Hf); rewrite Ty; discriminate|].
  split; [apply (footprint_key _ _ _ _ _ Hf); rewrite Ty; discriminate|].
  split; [apply (footprint_scale _ _ _ _ _ Hf); rewrite Ty; discriminate|].
  split; [apply (footprint_timeSignature _ _ _ _ _ Hf)|].
  split; [apply (footprint_effects _ _ _ _ _ Hf); rewrite Ty; discriminate|].
  split; [rewrite Pa; now destruct (negb _)|].
  rewrite (same_heap_synthValues _ _ _ Sh).
  apply (footprint_synths _ _ _ _ _ Hf). rewrite Ty. discriminate.
Qed.

Lemma simpler_feedback_changes_nothing_witness :
  let parent := Sample.generation "gen_a" 4 in
  let w := Sample.heapWorld [0.9; 0.1; 0.9; 0.1] in
  heap_ok w (synths (Generation.musicParams parent))
  /\ no_holes (patterns (Generation.musicParams parent))
  /\ Phrase.energy "simpler, please" = false
  /\ Phrase.darkening "simpler, please" = false
  /\ Phrase.simplification "simpler, please" = true
  /\ exists g w',
       evolve Sample.renderCode Sample.renderId parent 0.5
         (Some "simpler, please") w = Ok g w'
       /\ Generation.mutations g = ["timbral"; "structural"]
       /\ patterns (Generation.musicParams g)
          = patterns (Generation.musicParams parent).
Proof.
  assert (H : heap_ok (Sample.heapWorld [0.9; 0.1; 0.9; 0.1])
                (synths (Generation.musicParams (Sample.generation "gen_a" 4)))).
  { repeat constructor. }
  assert (NH : no_holes
                 (patterns (Generation.musicParams (Sample.generation "gen_a" 4)))).
  { repeat constructor; now exists Sample.layer. }
  split; [exact H|]. split; [exact NH|].
  split; [reflexivity|]. split; [reflexivity|]. split; [reflexivity|].
  destruct (simpler_feedback_changes_nothing Sample.renderCode Sample.renderId
              (Sample.generation "gen_a" 4) 0.5 "simpler, please" _ H NH
              eq_refl eq_refl eq_refl)
    as (g & w' & E & M & _ & _ & _ & _ & _ & Pa & _).
  exists g, w'. now repeat split.
Defined.

(** ** Programs that draw from a tape of draws in [0,1) *)

Lemma fair_ret {A} (a : A) (P : A -> Prop) : P a -> fair (ret a) P.
Proof. intros H w _. apply wp_ret. split; [apply after_refl | exact H]. Qed.

Lemma fair_wp {A} (m : M A) (P : A -> Prop) w (post : A -> World -> Prop) :
  fair m P -> valid_rng w ->
  (forall a w', after w w' -> valid_rng w' -> P a -> post a w') ->
  wp m w post.
Proof.
  intros H V K. apply (wp_mono _ _ _ _ (H w V)). intros a w' [A1 Pa].
  apply K; [exact A1 | now apply (after_valid_rng w) | exact Pa].
Qed.

Lemma fair_bind {A B} (m : M A) (k : A -> M B) (P : A -> Prop) (Q : B -> Prop) :
  fair m P -> (forall a, P a -> fair (k a) Q) -> fair (bind m k) Q.
Proof.
  intros Hm Hk w V. apply wp_bind. apply (fair_wp _ _ _ _ Hm V).
  intros a w1 A1 V1 Pa. apply (fair_wp _ _ _ _ (Hk a Pa) V1).
  intros b w2 A2 _ Qb. split; [now apply (after_trans _ w1) | exact Qb].
Qed.

Lemma fair_weaken {A} (m : M A) (P Q : A -> Prop) :
  fair m P -> (forall a, P a -> Q a) -> fair m Q.
Proof.
  intros H K w V. apply (fair_wp _ _ _ _ H V). intros a w' ? _ ?. split; auto.
Qed.

Lemma fair_random : fair random (fun r => 0 <= r /\ r < 1).
Proof.
  intros w V. apply wp_random_valid. intros r w' A R. split; [exact A | auto].
Qed.

Lemma fair_andM (b : bool) (m : M bool) :
  fair m (fun _ => True) -> fair (andM b m) (fun _ => True).
Proof. destruct b; [easy | intros _; now apply fair_ret]. Qed.


Lemma fair_forPush {A} (body : nat -> M A) (P : nat -> A -> Prop) (n : nat) :
  (forall i, fair (body i) (P i)) ->
  forall start, fair (forPush n start body)
                  (fun xs => length xs = n
                             /\ forall k x, xs !! k = Some x -> P (start + k)%nat x).
Proof.
  intros H. induction n as [|n IH]; intros start.
  - apply fair_ret. split; [reflexivity|]. intros k x E. discriminate E.
  - cbn [forPush].
    apply (fair_bind _ _ (P start)); [apply H|]. intros x Hx.
    apply (fair_bind _ _ (fun xs => length xs = n
                                    /\ forall k y, xs !! k = Some y
                                                   -> P (S start + k)%nat y));
      [apply IH|]. intros xs [L F].
    apply fair_ret. split; [cbn; now rewrite L|].
    intros [|k] y E; cbn in E.
    + injection E as <-. now rewrite Nat.add_0_r.
    + rewrite Nat.add_succ_r. now apply F.
Qed.


(** ** Rhythmic mutations *)





(** A harmonic strategy of the selector has an intensity in [0.3,0.7], for
    a temperature that is not negative: neither the branch of [mutateScale]
    that changes one note nor the one for an intensity above 0.7 is in its
    reach. *)
Lemma harmonic_strategy_intensity parent temperature feedback :
  0 <= temperature ->
  Strategy.type (chooseMutationStrategy parent temperature feedback) = harmonic ->
  (Strategy.intensity (chooseMutationStrategy parent temperature feedback) <? 0.3)
  = false
  /\ (Strategy.intensity (chooseMutationStrategy parent temperature feedback) >? 0.7)
     = false.
Proof.
  intros T0. unfold chooseMutationStrategy.
  set (hints := match feedback with
                | Some text => if truthy text then parseFeedback text else None
                | None => None
                end).
  destruct hints as [[t i]|] eqn:Hh.
  - assert (R : exists fb, parseFeedback fb = Some (t, i)).
    { subst hints. destruct feedback as [text|]; [|discriminate].
      destruct (truthy text); [eauto | discriminate]. }
    destruct R as [fb R]. cbn.
    destruct (parseFeedback_range _ _ _ R) as [E|[E|[E|E]]];
      injection E as -> ->; try discriminate; now split.
  - destruct (temperature >? 0.8) eqn:T; cbn; [discriminate|].
    intros _. apply Qgtb_le in T. split; [apply Qltb_le | apply Qgtb_le]; lra.
Qed.

(** X12. Every harmonic evolution yields the same scale.  Whenever the
    selected strategy is harmonic, at a temperature that is not negative
    (in particular for a feedback text of the darkening class, "darker" or
    "sadder"), the child's scale is C D E F# G A B unless [scale] is locked,
    whatever the parent's scale was; unless [key] is locked, and with draws
    in [0,1), its key is one of the twelve chromatic roots or their minors;
    tempo, time signature, effects and pattern layers are the parent's. *)
Theorem harmonic_evolution_outcome
    (renderCode : MusicParameters -> list SynthValue.t -> string)
    (renderId : Q -> Q -> string)
    (parent : Generation.t) (temperature : Q) (feedback : option string)
    (w : World) :
  heap_ok w (synths (Generation.musicParams parent)) ->
  no_holes (patterns (Generation.musicParams parent)) ->
  0 <= temperature ->
  Strategy.type (chooseMutationStrategy parent temperature feedback) = harmonic ->
  exists g w',
    evolve renderCode renderId parent temperature feedback w = Ok g w'
    /\ Generation.mutations g = (Generation.mutations parent ++ ["harmonic"])%list
    /\ (~ In "scale" (Generation.lockedElements parent) ->
        scale (Generation.musicParams g) = ["C"; "D"; "E"; "F#"; "G"; "A"; "B"])
    /\ (~ In "key" (Generation.lockedElements parent) -> valid_rng w ->
        In (key (Generation.musicParams g))
           (chromatic ++ map (fun k => k ++ "m") chromatic))
    /\ tempo (Generation.musicParams g) = tempo (Generation.musicParams parent)
    /\ timeSignature (Generation.musicParams g)
       = timeSignature (Generation.musicParams parent)
    /\ effects (Generation.musicParams g) = effects (Generation.musicParams parent)
    /\ patterns (Generation.musicParams g) = patterns (Generation.musicParams parent).
Proof.
  intros H NH T0 Ty.
  destruct (harmonic_strategy_intensity parent temperature feedback T0 Ty)
    as [I3 I7].
  destruct (evolve_spec renderCode renderId parent temperature feedback w H NH)
    as (out & w1 & code & f & name & t & w' & E1 & H1 & NH1 & _ & Sh & E2).
  set (strat := chooseMutationStrategy parent temperature feedback) in *.
  pose proof (applyMutation_harmonic (Generation.musicParams parent) strat
                (Generation.lockedElements parent) w Ty H I3) as Ha.
  pose proof (applyMutation_footprint (Generation.musicParams parent) strat
                (Generation.lockedElements parent) w H NH) as Hf.
  unfold wp in Ha, Hf. rewrite E1 in Ha, Hf.
  destruct Ha as (Sc & _ & _ & Ke).
  eexists _, w'. split; [exact E2|].
  cbn [Generation.mutations Generation.musicParams].
  split; [now rewrite Ty|].
  split.
  { intros NL. rewrite Sc.
    assert (A : arr_includes (Generation.lockedElements parent) "scale" = false).
    { apply not_true_iff_false. intros A. now apply arr_includes_In in A. }
    now rewrite A, I7. }
  split.
  { intros NL V. apply Ke; [|exact V].
    apply not_true_iff_false. intros A. now apply arr_includes_In in A. }
  split; [apply (footprint_tempo _ _ _ _ _ Hf); rewrite Ty; discriminate|].
  split; [apply (footprint_timeSignature _ _ _ _ _ Hf)|].
  split; [apply (footprint_effects _ _ _ _ _ Hf); rewrite Ty; discriminate|].
  apply (footprint_patterns _ _ _ _ _ Hf); rewrite Ty; discriminate.
Qed.

Lemma harmonic_evolution_outcome_witness :
  let parent := Sample.generation "gen_a" 4 in
  let w := Sample.heapWorld [0.9; 0.1; 0.9; 0.1] in
  heap_ok w (synths (Generation.musicParams parent))
  /\ no_holes (patterns (Generation.musicParams parent))
  /\ 0 <= 0.5
  /\ Strategy.type (chooseMutationStrategy parent 0.5 (Some "a bit darker"))
     = harmonic
  /\ ~ In "scale" (Generation.lockedElements parent)
  /\ exists g w',
       evolve Sample.renderCode Sample.renderId parent 0.5
         (Some "a bit darker") w = Ok g w'
       /\ scale (Generation.musicParams g) = ["C"; "D"; "E"; "F#"; "G"; "A"; "B"].
Proof.
  assert (H : heap_ok (Sample.heapWorld [0.9; 0.1; 0.9; 0.1])
                (synths (Generation.musicParams (Sample.generation "gen_a" 4)))).
  { repeat constructor. }
  assert (NH : no_holes
                 (patterns (Generation.musicParams (Sample.generation "gen_a" 4)))).
  { repeat constructor; now exists Sample.layer. }
  assert (T0 : 0 <= 0.5) by lra.
  assert (NL : ~ In "scale" (Generation.lockedElements (Sample.generation "gen_a" 4))).
  { intros [E|[]]. discriminate E. }
  split; [exact H|]. split; [exact NH|]. split; [exact T0|].
  split; [reflexivity|]. split; [exact NL|].
  destruct (harmonic_evolution_outcome Sample.renderCode Sample.renderId
              (Sample.generation "gen_a" 4) 0.5 (Some "a bit darker") _ H NH T0
              eq_refl)
    as (g & w' & E & _ & Sc & _).
  exists g, w'. split; [exact E|]. exact (Sc NL).
Defined.




(** ** Radical mutations *)

Lemma generateRadicalScale_fair :
  fair generateRadicalScale
    (fun sc => (5 <= length sc <= 7)%nat /\ Forall (fun n => In n chromatic) sc).
Proof.
  unfold generateRadicalScale.
  apply (fair_bind _ _ _ _ fair_random). intros r [R0 R1].
  assert (L : (0 <= floor_index (r * 3))%Z).
  { unfold floor_index. change 0%Z with (Qfloor 0). apply Qfloor_resp_le. lra. }
  assert (U : (floor_index (r * 3) < 3)%Z).
  { unfold floor_index. rewrite Zlt_Qlt.
    apply (Qle_lt_trans _ (r * 3)); [apply Qfloor_le|].
    change (inject_Z 3) with 3. lra. }
  eapply fair_weaken.
  - apply (fair_forPush _ (fun _ n => In n chromatic)). intros _.
    apply (fair_bind _ _ _ _ fair_random). intros r' R'. apply fair_ret.
    apply (pick_in_range "undefined" chromatic r'); [discriminate | exact R'].
  - intros sc [Len F]. split; [lia|].
    apply Forall_forall. intros n Hn.
    apply list_elem_of_lookup_1 in Hn as [k Hk].
    exact (F k n Hk).
Qed.

(** A radical mutation with [scale] and [tempo] unlocked. *)
Lemma applyMutation_radical params strat locked w :
  Strategy.type strat = radical -> heap_ok w (synths params) ->
  arr_includes locked "scale" = false -> arr_includes locked "tempo" = false ->
  valid_rng w ->
  wp (applyMutation params strat locked) w
     (fun out _ =>
        (5 <= length (scale out) <= 7)%nat
        /\ Forall (fun n => In n chromatic) (scale out)
        /\ 40 <= tempo out /\ tempo out < 200).
Proof.
  intros T H Ls Lt V. unfold applyMutation.
  apply wp_bind, jsonClone_wp; [exact H|]. intros fresh w1 X _ _.
  pose proof (extends_valid_rng _ _ X V) as V1.
  rewrite T, Ls, Lt. cbn [negb].
  apply wp_bind. apply wp_bind.
  apply (fair_wp _ _ _ _ generateRadicalScale_fair V1).
  intros sc w2 A2 V2 [Len F]. apply wp_ret.
  apply wp_bind, wp_random_valid. intros r w3 A3 R. apply wp_ret.
  destruct (R V2) as [R0 R1]. cbn [scale tempo set_tempo set_scale].
  repeat split; try lia; try assumption; lra.
Qed.

(** X14. Above a creative temperature of 0.8, and without feedback, every
    evolution is radical, whatever the fitness of the parent.  With nothing
    locked and draws in [0,1), the child's scale has five to seven notes,
    each one of the twelve chromatic names, and its tempo is in [40,200);
    the key, the time signature, the effects and the pattern layers are the
    parent's: the notes that are played do not change. *)
Theorem high_temperature_is_radical
    (renderCode : MusicParameters -> list SynthValue.t -> string)
    (renderId : Q -> Q -> string)
    (parent : Generation.t) (temperature : Q) (w : World) :
  heap_ok w (synths (Generation.musicParams parent)) ->
  no_holes (patterns (Generation.musicParams parent)) ->
  0.8 < temperature ->
  Generation.lockedElements parent = [] ->
  valid_rng w ->
  exists g w',
    evolve renderCode renderId parent temperature None w = Ok g w'
    /\ Generation.mutations g = (Generation.mutations parent ++ ["radical"])%list
    /\ (5 <= length (scale (Generation.musicParams g)) <= 7)%nat
    /\ Forall (fun n => In n chromatic) (scale (Generation.musicParams g))
    /\ (40 <= tempo (Generation.musicParams g)
        /\ tempo (Generation.musicParams g) < 200)
    /\ key (Generation.musicParams g) = key (Generation.musicParams parent)
    /\ timeSignature (Generation.musicParams g)
       = timeSignature (Generation.musicParams parent)
    /\ effects (Generation.musicParams g) = effects (Generation.musicParams parent)
    /\ patterns (Generation.musicParams g) = patterns (Generation.musicParams parent).
Proof.
  intros H NH T Lo V.
  destruct (evolve_spec renderCode renderId parent temperature None w H NH)
    as (out & w1 & code & f & name & t & w' & E1 & H1 & NH1 & _ & Sh & E2).
  assert (Ty : Strategy.type (chooseMutationStrategy parent temperature None)
               = radical).
  { unfold chooseMutationStrategy. apply Qgtb_lt in T. now rewrite T. }
  set (strat := chooseMutationStrategy parent temperature None) in *.
  rewrite Lo in E1.
  pose proof (applyMutation_radical (Generation.musicParams parent) strat []
                w Ty H eq_refl eq_refl V) as Hr.
  pose proof (applyMutation_footprint (Generation.musicParams parent) strat []
                w H NH) as Hf.
  unfold wp in Hr, Hf. rewrite E1 in Hr, Hf.
  destruct Hr as (Len & F & T0 & T1).
  eexists _, w'. split; [exact E2|].
  cbn [Generation.mutations Generation.musicParams].
  split; [now rewrite Ty|].
  split; [exact Len|]. split; [exact F|]. split; [now split|].
  split; [apply (footprint_key _ _ _ _ _ Hf); rewrite Ty; discriminate|].
  split; [apply (footprint_timeSignature _ _ _ _ _ Hf)|].
  split; [apply (footprint_effects _ _ _ _ _ Hf); rewrite Ty; discriminate|].
  apply (footprint_patterns _ _ _ _ _ Hf); rewrite Ty; discriminate.
Qed.

Lemma high_temperature_is_radical_witness :
  let parent := Sample.unlocked "gen_a" in
  let w := Sample.heapWorld [0.4; 0.1; 0.2; 0.3; 0.5; 0.7; 0.9; 0.6] in
  heap_ok w (synths (Generation.musicParams parent))
  /\ no_holes (patterns (Generation.musicParams parent))
  /\ 0.8 < 0.9
  /\ valid_rng w
  /\ exists g w',
       evolve Sample.renderCode Sample.renderId parent 0.9 None w = Ok g w'
       /\ Generation.mutations g = ["radical"]
       /\ (5 <= length (scale (Generation.musicParams g)) <= 7)%nat
       /\ patterns (Generation.musicParams g)
          = patterns (Generation.musicParams parent).
Proof.
  cbv zeta.
  assert (H : heap_ok (Sample.heapWorld [0.4; 0.1; 0.2; 0.3; 0.5; 0.7; 0.9; 0.6])
                (synths (Generation.musicParams (Sample.unlocked "gen_a")))).
  { repeat constructor. }
  assert (NH : no_holes (patterns (Generation.musicParams (Sample.unlocked "gen_a")))).
  { repeat constructor. now exists Sample.layer. }
  assert (T : 0.8 < 0.9) by lra.
  assert (V : valid_rng (Sample.heapWorld [0.4; 0.1; 0.2; 0.3; 0.5; 0.7; 0.9; 0.6])).
  { unfold valid_rng. cbn. repeat constructor; cbn; lra. }
  split; [exact H|]. split; [exact NH|]. split; [exact T|]. split; [exact V|].
  destruct (high_temperature_is_radical Sample.renderCode Sample.renderId
              (Sample.unlocked "gen_a") 0.9 _ H NH T eq_refl V)
    as (g & w' & E & M & L & _ & _ & _ & _ & _ & Pa).
  exists g, w'. now repeat split.
Defined.

(** ** The layers through a mutation *)

Lemma removelast_length {A} (l : list A) : length (removelast l) = pred (length l).
Proof.
  induction l as [|x l IH]; [reflexivity|].
  cbn [removelast]. destruct l as [|y l]; [reflexivity|].
  cbn [length] in *. now rewrite IH.
Qed.

(** No mutation that the selector can ask for adds a layer, and none removes
    the last layer. *)
Lemma applyMutation_layers params strat locked w :
  heap_ok w (synths params) -> no_holes (patterns params) ->
  (Strategy.type strat = structural -> (Strategy.intensity strat >? 0.7) = false) ->
  wp (applyMutation params strat locked) w
     (fun out _ =>
        (length (patterns out) <= length (patterns params))%nat
        /\ ((1 <= length (patterns params))%nat -> (1 <= length (patterns out))%nat)).
Proof.
  intros H NH Mild.
  pose proof (applyMutation_footprint params strat locked w H NH) as Hf.
  destruct (Strategy.type strat) eqn:T.
  - apply (wp_mono _ _ _ _ Hf). intros out w' F.
    rewrite (footprint_patterns _ _ _ _ _ F); [lia | congruence | congruence].
  - clear Hf. unfold applyMutation.
    apply wp_bind, jsonClone_wp; [exact H|]. intros fresh w1 X V H1.
    rewrite T. apply wp_bind.
    assert (Pat : forall (p : MusicParameters) w2,
              patterns p = patterns params ->
              wp (if negb (arr_includes locked "patterns")
                  then let* v := mapM (mutatePattern (Strategy.intensity strat))
                                   (patterns params) in
                       ret (set_patterns p v)
                  else ret p) w2
                 (fun out _ =>
                    (length (patterns out) <= length (patterns params))%nat
                    /\ ((1 <= length (patterns params))%nat ->
                        (1 <= length (patterns out))%nat))).
    { intros p w2 Pp. destruct (arr_includes locked "patterns"); cbn [negb].
      - apply wp_ret. rewrite Pp. lia.
      - rng_next (mutatePatterns_rng (Strategy.intensity strat) _ NH).
        apply wp_ret. cbn [patterns set_patterns].
        match goal with K : _ /\ length _ = _ |- _ => destruct K as [_ ->] end.
        lia. }
    destruct (arr_includes locked "tempo"); cbn [negb].
    + apply wp_ret, Pat. reflexivity.
    + rng_next (mutateTempo_rng (tempo params) (Strategy.intensity strat)).
      apply wp_ret, Pat. reflexivity.
  - apply (wp_mono _ _ _ _ Hf). intros out w' F.
    rewrite (footprint_patterns _ _ _ _ _ F); [lia | congruence | congruence].
  - clear Hf.
    destruct (applyMutation_structural params strat locked w T H)
      as (out & w' & E & Pa).
    apply (wp_intro _ _ _ _ _ E). rewrite Pa, (Mild eq_refl). cbn [andb].
    destruct (negb (arr_includes locked "patterns")); [|lia].
    destruct (Strategy.intensity strat >? 0.6); cbn [andb]; [|lia].
    destruct (1 <? length (patterns params))%nat eqn:L; [|lia].
    apply Nat.ltb_lt in L. rewrite removelast_length. lia.
  - apply (wp_mono _ _ _ _ Hf). intros out w' F.
    rewrite (footprint_patterns _ _ _ _ _ F); [lia | congruence | congruence].
  - apply (wp_mono _ _ _ _ Hf). intros out w' F.
    rewrite (footprint_patterns _ _ _ _ _ F); [lia | congruence | congruence].
Qed.

(** One step of [evolve], as a step of a line of descent. *)
Lemma evolve_descent renderCode renderId parent temperature feedback w :
  heap_ok w (synths (Generation.musicParams parent)) ->
  no_holes (patterns (Generation.musicParams parent)) ->
  exists g w',
    evolve renderCode renderId parent temperature feedback w = Ok g w'
    /\ heap_ok w' (synths (Generation.musicParams g))
    /\ no_holes (patterns (Generation.musicParams g))
    /\ descent parent [g].
Proof.
  intros H NH.
  destruct (evolve_spec renderCode renderId parent temperature feedback w H NH)
    as (out & w1 & code & f & name & t & w' & E1 & H1 & NH1 & _ & Sh & E2).
  set (strat := chooseMutationStrategy parent temperature feedback) in *.
  pose proof (applyMutation_footprint (Generation.musicParams parent) strat
                (Generation.lockedElements parent) w H NH) as Hf.
  pose proof (applyMutation_layers (Generation.musicParams parent) strat
                (Generation.lockedElements parent) w H NH
                (structural_strategy_is_mild parent temperature feedback)) as Hl.
  unfold wp in Hf, Hl. rewrite E1 in Hf, Hl. destruct Hl as [L1 L2].
  eexists _, w'. split; [exact E2|].
  cbn [Generation.musicParams descent Generation.parentId
       Generation.generationNumber Generation.mutations Generation.prompt
       Generation.mood Generation.lockedElements Generation.branch].
  split; [now apply (same_heap_heap_ok w1)|]. split; [exact NH1|].
  repeat (split; [reflexivity|]).
  split; [rewrite length_app; cbn; lia|].
  repeat (split; [reflexivity|]).
  split; [apply (footprint_timeSignature _ _ _ _ _ Hf)|].
  split.
  { pose proof (f_equal (@length _) (footprint_voice_types _ _ _ _ _ Hf)) as L.
    now rewrite !length_map in L. }
  split; [exact L1|]. split; [exact L2 | exact I].
Qed.

(** ** More on the session store *)

Lemma evolveCurrentGeneration_spec renderCode renderId feedback st w current :
  currentOf (session st) = Some current ->
  heap_ok w (synths (Generation.musicParams current)) ->
  no_holes (patterns (Generation.musicParams current)) ->
  exists child w1,
    evolve renderCode renderId current
      (creativeTemperature (Session.settings (session st))) feedback w
    = Ok child w1
    /\ heap_ok w1 (synths (Generation.musicParams child))
    /\ no_holes (patterns (Generation.musicParams child))
    /\ descent current [child]
    /\ evolveCurrentGeneration renderCode renderId feedback st w
       = ({| session := appendGeneration (session st) child (fst (tick w1));
             isGenerating := false |},
          Ok child (snd (tick w1))).
Proof.
  intros C H NH.
  destruct (evolve_descent renderCode renderId current
              (creativeTemperature (Session.settings (session st))) feedback w
              H NH) as (child & w1 & E & H1 & NH1 & D).
  exists child, w1. repeat (split; [assumption|]).
  unfold evolveCurrentGeneration. unfold currentOf in C. rewrite C, E.
  now destruct (tick w1).
Qed.

(** X15. When the session points to a generation, [evolveCurrentGeneration]
    returns a child of that generation, appends it to the generations of the
    session and moves the pointer to it; the flag [isGenerating] is false
    afterwards, and the identity, start time, prompt, settings and memory of
    the session are untouched. *)
Theorem evolveCurrentGeneration_appends_child
    (renderCode : MusicParameters -> list SynthValue.t -> string)
    (renderId : Q -> Q -> string)
    (feedback : option string) (st : Stores) (w : World)
    (current : Generation.t) :
  currentOf (session st) = Some current ->
  heap_ok w (synths (Generation.musicParams current)) ->
  no_holes (patterns (Generation.musicParams current)) ->
  exists child st' w',
    evolveCurrentGeneration renderCode renderId feedback st w = (st', Ok child w')
    /\ Generation.parentId child = Some (Session.currentGeneration (session st))
    /\ Generation.generationNumber child = Generation.generationNumber current + 1
    /\ Session.generations (session st')
       = (Session.generations (session st) ++ [child])%list
    /\ Session.currentGeneration (session st') = Generation.id child
    /\ isGenerating st' = false
    /\ Session.id (session st') = Session.id (session st)
    /\ Session.startTime (session st') = Session.startTime (session st)
    /\ Session.initialPrompt (session st') = Session.initialPrompt (session st)
    /\ Session.settings (session st') = Session.settings (session st)
    /\ Session.memory (session st') = Session.memory (session st).
Proof.
  intros C H NH.
  destruct (evolveCurrentGeneration_spec renderCode renderId feedback st w
              current C H NH)
    as (child & w1 & _ & _ & _ & D & E).
  destruct D as (P & N & _).
  eexists child, _, _. split; [exact E|].
  unfold currentOf in C. apply find_some in C as [_ C].
  apply String.eqb_eq in C. rewrite <- C.
  now repeat split.
Qed.

Lemma evolveCurrentGeneration_appends_child_witness :
  let st := {| session := Sample.sessionAt "gen_a" [Sample.generation "gen_a" 0];
               isGenerating := false |} in
  let w := Sample.heapWorld [0.9; 0.1; 0.9; 0.1] in
  currentOf (session st) = Some (Sample.generation "gen_a" 0)
  /\ heap_ok w (synths (Generation.musicParams (Sample.generation "gen_a" 0)))
  /\ no_holes (patterns (Generation.musicParams (Sample.generation "gen_a" 0)))
  /\ exists child st' w',
       evolveCurrentGeneration Sample.renderCode Sample.renderId (Some "faster")
         st w = (st', Ok child w')
       /\ Generation.parentId child = Some "gen_a"
       /\ Session.generations (session st')
          = [Sample.generation "gen_a" 0; child]
       /\ Session.currentGeneration (session st') = Generation.id child.
Proof.
  cbv zeta.
  assert (H : heap_ok (Sample.heapWorld [0.9; 0.1; 0.9; 0.1])
                (synths (Generation.musicParams (Sample.generation "gen_a" 0)))).
  { repeat constructor. }
  assert (NH : no_holes
                 (patterns (Generation.musicParams (Sample.generation "gen_a" 0)))).
  { repeat constructor; now exists Sample.layer. }
  split; [reflexivity|]. split; [exact H|]. split; [exact NH|].
  destruct (evolveCurrentGeneration_appends_child Sample.renderCode Sample.renderId
              (Some "faster")
              {| session := Sample.sessionAt "gen_a" [Sample.generation "gen_a" 0];
                 isGenerating := false |} _ (Sample.generation "gen_a" 0)
              eq_refl H NH)
    as (child & st' & w' & E & P & _ & G & C & _).
  exists child, st', w'. now repeat split.
Defined.

Lemma last_cons_default {A} (x : A) (l : list A) (d : A) :
  List.last (x :: l) d = List.last l x.
Proof.
  revert x d. induction l as [|y l IH]; intros x d; [reflexivity|].
  change (List.last (x :: y :: l) d) with (List.last (y :: l) d).
  now rewrite (IH y d), (IH y x).
Qed.

(** The loop of [runAutonomousEvolution] runs to its end. *)
Lemma autonomousLoop_spec renderCode renderId temperature n :
  forall current s w,
    heap_ok w (synths (Generation.musicParams current)) ->
    no_holes (patterns (Generation.musicParams current)) ->
    exists gens s' w',
      autonomousLoop renderCode renderId n temperature current s w
      = (s', Ok gens w')
      /\ length gens = n
      /\ descent current gens
      /\ Session.generations s' = (Session.generations s ++ gens)%list
      /\ Session.currentGeneration s'
         = List.last (map Generation.id gens) (Session.currentGeneration s)
      /\ Session.id s' = Session.id s
      /\ Session.startTime s' = Session.startTime s
      /\ Session.initialPrompt s' = Session.initialPrompt s
      /\ Session.settings s' = Session.settings s
      /\ Session.memory s' = Session.memory s.
Proof.
  induction n as [|n IH]; intros current s w H NH.
  - exists [], s, w. cbn. rewrite app_nil_r. now repeat split.
  - destruct (evolve_descent renderCode renderId current temperature None w H NH)
      as (g & w1 & E & H1 & NH1 & D).
    pose proof (tick_same_heap w1) as Sh.
    destruct (tick w1) as [t w2] eqn:Tk. cbn [snd] in Sh.
    destruct (IH g (appendGeneration s g t) w2
                (same_heap_heap_ok _ _ _ Sh H1) NH1)
      as (rest & s' & w3 & E' & Len & D' & G & C & I1 & I2 & I3 & I4 & I5).
    exists (g :: rest), s', w3. cbn [autonomousLoop]. rewrite E, Tk, E'.
    split; [reflexivity|]. split; [cbn; now rewrite Len|].
    split.
    { cbn [descent] in D |- *. destruct D as (? & ? & ? & ? & ? & ? & ? & ? & ? & ? & ? & _).
      repeat (split; [assumption|]). exact D'. }
    split; [rewrite G; cbn; now rewrite <- app_assoc|].
    split; [rewrite C; cbn [map appendGeneration Session.currentGeneration];
            now rewrite last_cons_default|].
    now repeat split.
Qed.

(** X16. When the session points to a generation, [runAutonomousEvolution]
    with [n] as the number of generations returns a line of descent from that
    generation, of as many generations as the least integer not below [n]
    (none for [n] at most 0): each one is the child of the one before, and
    along the line the time signature and the number of synth voices never
    change, the number of layers never grows and never falls to zero.  The
    generations are appended to the session in order, the pointer ends on
    the last one, and the settings and the memory are untouched. *)
Theorem autonomous_run_is_a_line_of_descent
    (renderCode : MusicParameters -> list SynthValue.t -> string)
    (renderId : Q -> Q -> string)
    (numGenerations : Q) (st : Stores) (w : World) (current : Generation.t) :
  currentOf (session st) = Some current ->
  heap_ok w (synths (Generation.musicParams current)) ->
  no_holes (patterns (Generation.musicParams current)) ->
  exists gens st' w',
    runAutonomousEvolution renderCode renderId numGenerations st w
    = (st', Ok gens w')
    /\ length gens = Z.to_nat (Qceiling numGenerations)
    /\ descent current gens
    /\ Session.generations (session st')
       = (Session.generations (session st) ++ gens)%list
    /\ Session.currentGeneration (session st')
       = Generation.id (List.last gens current)
    /\ isGenerating st' = false
    /\ Session.settings (session st') = Session.settings (session st)
    /\ Session.memory (session st') = Session.memory (session st).
Proof.
  intros C H NH.
  destruct (autonomousLoop_spec renderCode renderId
              (creativeTemperature (Session.settings (session st)))
              (Z.to_nat (Qceiling numGenerations)) current (session st) w H NH)
    as (gens & s' & w' & E & Len & D & G & Cu & _ & _ & _ & Se & Me).
  exists gens, {| session := s'; isGenerating := false |}, w'.
  unfold runAutonomousEvolution. unfold currentOf in C. rewrite C, E.
  split; [reflexivity|]. cbn [session isGenerating].
  repeat (split; [assumption|]).
  split; [|now repeat split].
  rewrite Cu. apply find_some in C as [_ C]. apply String.eqb_eq in C.
  rewrite <- C. clear. generalize current.
  induction gens as [|g gens IH]; intros d; [reflexivity|].
  cbn [map]. rewrite !last_cons_default. apply IH.
Qed.

Lemma autonomous_run_is_a_line_of_descent_witness :
  let st := {| session := Sample.sessionAt "gen_a" [Sample.unlocked "gen_a"];
               isGenerating := false |} in
  let w := Sample.heapWorld [0.9; 0.1; 0.9; 0.1] in
  currentOf (session st) = Some (Sample.unlocked "gen_a")
  /\ heap_ok w (synths (Generation.musicParams (Sample.unlocked "gen_a")))
  /\ no_holes (patterns (Generation.musicParams (Sample.unlocked "gen_a")))
  /\ exists gens st' w',
       runAutonomousEvolution Sample.renderCode Sample.renderId 2.5 st w
       = (st', Ok gens w')
       /\ length gens = 3%nat
       /\ descent (Sample.unlocked "gen_a") gens
       /\ Session.generations (session st') = (Sample.unlocked "gen_a" :: gens).
Proof.
  cbv zeta.
  assert (H : heap_ok (Sample.heapWorld [0.9; 0.1; 0.9; 0.1])
                (synths (Generation.musicParams (Sample.unlocked "gen_a")))).
  { repeat constructor. }
  assert (NH : no_holes (patterns (Generation.musicParams (Sample.unlocked "gen_a")))).
  { repeat constructor; now exists Sample.layer. }
  split; [reflexivity|]. split; [exact H|]. split; [exact NH|].
  destruct (autonomous_run_is_a_line_of_descent Sample.renderCode Sample.renderId
              2.5
              {| session := Sample.sessionAt "gen_a" [Sample.unlocked "gen_a"];
                 isGenerating := false |} _ (Sample.unlocked "gen_a")
              eq_refl H NH)
    as (gens & st' & w' & E & L & D & G & _).
  exists gens, st', w'. now repeat split.
Defined.

Lemma find_lockFirst name locks gens g :
  find (fun g => String.eqb (Generation.id g) name) gens = Some g ->
  find (fun g => String.eqb (Generation.id g) name) (lockFirst name locks gens)
  = Some (relocked g locks).
Proof.
  induction gens as [|x gens IH]; [discriminate|]. cbn [find lockFirst].
  destruct (String.eqb (Generation.id x) name) eqn:E.
  - intros [= <-]. cbn [find Generation.id]. now rewrite E.
  - intros F. cbn [find]. rewrite E. now apply IH.
Qed.

(** X17. Locks given as feedback on the current generation bind the next
    evolution.  After [addFeedback] with [lockedElements] for the generation
    the session points to, [evolveCurrentGeneration] returns a child that
    carries these locks, and in which every locked field among scale, key,
    tempo, patterns, effects and synths has the value it has in the current
    generation, whatever mutation is selected. *)
Theorem feedback_locks_bind_next_evolution
    (renderCode : MusicParameters -> list SynthValue.t -> string)
    (renderId : Q -> Q -> string)
    (fbk : UserFeedback.t) (locks : list string) (text : option string)
    (st : Stores) (w : World) (current : Generation.t) :
  currentOf (session st) = Some current ->
  UserFeedback.generationId fbk = Session.currentGeneration (session st) ->
  UserFeedback.lockedElements fbk = Some locks ->
  heap_ok w (synths (Generation.musicParams current)) ->
  no_holes (patterns (Generation.musicParams current)) ->
  exists child st' w',
    evolveCurrentGeneration renderCode renderId text
      (fst (addFeedback fbk st w)) (snd (addFeedback fbk st w))
    = (st', Ok child w')
    /\ Generation.parentId child = Some (Generation.id current)
    /\ Generation.lockedElements child = locks
    /\ (In "scale" locks ->
        scale (Generation.musicParams child) = scale (Generation.musicParams current))
    /\ (In "key" locks ->
        key (Generation.musicParams child) = key (Generation.musicParams current))
    /\ (In "tempo" locks ->
        tempo (Generation.musicParams child) = tempo (Generation.musicParams current))
    /\ (In "patterns" locks ->
        patterns (Generation.musicParams child)
        = patterns (Generation.musicParams current))
    /\ (In "effects" locks ->
        effects (Generation.musicParams child)
        = effects (Generation.musicParams current))
    /\ (In "synths" locks ->
        synthValues w' (synths (Generation.musicParams child))
        = synthValues w (synths (Generation.musicParams current))).
Proof.
  intros C Id Lk H NH.
  pose proof (tick_same_heap w) as Sh0.
  unfold addFeedback. unfold currentOf in C. rewrite Id, C, Lk.
  destruct (tick w) as [t0 w0]. cbn [fst snd] in *.
  set (st1 := {| session := _; isGenerating := _ |}).
  assert (C1 : currentOf (session st1) = Some (relocked current locks)).
  { unfold currentOf, st1. cbn [session Session.generations Session.currentGeneration].
    now apply find_lockFirst. }
  pose proof (same_heap_heap_ok _ _ _ Sh0 H) as H0.
  destruct (evolve_spec renderCode renderId (relocked current locks)
              (creativeTemperature (Session.settings (session st1))) text w0
              H0 NH)
    as (out & w1 & code & f & name & t & w2 & E1 & H1 & NH1 & _ & Sh & E2).
  pose proof (applyMutation_mutated (Generation.musicParams current)
                (chooseMutationStrategy (relocked current locks)
                   (creativeTemperature (Session.settings (session st1))) text)
                locks w0 H0 NH) as Mu.
  cbn [relocked Generation.musicParams Generation.lockedElements] in E1.
  unfold wp in Mu. rewrite E1 in Mu.
  pose proof (tick_same_heap w2) as Sh2.
  destruct (evolveCurrentGeneration_spec renderCode renderId text st1 w0
              (relocked current locks) C1 H0 NH)
    as (child & w2' & Ev & _ & _ & _ & E).
  rewrite E2 in Ev. injection Ev as <- <-.
  eexists _, _, _. split; [exact E|].
  cbn [Generation.parentId Generation.lockedElements Generation.musicParams
       relocked Generation.id].
  split; [reflexivity|]. split; [reflexivity|].
  split; [apply (mutated_scale _ _ _ _ _ _ Mu)|].
  split; [apply (mutated_key _ _ _ _ _ _ Mu)|].
  split; [apply (mutated_tempo _ _ _ _ _ _ Mu)|].
  split; [apply (mutated_patterns _ _ _ _ _ _ Mu)|].
  split; [apply (mutated_effects _ _ _ _ _ _ Mu)|].
  intros L.
  rewrite (same_heap_synthValues _ _ _ Sh2), (same_heap_synthValues _ _ _ Sh),
    (mutated_synths _ _ _ _ _ _ Mu L).
  apply (same_heap_synthValues _ _ _ Sh0).
Qed.

Lemma feedback_locks_bind_next_evolution_witness :
  let st := {| session := Sample.sessionAt "gen_a" [Sample.unlocked "gen_a"];
               isGenerating := false |} in
  let w := Sample.heapWorld [0.1; 0.5; 0.5; 0.5] in
  let fbk :=
    {| UserFeedback.generationId := "gen_a"; UserFeedback.timestamp := 5;
       UserFeedback.rating := None; UserFeedback.emotionalResponse := None;
       UserFeedback.lockedElements := Some ["tempo"];
       UserFeedback.suggestions := None; UserFeedback.redirect := None |} in
  currentOf (session st) = Some (Sample.unlocked "gen_a")
  /\ heap_ok w (synths (Generation.musicParams (Sample.unlocked "gen_a")))
  /\ no_holes (patterns (Generation.musicParams (Sample.unlocked "gen_a")))
  /\ exists child st' w',
       evolveCurrentGeneration Sample.renderCode Sample.renderId (Some "faster")
         (fst (addFeedback fbk st w)) (snd (addFeedback fbk st w))
       = (st', Ok child w')
       /\ Generation.lockedElements child = ["tempo"]
       /\ tempo (Generation.musicParams child) = 120.
Proof.
  cbv zeta.
  assert (H : heap_ok (Sample.heapWorld [0.1; 0.5; 0.5; 0.5])
                (synths (Generation.musicParams (Sample.unlocked "gen_a")))).
  { repeat constructor. }
  assert (NH : no_holes (patterns (Generation.musicParams (Sample.unlocked "gen_a")))).
  { repeat constructor; now exists Sample.layer. }
  split; [reflexivity|]. split; [exact H|]. split; [exact NH|].
  destruct (feedback_locks_bind_next_evolution Sample.renderCode Sample.renderId
              {| UserFeedback.generationId := "gen_a"; UserFeedback.timestamp := 5;
                 UserFeedback.rating := None; UserFeedback.emotionalResponse := None;
                 UserFeedback.lockedElements := Some ["tempo"];
                 UserFeedback.suggestions := None; UserFeedback.redirect := None |}
              ["tempo"] (Some "faster")
              {| session := Sample.sessionAt "gen_a" [Sample.unlocked "gen_a"];
                 isGenerating := false |} _ (Sample.unlocked "gen_a")
              eq_refl eq_refl eq_refl H NH)
    as (child & st' & w' & E & _ & L & _ & _ & T & _).
  exists child, st', w'. split; [exact E|]. split; [exact L|].
  apply T. now left.
Defined.

Lemma lockFirst_Forall2 name locks gens :
  Forall2 (fun g g' => g' = g \/ (Generation.id g = name /\ g' = relocked g locks))
    gens (lockFirst name locks gens).
Proof.
  induction gens as [|g gens IH]; [constructor|]. cbn [lockFirst].
  destruct (String.eqb (Generation.id g) name) eqn:E.
  - constructor.
    + right. split; [now apply String.eqb_eq | reflexivity].
    + clear. induction gens; constructor; auto.
  - constructor; [now left | exact IH].
Qed.

Lemma goodRating_spec r : goodRating (Some r) = true <-> 4 <= r.
Proof.
  unfold goodRating. rewrite andb_true_iff, !negb_true_iff, Qltb_le.
  split; [now intros [_ ?]|]. intros H. split; [|exact H].
  apply not_true_iff_false. intros E. apply Qeq_bool_iff in E. lra.
Qed.

(** X18. [addFeedback] never moves the pointer of the session, never adds,
    removes or reorders a generation, and changes no generation but the
    first one with the given id, of which it replaces the locks when the
    feedback carries locks.  Feedback on an id that no generation has is
    dropped without an error.  The memory of the session grows only by a
    rating of 4 or more on a known generation: by the mood and by the
    mutation history of that generation. *)
Theorem addFeedback_frame (fbk : UserFeedback.t) (st : Stores) (w : World) :
  let st' := fst (addFeedback fbk st w) in
  let target :=
    find (fun g => String.eqb (Generation.id g) (UserFeedback.generationId fbk))
         (Session.generations (session st)) in
  Session.currentGeneration (session st') = Session.currentGeneration (session st)
  /\ isGenerating st' = isGenerating st
  /\ Session.settings (session st') = Session.settings (session st)
  /\ Forall2
       (fun g g' =>
          g' = g
          \/ exists locks,
               UserFeedback.lockedElements fbk = Some locks
               /\ Generation.id g = UserFeedback.generationId fbk
               /\ g' = relocked g locks)
       (Session.generations (session st)) (Session.generations (session st'))
  /\ (target = None ->
      Session.generations (session st') = Session.generations (session st)
      /\ Session.memory (session st') = Session.memory (session st))
  /\ (UserFeedback.lockedElements fbk = None ->
      Session.generations (session st') = Session.generations (session st))
  /\ (UserFeedback.rating fbk = None ->
      Session.memory (session st') = Session.memory (session st))
  /\ (forall r, UserFeedback.rating fbk = Some r -> r < 4 ->
      Session.memory (session st') = Session.memory (session st))
  /\ (forall g r, target = Some g -> UserFeedback.rating fbk = Some r -> 4 <= r ->
      preferredMoods (Session.memory (session st'))
      = (preferredMoods (Session.memory (session st)) ++ [Generation.mood g])%list
      /\ successfulMutations (Session.memory (session st'))
         = (successfulMutations (Session.memory (session st))
            ++ Generation.mutations g)%list
      /\ avoidedPatterns (Session.memory (session st'))
         = avoidedPatterns (Session.memory (session st))
      /\ stylePreferences (Session.memory (session st'))
         = stylePreferences (Session.memory (session st))).
Proof.
  cbv zeta. unfold addFeedback. destruct (tick w) as [t w'].
  cbn [fst session isGenerating Session.currentGeneration Session.settings
       Session.generations Session.memory].
  set (target := find _ _).
  assert (Same : forall l : list Generation.t,
            Forall2
              (fun g g' =>
                 g' = g
                 \/ exists locks,
                      UserFeedback.lockedElements fbk = Some locks
                      /\ Generation.id g = UserFeedback.generationId fbk
                      /\ g' = relocked g locks) l l).
  { induction l; constructor; auto. }
  repeat apply conj; try reflexivity.
  - destruct target; [|apply Same].
    destruct (UserFeedback.lockedElements fbk) as [locks|] eqn:L; [|apply Same].
    eapply Forall2_impl; [apply lockFirst_Forall2|].
    intros g g' [E|[E1 E2]]; [now left|]. right. now exists locks.
  - intros ->. now split.
  - intros ->. now destruct target.
  - intros ->. cbn [goodRating]. now destruct target.
  - intros r -> Lt. destruct target; [|reflexivity].
    destruct (goodRating (Some r)) eqn:G; [|reflexivity].
    apply goodRating_spec in G. lra.
  - intros g r Tg Rt Le. apply goodRating_spec in Le. rewrite Tg, Rt, Le.
    now repeat split.
Qed.



(** X20. [setCurrentGeneration] does not check the id it is given.  When a
    generation has that id, the next [evolveCurrentGeneration] branches from
    it: the child of the first such generation is appended at the end of the
    generations, on the same branch name.  When no generation has that id,
    the call itself succeeds and the next [evolveCurrentGeneration] throws,
    leaving the pointer on the unknown id. *)
Theorem navigation_then_evolution
    (renderCode : MusicParameters -> list SynthValue.t -> string)
    (renderId : Q -> Q -> string)
    (target : string) (feedback : option string) (st : Stores) (w : World) :
  (forall g,
     find (fun g => String.eqb (Generation.id g) target)
          (Session.generations (session st)) = Some g ->
     heap_ok w (synths (Generation.musicParams g)) ->
     no_holes (patterns (Generation.musicParams g)) ->
     exists child st' w',
       evolveCurrentGeneration renderCode renderId feedback
         (setCurrentGeneration target st) w = (st', Ok child w')
       /\ Generation.parentId child = Some target
       /\ Generation.generationNumber child = Generation.generationNumber g + 1
       /\ Generation.branch child = Generation.branch g
       /\ Session.generations (session st')
          = (Session.generations (session st) ++ [child])%list
       /\ Session.currentGeneration (session st') = Generation.id child)
  /\ ((forall g, In g (Session.generations (session st)) ->
                 Generation.id g <> target) ->
      evolveCurrentGeneration renderCode renderId feedback
        (setCurrentGeneration target st) w
      = (setCurrentGeneration target st,
         Throw (Error "No current generation to evolve") w)
      /\ Session.currentGeneration (session (setCurrentGeneration target st))
         = target).
Proof.
  split.
  - intros g F H NH.
    assert (C : currentOf (session (setCurrentGeneration target st)) = Some g)
      by exact F.
    destruct (evolveCurrentGeneration_spec renderCode renderId feedback
                (setCurrentGeneration target st) w g C H NH)
      as (child & w1 & _ & _ & _ & D & E).
    destruct D as (P & N & _ & _ & _ & _ & B & _).
    eexists child, _, _. split; [exact E|].
    apply find_some in F as [_ F]. apply String.eqb_eq in F. rewrite <- F.
    now repeat split.
  - intros Ne. split; [|reflexivity].
    unfold evolveCurrentGeneration.
    cbn [setCurrentGeneration session Session.generations
         Session.currentGeneration].
    rewrite find_absent; [reflexivity|].
    intros g Hg. apply String.eqb_neq. now apply Ne.
Qed.

Lemma navigation_then_evolution_witness :
  let st := {| session :=
                 Sample.sessionAt "gen_b"
                   [Sample.unlocked "gen_a"; Sample.childOf "gen_b" "gen_a"];
               isGenerating := false |} in
  let w := Sample.heapWorld [0.9; 0.1; 0.9; 0.1] in
  (exists child st' w',
     evolveCurrentGeneration Sample.renderCode Sample.renderId None
       (setCurrentGeneration "gen_a" st) w = (st', Ok child w')
     /\ Generation.parentId child = Some "gen_a"
     /\ Session.generations (session st')
        = [Sample.unlocked "gen_a"; Sample.childOf "gen_b" "gen_a"; child])
  /\ evolveCurrentGeneration Sample.renderCode Sample.renderId None
       (setCurrentGeneration "gen_z" st) w
     = (setCurrentGeneration "gen_z" st,
        Throw (Error "No current generation to evolve") w).
Proof.
  cbv zeta.
  destruct (navigation_then_evolution Sample.renderCode Sample.renderId "gen_a"
              None
              {| session :=
                   Sample.sessionAt "gen_b"
                     [Sample.unlocked "gen_a"; Sample.childOf "gen_b" "gen_a"];
                 isGenerating := false |}
              (Sample.heapWorld [0.9; 0.1; 0.9; 0.1])) as [Found _].
  destruct (navigation_then_evolution Sample.renderCode Sample.renderId "gen_z"
              None
              {| session :=
                   Sample.sessionAt "gen_b"
                     [Sample.unlocked "gen_a"; Sample.childOf "gen_b" "gen_a"];
                 isGenerating := false |}
              (Sample.heapWorld [0.9; 0.1; 0.9; 0.1])) as [_ Missing].
  split.
  - destruct (Found (Sample.unlocked "gen_a") eq_refl)
      as (child & st' & w' & E & P & _ & _ & G & _).
    + repeat constructor.
    + repeat constructor. now exists Sample.layer.
    + exists child, st', w'. now repeat split.
  - apply Missing. intros g [<-|[<-|[]]]; discriminate.
Defined.

(** ** The generation tree *)

Lemma tree_get_push tree k g key :
  tree_get (tree_push tree k g) key
  = if String.eqb k key
    then Some (match tree_get tree k with
               | Some c => c
               | None => []
               end ++ [g])%list
    else tree_get tree key.
Proof.
  induction tree as [|[k0 c0] tree IH]; cbn [tree_push tree_get].
  - destruct (String.eqb k key); reflexivity.
  - destruct (String.eqb k0 k) eqn:E0.
    + apply String.eqb_eq in E0. subst k0. cbn [tree_get].
      destruct (String.eqb k key) eqn:E; [reflexivity|].
      reflexivity.
    + cbn [tree_get]. destruct (String.eqb k0 key) eqn:E1.
      * apply String.eqb_eq in E1. subst k0.
        rewrite String.eqb_sym in E0. now rewrite E0.
      * exact IH.
Qed.

Lemma buildFrom_spec gens : forall tree,
  (forall g, In g gens -> ~ In (treeKey g) inheritedKeys) ->
  exists tree',
    buildFrom tree gens = inr tree'
    /\ forall key,
         tree_get tree' key
         = match tree_get tree key,
                 List.filter (fun g => String.eqb (treeKey g) key) gens with
           | Some c0, c => Some (c0 ++ c)%list
           | None, [] => None
           | None, c => Some c
           end.
Proof.
  induction gens as [|g gens IH]; intros tree Ok.
  - exists tree. split; [reflexivity|]. intros key. cbn [List.filter].
    destruct (tree_get tree key); [now rewrite app_nil_r | reflexivity].
  - cbn [buildFrom].
    assert (A : arr_includes inheritedKeys (treeKey g) = false).
    { apply not_true_iff_false. intros A. apply arr_includes_In in A.
      apply (Ok g); [now left | exact A]. }
    rewrite A.
    destruct (IH (tree_push tree (treeKey g) g)) as (tree' & E & G).
    { intros x Hx. apply Ok. now right. }
    exists tree'. split; [exact E|]. intros key. rewrite G, tree_get_push.
    cbn [List.filter].
    destruct (String.eqb (treeKey g) key) eqn:K.
    + apply String.eqb_eq in K. rewrite K.
      destruct (tree_get tree key) as [c0|].
      * now rewrite <- app_assoc.
      * reflexivity.
    + reflexivity.
Qed.

Lemma buildFrom_inherited gens : forall tree,
  Exists (fun g => In (treeKey g) inheritedKeys) gens ->
  buildFrom tree gens = inl TypeError.
Proof.
  induction gens as [|g gens IH]; intros tree Ex; [inversion Ex|].
  cbn [buildFrom].
  destruct (arr_includes inheritedKeys (treeKey g)) eqn:A; [reflexivity|].
  apply IH. apply Exists_cons in Ex as [Bad|Ex]; [|exact Ex].
  apply arr_includes_In in Bad. congruence.
Qed.

(** X21. [buildGenerationTree] files every generation under the id of its
    parent, or under the key root when it has none (or an empty one): when
    no key is a name that an object inherits, looking a key up in the tree
    gives the generations with that key, in the order of the list, and
    nothing for a key that no generation has.  When a key is an inherited
    name, such as constructor or toString, the call throws a TypeError. *)
Theorem generation_tree_lookup (gens : list Generation.t) :
  ((forall g, In g gens -> ~ In (treeKey g) inheritedKeys) ->
   exists tree,
     buildGenerationTree gens = inr tree
     /\ forall key,
          tree_get tree key
          = match List.filter (fun g => String.eqb (treeKey g) key) gens with
            | [] => None
            | children => Some children
            end)
  /\ (Exists (fun g => In (treeKey g) inheritedKeys) gens ->
      buildGenerationTree gens = inl TypeError).
Proof.
  split.
  - intros Ok. destruct (buildFrom_spec gens [] Ok) as (tree & E & G).
    exists tree. split; [exact E|]. intros key. rewrite G. reflexivity.
  - apply buildFrom_inherited.
Qed.

Lemma generation_tree_lookup_witness :
  let gens := [Sample.unlocked "gen_a"; Sample.childOf "gen_b" "gen_a";
               Sample.childOf "gen_c" "gen_a"] in
  (exists tree,
     buildGenerationTree gens = inr tree
     /\ tree_get tree "root" = Some [Sample.unlocked "gen_a"]
     /\ tree_get tree "gen_a"
        = Some [Sample.childOf "gen_b" "gen_a"; Sample.childOf "gen_c" "gen_a"]
     /\ tree_get tree "gen_b" = None)
  /\ buildGenerationTree [Sample.childOf "gen_x" "toString"] = inl TypeError.
Proof.
  cbv zeta. split.
  - destruct (proj1 (generation_tree_lookup
                       [Sample.unlocked "gen_a"; Sample.childOf "gen_b" "gen_a";
                        Sample.childOf "gen_c" "gen_a"]))
      as (tree & E & G).
    + intros g [<-|[<-|[<-|[]]]] I; cbn in I;
        repeat (destruct I as [I|I]; [discriminate I|]); exact I.
    + exists tree. split; [exact E|]. rewrite !G. now repeat split.
  - apply (proj2 (generation_tree_lookup [Sample.childOf "gen_x" "toString"])).
    constructor. cbn. tauto.
Defined.

(** ** The notes of the synthesized layers *)

Lemma fair_of_rng_only {A} (m : M A) (P : A -> Prop) : rng_only m P -> fair m P.
Proof. intros H w _. apply H. Qed.

Lemma js_index_in (arr : list string) (i : Z) :
  (0 <= i < Z.of_nat (length arr))%Z -> In (js_index arr i) arr.
Proof.
  intros [L U]. unfold js_index.
  destruct (i <? 0)%Z eqn:N; [apply Z.ltb_lt in N; lia|].
  destruct (arr !! Z.to_nat i) as [x|] eqn:E.
  - apply list_elem_of_In. now apply (list_elem_of_lookup_2 _ _ _ E).
  - apply lookup_ge_None in E. lia.
Qed.

Lemma floor_index_draw (r : Q) (n : nat) :
  (1 <= n)%nat -> 0 <= r /\ r < 1 ->
  (0 <= floor_index (r * of_nat n) < Z.of_nat n)%Z.
Proof.
  intros Hn [R0 R1]. pose proof (of_nat_pos n Hn) as P. unfold floor_index. split.
  - change 0%Z with (Qfloor 0). apply Qfloor_resp_le. nra.
  - rewrite Zlt_Qlt. apply (Qle_lt_trans _ (r * of_nat n)); [apply Qfloor_le|].
    unfold of_nat in *. nra.
Qed.

Lemma generateBassLine_fair sc emotion :
  (5 <= length sc)%nat ->
  fair (MusicEngine.generateBassLine sc emotion) (Forall (note_of sc)).
Proof.
  intros Len. unfold MusicEngine.generateBassLine.
  eapply fair_weaken.
  - apply (fair_forPush _ (fun _ => note_of sc)). intros i.
    apply (fair_bind _ _ (fun _ => True)).
    + apply fair_andM. apply (fair_bind _ _ _ _ fair_random). intros r _.
      now apply fair_ret.
    + intros [] _.
      * apply (fair_bind _ _ _ _ fair_random). intros r R. apply fair_ret.
        eexists _, "2". split; [|split; [cbn; tauto | reflexivity]].
        apply js_index_in, floor_index_draw; [lia | exact R].
      * apply fair_ret. eexists _, "2".
        split; [|split; [cbn; tauto | reflexivity]].
        apply js_index_in.
        assert (M : (i mod 4 < 4)%nat) by (apply Nat.mod_upper_bound; lia).
        destruct (i mod 4)%nat as [|[|[|[|k]]]]; cbn; lia.
  - intros notes [_ F]. apply Forall_forall. intros n Hn.
    apply list_elem_of_lookup_1 in Hn as [k Hk]. exact (F k n Hk).
Qed.

Lemma melodyLoop_fair sc emotion n : forall cur,
  (1 <= length sc)%nat -> (0 <= cur)%Z ->
  fair (MusicEngine.melodyLoop sc emotion n cur) (Forall (note_of sc)).
Proof.
  induction n as [|n IH]; intros cur Len Cur.
  - apply fair_ret. constructor.
  - cbn [MusicEngine.melodyLoop].
    apply (fair_bind _ _ (fun i => (0 <= i < Z.of_nat (length sc))%Z)).
    + destruct (chaos emotion >? 0.5).
      * apply (fair_bind _ _ _ _ fair_random). intros r R. apply fair_ret.
        now apply floor_index_draw.
      * destruct (tension emotion >? 0.5).
        -- apply (fair_bind _ _ _ _ fair_random). intros r R. apply fair_ret.
           destruct (r >? 0.5); lia.
        -- apply (fair_bind _ _ _ _ fair_random). intros r R. apply fair_ret.
           destruct (r >? 0.5); lia.
    + intros i Hi.
      apply (fair_bind _ _ _ _ (IH i Len ltac:(lia))). intros rest F.
      apply fair_ret. constructor; [|exact F].
      eexists _, _. split; [now apply js_index_in|].
      split; [|reflexivity]. destruct (energy emotion >? 0.6); cbn; tauto.
Qed.

Lemma generatePatterns_notes emotion sc :
  (5 <= length sc)%nat ->
  fair (MusicEngine.generatePatterns emotion sc)
       (Forall (fun p => Forall (note_of sc) (notes p))).
Proof.
  intros Len. unfold MusicEngine.generatePatterns.
  apply (fair_bind _ _ _ _ (generateBassLine_fair sc emotion Len)). intros bn Fb.
  apply (fair_bind _ _ (fun _ => True)).
  { apply fair_of_rng_only. eapply rng_only_weaken;
      [apply generateRhythm_rng | easy]. }
  intros bd _.
  apply (fair_bind _ _ (fun _ => True)).
  { apply fair_of_rng_only. eapply rng_only_weaken;
      [apply generateVelocities_rng | easy]. }
  intros bv _.
  apply (fair_bind _ _ (fun _ => True)).
  { apply fair_of_rng_only. eapply rng_only_weaken;
      [apply generateTiming_rng | easy]. }
  intros bt _.
  destruct (complexity emotion >? 0.3).
  - apply (fair_bind _ _ (Forall (note_of sc))).
    { unfold MusicEngine.generateMelody. apply melodyLoop_fair; [lia|].
      apply Z.div_pos; lia. }
    intros mn Fm.
    apply (fair_bind _ _ (fun _ => True)).
    { apply fair_of_rng_only. eapply rng_only_weaken;
        [apply generateRhythm_rng | easy]. }
    intros md _.
    apply (fair_bind _ _ (fun _ => True)).
    { apply fair_of_rng_only. eapply rng_only_weaken;
        [apply generateVelocities_rng | easy]. }
    intros mv _.
    apply (fair_bind _ _ (fun _ => True)).
    { apply fair_of_rng_only. eapply rng_only_weaken;
        [apply generateTiming_rng | easy]. }
    intros mt _.
    apply fair_ret. repeat constructor; assumption.
  - apply fair_ret. repeat constructor; assumption.
Qed.

(** X22. With draws in [0,1), every note of every layer that
    [emotionToParams] returns is a note of the returned scale followed by an
    octave digit (2, 3 or 4): no index into the scale is out of range, so the
    text undefined never appears in a note name. *)
Theorem synthesized_notes_are_in_scale (emotion : EmotionalVector)
    (prompt : string) (w : World) :
  valid_rng w ->
  exists p w',
    MusicEngine.emotionToParams emotion prompt w = Ok p w'
    /\ Forall (fun slot => exists layer,
                 slot = Some layer
                 /\ Forall (fun note => exists s o,
                              In s (scale p) /\ In o ["2"; "3"; "4"]
                              /\ note = s ++ o)
                      (notes layer))
         (patterns p).
Proof.
  intros V. apply wp_elim. unfold MusicEngine.emotionToParams. cbv zeta.
  assert (Rest : forall ts w1,
            valid_rng w1 ->
            wp (let* synths := MusicEngine.emotionToSynths emotion in
                let* patterns :=
                  MusicEngine.generatePatterns emotion
                    (MusicEngine.selectScale emotion) in
                ret {| tempo := 60 + energy emotion * 120;
                       key := MusicEngine.selectKey emotion;
                       scale := MusicEngine.selectScale emotion;
                       timeSignature := ts;
                       effects := MusicEngine.emotionToEffects emotion;
                       synths := synths;
                       patterns := map Some patterns |}) w1
               (fun p _ =>
                  Forall (fun slot => exists layer,
                            slot = Some layer
                            /\ Forall (fun note => exists s o,
                                         In s (scale p) /\ In o ["2"; "3"; "4"]
                                         /\ note = s ++ o)
                                 (notes layer))
                    (patterns p))).
  { intros ts w1 V1.
    apply wp_bind, emotionToSynths_wp. intros voices w2 X2 _ _.
    apply wp_bind.
    assert (Len : (5 <= length (MusicEngine.selectScale emotion))%nat).
    { rewrite selectScale_length. lia. }
    apply (fair_wp _ _ _ _
             (generatePatterns_notes emotion (MusicEngine.selectScale emotion) Len)
             (extends_valid_rng _ _ X2 V1)).
    intros ps w3 _ _ F. apply wp_ret. cbn [patterns scale].
    apply Forall_forall. intros slot Hs.
    apply list_elem_of_In, in_map_iff in Hs as (layer & <- & Hl).
    exists layer. split; [reflexivity|].
    rewrite Forall_forall in F. apply F. now apply list_elem_of_In. }
  apply wp_bind. destruct (chaos emotion >? 0.6).
  - unfold MusicEngine.getComplexTimeSignature.
    apply wp_bind, wp_random_valid. intros r w1 A1 _. apply wp_ret.
    apply Rest. now apply (after_valid_rng w).
  - apply wp_ret, Rest. exact V.
Qed.

Lemma synthesized_notes_are_in_scale_witness :
  valid_rng (Sample.heapWorld [0.3; 0.8; 0.6])
  /\ exists p w',
       MusicEngine.emotionToParams validEmotionSample "storm"
         (Sample.heapWorld [0.3; 0.8; 0.6]) = Ok p w'
       /\ Forall (fun slot => exists layer,
                    slot = Some layer
                    /\ Forall (fun note => exists s o,
                                 In s (scale p) /\ In o ["2"; "3"; "4"]
                                 /\ note = s ++ o)
                         (notes layer))
            (patterns p).
Proof.
  assert (V : valid_rng (Sample.heapWorld [0.3; 0.8; 0.6])).
  { unfold valid_rng. cbn. repeat constructor; cbn; lra. }
  split; [exact V|].
  exact (synthesized_notes_are_in_scale validEmotionSample "storm" _ V).
Defined.

(** ** Timbral evolutions *)

(** A timbral mutation with [synths] unlocked returns the voices of its
    argument, not those of the clone. *)
Lemma applyMutation_timbral params strat locked w :
  Strategy.type strat = timbral -> heap_ok w (synths params) ->
  arr_includes locked "synths" = false ->
  wp (applyMutation params strat locked) w
     (fun out _ =>
        synths out = synths params
        /\ (arr_includes locked "effects" = false ->
            (0.1 <= Reverb.roomSize (reverb (effects out))
             /\ Reverb.roomSize (reverb (effects out)) <= 0.9)
            /\ (0 <= Delay.feedback (delay (effects out))
                /\ Delay.feedback (delay (effects out)) <= 0.9)
            /\ Reverb.wet (reverb (effects out)) = Reverb.wet (reverb (effects params))
            /\ Delay.wet (delay (effects out)) = Delay.wet (delay (effects params)))).
Proof.
  intros T H Ls. unfold applyMutation.
  apply wp_bind, jsonClone_wp; [exact H|]. intros fresh w1 X V H1.
  pose proof (extends_heap_ok _ _ _ X H) as H1'.
  rewrite T, Ls. cbn [negb]. apply wp_bind.
  apply wp_bind, mapM_mutateSynth_wp; [exact H1'|]. intros w2 S2.
  apply wp_ret.
  destruct (arr_includes locked "effects"); cbn [negb].
  - apply wp_ret. cbn [synths set_synths]. split; [reflexivity | discriminate].
  - rng_next (mutateEffects_rng (effects params) (Strategy.intensity strat)).
    apply wp_ret. cbn [synths set_synths set_effects effects].
    split; [reflexivity|]. intros _. tauto.
Qed.

(** X23. A timbral evolution does not give the child voices of its own.
    Whenever the selected strategy is timbral and [synths] is not locked, the
    synth voices of the child are the very oscillator and envelope objects
    of the parent: parent and child have the same voices after the call, so
    what the mutation wrote is also in the parent.  Unless [effects] is
    locked, the reverb room size of the child is in [0.1,0.9] and its delay
    feedback in [0,0.9], and both wetness values are the parent's. *)
Theorem timbral_child_shares_voices
    (renderCode : MusicParameters -> list SynthValue.t -> string)
    (renderId : Q -> Q -> string)
    (parent : Generation.t) (temperature : Q) (feedback : option string)
    (w : World) :
  heap_ok w (synths (Generation.musicParams parent)) ->
  no_holes (patterns (Generation.musicParams parent)) ->
  Strategy.type (chooseMutationStrategy parent temperature feedback) = timbral ->
  ~ In "synths" (Generation.lockedElements parent) ->
  exists g w',
    evolve renderCode renderId parent temperature feedback w = Ok g w'
    /\ synths (Generation.musicParams g) = synths (Generation.musicParams parent)
    /\ synthValues w' (synths (Generation.musicParams g))
       = synthValues w' (synths (Generation.musicParams parent))
    /\ (~ In "effects" (Generation.lockedElements parent) ->
        (0.1 <= Reverb.roomSize (reverb (effects (Generation.musicParams g)))
         /\ Reverb.roomSize (reverb (effects (Generation.musicParams g))) <= 0.9)
        /\ (0 <= Delay.feedback (delay (effects (Generation.musicParams g)))
            /\ Delay.feedback (delay (effects (Generation.musicParams g))) <= 0.9)
        /\ Reverb.wet (reverb (effects (Generation.musicParams g)))
           = Reverb.wet (reverb (effects (Generation.musicParams parent)))
        /\ Delay.wet (delay (effects (Generation.musicParams g)))
           = Delay.wet (delay (effects (Generation.musicParams parent)))).
Proof.
  intros H NH Ty NL.
  destruct (evolve_spec renderCode renderId parent temperature feedback w H NH)
    as (out & w1 & code & f & name & t & w' & E1 & H1 & NH1 & _ & Sh & E2).
  set (strat := chooseMutationStrategy parent temperature feedback) in *.
  assert (A : arr_includes (Generation.lockedElements parent) "synths" = false).
  { apply not_true_iff_false. intros A. now apply arr_includes_In in A. }
  pose proof (applyMutation_timbral (Generation.musicParams parent) strat
                (Generation.lockedElements parent) w Ty H A) as Ht.
  unfold wp in Ht. rewrite E1 in Ht. destruct Ht as [Sy Ef].
  eexists _, w'. split; [exact E2|]. cbn [Generation.musicParams].
  split; [exact Sy|]. split; [now rewrite Sy|].
  intros NE. apply Ef.
  apply not_true_iff_false. intros B. now apply arr_includes_In in B.
Qed.

Lemma timbral_child_shares_voices_witness :
  let parent := Sample.offMood "gen_a" in
  let w := Sample.heapWorld [0.9; 0.1; 0.9; 0.1] in
  heap_ok w (synths (Generation.musicParams parent))
  /\ no_holes (patterns (Generation.musicParams parent))
  /\ Strategy.type (chooseMutationStrategy parent 0.5 None) = timbral
  /\ ~ In "synths" (Generation.lockedElements parent)
  /\ exists g w',
       evolve Sample.renderCode Sample.renderId parent 0.5 None w = Ok g w'
       /\ synths (Generation.musicParams g) = synths (Generation.musicParams parent).
Proof.
  cbv zeta.
  assert (H : heap_ok (Sample.heapWorld [0.9; 0.1; 0.9; 0.1])
                (synths (Generation.musicParams (Sample.offMood "gen_a")))).
  { repeat constructor. }
  assert (NH : no_holes (patterns (Generation.musicParams (Sample.offMood "gen_a")))).
  { repeat constructor; now exists Sample.layer. }
  assert (NL : ~ In "synths" (Generation.lockedElements (Sample.offMood "gen_a"))).
  { intros []. }
  split; [exact H|]. split; [exact NH|]. split; [reflexivity|]. split; [exact NL|].
  destruct (timbral_child_shares_voices Sample.renderCode Sample.renderId
              (Sample.offMood "gen_a") 0.5 None _ H NH eq_refl NL)
    as (g & w' & E & Sy & _).
  exists g, w'. now split.
Defined.

(** ** The selector *)



Lemma unrecognised_feedback_strategy parent temperature fb :
  parseFeedback fb = None ->
  chooseMutationStrategy parent temperature (Some fb)
  = chooseMutationStrategy parent temperature None.
Proof.
  intros P. unfold chooseMutationStrategy. rewrite P. now destruct (truthy fb).
Qed.

(** X25. A feedback text of none of the four phrase classes has no effect
    on the music.  [evolve] with such a text returns the generation that
    [evolve] without feedback returns from the same world: same id, code,
    parameters, fitness and mutation history, same final world; the two
    differ in nothing but the sentence of the intention. *)
Theorem unrecognised_feedback_is_ignored
    (renderCode : MusicParameters -> list SynthValue.t -> string)
    (renderId : Q -> Q -> string)
    (parent : Generation.t) (temperature : Q) (fb : string) (w : World) :
  heap_ok w (synths (Generation.musicParams parent)) ->
  no_holes (patterns (Generation.musicParams parent)) ->
  Phrase.energy fb = false -> Phrase.darkening fb = false ->
  Phrase.simplification fb = false -> Phrase.experimental fb = false ->
  exists g g' w',
    evolve renderCode renderId parent temperature None w = Ok g w'
    /\ evolve renderCode renderId parent temperature (Some fb) w = Ok g' w'
    /\ Generation.id g' = Generation.id g
    /\ Generation.timestamp g' = Generation.timestamp g
    /\ Generation.musicCode g' = Generation.musicCode g
    /\ Generation.musicParams g' = Generation.musicParams g
    /\ Generation.fitness g' = Generation.fitness g
    /\ Generation.mutations g' = Generation.mutations g
    /\ analysis (Generation.creativeReasoning g')
       = analysis (Generation.creativeReasoning g)
    /\ strategy (Generation.creativeReasoning g')
       = strategy (Generation.creativeReasoning g)
    /\ reflection (Generation.creativeReasoning g')
       = reflection (Generation.creativeReasoning g)
    /\ intention (Generation.creativeReasoning g')
       = articulateIntent (chooseMutationStrategy parent temperature None) (Some fb).
Proof.
  intros H NH Pe Pd Ps Px.
  pose proof (parseFeedback_classes fb) as P. rewrite Pe, Pd, Ps, Px in P.
  pose proof (unrecognised_feedback_strategy parent temperature fb P) as S.
  assert (Ex : exists g w',
            evolve renderCode renderId parent temperature None w = Ok g w').
  { destruct (evolve_spec renderCode renderId parent temperature None w H NH)
      as (out & w1 & code & f & name & t & w' & _ & _ & _ & _ & _ & E).
    eauto. }
  destruct Ex as (g & w' & E).
  unfold evolve in E |- *. rewrite S. unfold bind in E |- *.
  destruct (applyMutation _ _ _ w) as [out w1|]; [|discriminate E].
  destruct (generateCode renderCode out w1) as [code w2|]; [|discriminate E].
  destruct (evaluateFitness out _ _ w2) as [f w3|]; [|discriminate E].
  destruct (generateId renderId w3) as [name w4|]; [|discriminate E].
  destruct (now w4) as [t w5|]; [|discriminate E].
  unfold ret in E |- *. injection E as <- <-.
  eexists _, _, w5. split; [reflexivity|]. split; [reflexivity|].
  now repeat split.
Qed.

Lemma unrecognised_feedback_is_ignored_witness :
  let parent := Sample.unlocked "gen_a" in
  let w := Sample.heapWorld [0.9; 0.1; 0.9; 0.1] in
  heap_ok w (synths (Generation.musicParams parent))
  /\ no_holes (patterns (Generation.musicParams parent))
  /\ Phrase.energy "more complex" = false
  /\ Phrase.darkening "more complex" = false
  /\ Phrase.simplification "more complex" = false
  /\ Phrase.experimental "more complex" = false
  /\ exists g g' w',
       evolve Sample.renderCode Sample.renderId parent 0.5 None w = Ok g w'
       /\ evolve Sample.renderCode Sample.renderId parent 0.5
            (Some "more complex") w = Ok g' w'
       /\ Generation.musicParams g' = Generation.musicParams g
       /\ intention (Generation.creativeReasoning g')
          = "Based on feedback: " ++ dquote ++ "more complex" ++ dquote
            ++ ", I want to add more layers and intrigue.".
Proof.
  cbv zeta.
  assert (H : heap_ok (Sample.heapWorld [0.9; 0.1; 0.9; 0.1])
                (synths (Generation.musicParams (Sample.unlocked "gen_a")))).
  { repeat constructor. }
  assert (NH : no_holes (patterns (Generation.musicParams (Sample.unlocked "gen_a")))).
  { repeat constructor; now exists Sample.layer. }
  split; [exact H|]. split; [exact NH|].
  do 4 (split; [reflexivity|]).
  destruct (unrecognised_feedback_is_ignored Sample.renderCode Sample.renderId
              (Sample.unlocked "gen_a") 0.5 "more complex" _ H NH
              eq_refl eq_refl eq_refl eq_refl)
    as (g & g' & w' & E & E' & _ & _ & _ & Pa & _ & _ & _ & _ & _ & In).
  exists g, g', w'. split; [exact E|]. split; [exact E'|]. split; [exact Pa|].
  rewrite In. reflexivity.
Defined.

(** ** A response of the remote service that is not validated *)

(** X26. [startNewSession] does not validate what the remote service
    returns.  In API mode, a response whose parameters have no synth voice
    (a value of the declared type) becomes Generation 0 as it is, with the
    fitness that the service reported; the first [evolveCurrentGeneration]
    then returns a child whose coherence score is NaN. *)
Theorem unvalidated_response_yields_NaN
    (renderCode : MusicParameters -> list SynthValue.t -> string)
    (renderId : Q -> Q -> string)
    (renderSessionId : Q -> string)
    (apiCreateInitial :
       string -> EmotionalVector ->
       M (MusicParameters * CreativeReasoning * FitnessScores))
    (api : ApiStores) (prompt : string) (mood : EmotionalVector)
    (feedback : option string) (st : Stores) (w wa : World)
    (params : MusicParameters) (reasoning : CreativeReasoning)
    (reported : FitnessScores) :
  useApiMode api && apiInitialized api = true ->
  apiCreateInitial prompt mood w = Ok (params, reasoning, reported) wa ->
  synths params = [] -> no_holes (patterns params) ->
  exists gen0 st1 w1 gen1 st2 w2,
    startNewSession renderCode renderId renderSessionId apiCreateInitial
      api prompt mood st w = (st1, Ok gen0 w1)
    /\ Generation.musicParams gen0 = params
    /\ Generation.fitness gen0 = reported
    /\ evolveCurrentGeneration renderCode renderId feedback st1 w1
       = (st2, Ok gen1 w2)
    /\ synths (Generation.musicParams gen1) = []
    /\ coherence (Generation.fitness gen1) = NaN.
Proof.
  intros Mode Api Sy NH.
  assert (Hany : forall w0, heap_ok w0 (synths params)).
  { intros w0. rewrite Sy. constructor. }
  destruct (generateId_same_heap renderId wa) as (name & wb & E1 & _).
  destruct (now_same_heap wb) as (t & wc & E2 & _).
  destruct (generateCode_ok renderCode params wc (Hany wc) NH) as [code E3].
  set (g0 := {| Generation.id := name;
                Generation.parentId := None;
                Generation.generationNumber := 0;
                Generation.timestamp := t;
                Generation.musicCode := code;
                Generation.musicParams := params;
                Generation.creativeReasoning := reasoning;
                Generation.fitness := reported;
                Generation.prompt := prompt;
                Generation.mood := mood;
                Generation.mutations := [];
                Generation.lockedElements := [];
                Generation.branch := "main";
                Generation.tags := [] |}).
  destruct (tick wc) as [t1 wd] eqn:T1.
  destruct (tick wd) as [t2 we] eqn:T2.
  destruct (tick we) as [t3 wf] eqn:T3.
  set (st1 := {| session :=
                   {| Session.id := renderSessionId t1;
                      Session.startTime := t2;
                      Session.lastUpdateTime := t3;
                      Session.initialPrompt := prompt;
                      Session.currentGeneration := Generation.id g0;
                      Session.generations := [g0];
                      Session.settings := Session.settings (session st);
                      Session.memory := Session.memory (session st) |};
                 isGenerating := false |}).
  assert (Es : startNewSession renderCode renderId renderSessionId apiCreateInitial
                 api prompt mood st w = (st1, Ok g0 wf)).
  { unfold startNewSession, initialGeneration. rewrite Mode. unfold bind.
    rewrite Api, E1, E2, E3. unfold ret. rewrite T1, T2, T3. reflexivity. }
  assert (C : currentOf (session st1) = Some g0).
  { unfold currentOf. cbn [st1 session Session.generations
                           Session.currentGeneration find].
    now rewrite String.eqb_refl. }
  destruct (evolveCurrentGeneration_spec renderCode renderId feedback st1 wf g0
              C (Hany wf) NH)
    as (child & w1 & Ev & _ & _ & _ & E).
  destruct (evolve_spec renderCode renderId g0
              (creativeTemperature (Session.settings (session st1))) feedback wf
              (Hany wf) NH)
    as (out & wg & code1 & f & name1 & t' & w1' & Ea & Ho & NHo & Ef & _ & Ev').
  rewrite Ev' in Ev. injection Ev as <- <-.
  pose proof (applyMutation_footprint params
                (chooseMutationStrategy g0
                   (creativeTemperature (Session.settings (session st1))) feedback)
                [] wf (Hany wf) NH) as Hf.
  unfold wp in Hf. cbn [g0 Generation.musicParams Generation.lockedElements] in Ea.
  rewrite Ea in Hf.
  assert (So : synths out = []).
  { pose proof (footprint_voice_types _ _ _ _ _ Hf) as Ty. rewrite Sy in Ty.
    now apply map_eq_nil in Ty. }
  destruct (evaluateFitness_values out mood prompt wg Ho NHo)
    as (ds & good & _ & _ & Ef').
  cbn [g0 Generation.mood Generation.prompt] in Ef. rewrite Ef' in Ef.
  injection Ef as <-.
  exists g0, st1, wf. eexists _, _, _.
  split; [exact Es|]. split; [reflexivity|]. split; [reflexivity|].
  split; [exact E|]. cbn [Generation.musicParams Generation.fitness coherence].
  split; [exact So | now apply assessCoherence_no_voice].
Qed.

Lemma unvalidated_response_yields_NaN_witness :
  let api := {| useApiMode := true; apiInitialized := true |} in
  let service :=
    fun (_ : string) (_ : EmotionalVector) =>
      ret (Sample.noVoice,
           {| analysis := "a"; intention := "i"; strategy := "s"; reflection := "r" |},
           Sample.scores) in
  let st := {| session := Sample.sessionAt "gen_b" []; isGenerating := false |} in
  let w := Sample.heapWorld [0.9; 0.1] in
  useApiMode api && apiInitialized api = true
  /\ synths Sample.noVoice = []
  /\ no_holes (patterns Sample.noVoice)
  /\ exists gen0 st1 w1 gen1 st2 w2,
       startNewSession Sample.renderCode Sample.renderId (fun _ => "session_1")
         service api "calm piano" (Sample.flat 0.5) st w = (st1, Ok gen0 w1)
       /\ evolveCurrentGeneration Sample.renderCode Sample.renderId None st1 w1
          = (st2, Ok gen1 w2)
       /\ coherence (Generation.fitness gen1) = NaN.
Proof.
  cbv zeta.
  assert (NH : no_holes (patterns Sample.noVoice)).
  { repeat constructor. now exists Sample.layer. }
  split; [reflexivity|]. split; [reflexivity|]. split; [exact NH|].
  destruct (unvalidated_response_yields_NaN Sample.renderCode Sample.renderId
              (fun _ => "session_1")
              (fun (_ : string) (_ : EmotionalVector) =>
                 ret (Sample.noVoice,
                      {| analysis := "a"; intention := "i"; strategy := "s";
                         reflection := "r" |},
                      Sample.scores))
              {| useApiMode := true; apiInitialized := true |}
              "calm piano" (Sample.flat 0.5) None
              {| session := Sample.sessionAt "gen_b" []; isGenerating := false |}
              (Sample.heapWorld [0.9; 0.1]) (Sample.heapWorld [0.9; 0.1])
              Sample.noVoice
              {| analysis := "a"; intention := "i"; strategy := "s";
                 reflection := "r" |}
              Sample.scores eq_refl eq_refl eq_refl NH)
    as (gen0 & st1 & w1 & gen1 & st2 & w2 & E1 & _ & _ & E2 & _ & C).
  exists gen0, st1, w1, gen1, st2, w2. now repeat split.
Defined.

(** ** Settings *)

(** X27. The creative temperature is read from the session when an evolution
    starts.  After [updateSettings] with a creative temperature above 0.8,
    the next [evolveCurrentGeneration] without feedback is a radical
    mutation, whatever the fitness of the current generation; the update
    itself changes the settings it is given and the time of the last update,
    and nothing else of the session. *)
Theorem temperature_setting_drives_evolution
    (renderCode : MusicParameters -> list SynthValue.t -> string)
    (renderId : Q -> Q -> string)
    (newSettings : SettingsPatch) (temperature : Q)
    (st : Stores) (w : World) (current : Generation.t) :
  newCreativeTemperature newSettings = Some temperature -> 0.8 < temperature ->
  currentOf (session st) = Some current ->
  heap_ok w (synths (Generation.musicParams current)) ->
  no_holes (patterns (Generation.musicParams current)) ->
  let st1 := fst (updateSettings newSettings st w) in
  let w1 := snd (updateSettings newSettings st w) in
  Session.generations (session st1) = Session.generations (session st)
  /\ Session.currentGeneration (session st1) = Session.currentGeneration (session st)
  /\ Session.memory (session st1) = Session.memory (session st)
  /\ creativeTemperature (Session.settings (session st1)) = temperature
  /\ (newAutonomyLevel newSettings = None ->
      autonomyLevel (Session.settings (session st1))
      = autonomyLevel (Session.settings (session st)))
  /\ exists child st2 w2,
       evolveCurrentGeneration renderCode renderId None st1 w1 = (st2, Ok child w2)
       /\ Generation.mutations child
          = (Generation.mutations current ++ ["radical"])%list
       /\ creativeTemperature (Session.settings (session st2)) = temperature.
Proof.
  intros Nt T C H NH. cbv zeta.
  pose proof (tick_same_heap w) as Sh.
  unfold updateSettings. destruct (tick w) as [t0 w0]. cbn [fst snd] in *.
  cbn [session Session.generations Session.currentGeneration Session.memory
       Session.settings].
  assert (Te : creativeTemperature (patchSettings (Session.settings (session st))
                                      newSettings) = temperature).
  { unfold patchSettings. cbn [creativeTemperature]. now rewrite Nt. }
  repeat (split; [reflexivity || exact Te|]).
  split.
  { intros Na. unfold patchSettings. cbn [autonomyLevel]. now rewrite Na. }
  set (st1 := {| session := _; isGenerating := _ |}).
  assert (C1 : currentOf (session st1) = Some current) by exact C.
  destruct (evolveCurrentGeneration_spec renderCode renderId None st1 w0 current
              C1 (same_heap_heap_ok _ _ _ Sh H) NH)
    as (child & w1 & Ev & _ & _ & _ & E).
  destruct (evolve_spec renderCode renderId current
              (creativeTemperature (Session.settings (session st1))) None w0
              (same_heap_heap_ok _ _ _ Sh H) NH)
    as (out & wg & code1 & f & name1 & t' & w1' & _ & _ & _ & _ & _ & Ev').
  rewrite Ev' in Ev. injection Ev as <- <-.
  assert (Te1 : creativeTemperature (Session.settings (session st1)) = temperature)
    by exact Te.
  eexists _, _, _. split; [exact E|].
  cbn [Generation.mutations session appendGeneration Session.settings].
  split; [|exact Te1].
  rewrite Nt. unfold chooseMutationStrategy.
  apply Qgtb_lt in T. now rewrite T.
Qed.

Lemma temperature_setting_drives_evolution_witness :
  let patch :=
    {| newAutonomyLevel := None; newGenerationsToRun := None;
       newCreativeTemperature := Some 0.9; newAllowBranching := None |} in
  let st := {| session := Sample.sessionAt "gen_a" [Sample.unlocked "gen_a"];
               isGenerating := false |} in
  let w := Sample.heapWorld [0.4; 0.1; 0.2; 0.3; 0.5; 0.7; 0.9; 0.6] in
  0.8 < 0.9
  /\ currentOf (session st) = Some (Sample.unlocked "gen_a")
  /\ exists child st2 w2,
       evolveCurrentGeneration Sample.renderCode Sample.renderId None
         (fst (updateSettings patch st w)) (snd (updateSettings patch st w))
       = (st2, Ok child w2)
       /\ Generation.mutations child = ["radical"].
Proof.
  cbv zeta.
  assert (T : 0.8 < 0.9) by lra.
  split; [exact T|]. split; [reflexivity|].
  destruct (temperature_setting_drives_evolution Sample.renderCode Sample.renderId
              {| newAutonomyLevel := None; newGenerationsToRun := None;
                 newCreativeTemperature := Some 0.9; newAllowBranching := None |}
              0.9
              {| session := Sample.sessionAt "gen_a" [Sample.unlocked "gen_a"];
                 isGenerating := false |}
              (Sample.heapWorld [0.4; 0.1; 0.2; 0.3; 0.5; 0.7; 0.9; 0.6])
              (Sample.unlocked "gen_a") eq_refl T eq_refl)
    as (_ & _ & _ & _ & _ & child & st2 & w2 & E & M & _).
  - repeat constructor.
  - repeat constructor. now exists Sample.layer.
  - exists child, st2, w2. now split.
Defined.

(** ** The reasoning of Generation 0 *)

(** X28. When no strategy applies to the mood (energy, warmth, space and
    complexity at most 0.6 and darkness at most 0.5), the list that
    [formulateStrategy] joins is empty: the strategy sentence of the
    Generation 0 that [createInitialGeneration] returns is then the text
    I'll use To bring this to life, whatever the prompt; and when in
    addition energy and darkness are at least 0.3 and tension and chaos at
    most 0.6, the mood is described as balanced. *)
Theorem neutral_mood_reasoning
    (renderCode : MusicParameters -> list SynthValue.t -> string)
    (renderId : Q -> Q -> string)
    (prompt : string) (mood : EmotionalVector) (w : World) :
  energy mood <= 0.6 -> darkness mood <= 0.5 -> warmth mood <= 0.6 ->
  space mood <= 0.6 -> complexity mood <= 0.6 ->
  exists g w',
    createInitialGeneration renderCode renderId prompt mood w = Ok g w'
    /\ strategy (Generation.creativeReasoning g) = "I'll use To bring this to life."
    /\ (0.3 <= energy mood -> 0.3 <= darkness mood ->
        tension mood <= 0.6 -> chaos mood <= 0.6 ->
        analysis (Generation.creativeReasoning g)
        = "Starting from prompt: " ++ dquote ++ prompt ++ dquote
          ++ ". I'm interpreting this as a call for balanced.").
Proof.
  intros En Da Wa Sp Co.
  destruct (createInitialGeneration_spec renderCode renderId prompt mood w)
    as (p & wa & code & f & name & t & w' & _ & _ & _ & _ & _ & E).
  eexists _, w'. split; [exact E|].
  cbn [Generation.creativeReasoning strategy analysis].
  apply Qgtb_le in En. pose proof Da as Da5. apply Qgtb_le in Da5.
  apply Qgtb_le in Wa. apply Qgtb_le in Sp. pose proof Co as Co6.
  apply Qgtb_le in Co6.
  split.
  - unfold formulateStrategy. now rewrite En, Da5, Wa, Sp, Co6.
  - intros En3 Da3 Te Ch. unfold describeMood.
    apply Qltb_le in En3. apply Qltb_le in Da3.
    apply Qgtb_le in Te. apply Qgtb_le in Ch.
    assert (Da6 : (darkness mood >? 0.6) = false) by (apply Qgtb_le; lra).
    assert (Co7 : (complexity mood >? 0.7) = false) by (apply Qgtb_le; lra).
    now rewrite En, En3, Te, Da6, Da3, Wa, Co7, Ch, Sp.
Qed.

Lemma neutral_mood_reasoning_witness :
  energy (Sample.flat 0.5) <= 0.6 /\ darkness (Sample.flat 0.5) <= 0.5
  /\ warmth (Sample.flat 0.5) <= 0.6 /\ space (Sample.flat 0.5) <= 0.6
  /\ complexity (Sample.flat 0.5) <= 0.6
  /\ exists g w',
       createInitialGeneration Sample.renderCode Sample.renderId "calm piano"
         (Sample.flat 0.5) (Sample.heapWorld [0.3; 0.8; 0.6]) = Ok g w'
       /\ strategy (Generation.creativeReasoning g)
          = "I'll use To bring this to life.".
Proof.
  assert (A : energy (Sample.flat 0.5) <= 0.6) by (cbn; lra).
  assert (B : darkness (Sample.flat 0.5) <= 0.5) by (cbn; lra).
  assert (C : warmth (Sample.flat 0.5) <= 0.6) by (cbn; lra).
  assert (D : space (Sample.flat 0.5) <= 0.6) by (cbn; lra).
  assert (E : complexity (Sample.flat 0.5) <= 0.6) by (cbn; lra).
  repeat (split; [assumption|]).
  destruct (neutral_mood_reasoning Sample.renderCode Sample.renderId "calm piano"
              (Sample.flat 0.5) (Sample.heapWorld [0.3; 0.8; 0.6]) A B C D E)
    as (g & w' & Eg & S & _).
  exists g, w'. now split.
Defined.
